(** * otr3: AKE wire messages, query handling, SMP state machine,
      conversation teardown and fragmentation

    A shallow embedding of the Go package [otr3].  Go values are modelled
    as follows:
    - [[]byte] and fixed-size byte arrays are [list byte];
    - [uint16]/[uint32]/[int] are [Z] or [nat] (lengths and indices);
    - [*big.Int] stored in a conversation is a location in a heap of
      integers, so that [wipeBigInt] acts on the shared object;
    - [error] is [option error], [None] being [nil];
    - an index or slice expression out of range is the outcome [Panic]. *)

From Stdlib Require Import ZArith Strings.String Strings.Byte Lia.
From Stdlib Require Import DecimalFacts DecimalPos DecimalN.
From Stdlib Require Import HexadecimalFacts HexadecimalPos HexadecimalN.
From stdpp Require Import base option list gmap.

Local Open Scope Z_scope.

(** ** Go runtime values *)

Abbreviation bytes := (list byte).

(** The result of a Go call that may hit a run-time panic. *)
Inductive outcome (A : Type) : Type :=
| Ret (a : A)
| Panic (reason : string).
Arguments Ret {A} a.
Arguments Panic {A} reason.

(** Go [error] values of the package: [errors.New], [newOtrError], and the
    package-level error variables the source refers to. *)
Inductive error : Type :=
| errorsNew (msg : string)
| newOtrError (msg : string)
| errInvalidVersion
| errShortRandomRead
| errInvalidOTRMessage
| errReceivedMessageForOtherInstance
| errCorruptEncryptedSignature
| errUnexpectedMessage
| ioEOF
| gobTypeMismatch.

Definition byteZ (b : byte) : Z := Z.of_N (Byte.to_N b).

(** [binary.BigEndian.Uint16], [Uint32] and [big.Int.SetBytes]: the
    big-endian unsigned value of a byte string. *)
Definition beUint (bs : bytes) : Z :=
  fold_left (fun acc b => acc * 256 + byteZ b) bs 0.

(** Go's [copy(dst, src)] into a fixed-size array. *)
Definition copyInto (dst src : bytes) : bytes :=
  take (length dst) src ++ drop (length src) dst.

(** ** Wire primitives *)

Module Wire.

(** Modelled from the spec: [extractWord] is not under src; a WORD is 4
    big-endian bytes.  Returns the rest, the value, and whether 4 bytes were
    there. *)
Definition extractWord (d : bytes) : bytes * Z * bool :=
  match d with
  | b0 :: b1 :: b2 :: b3 :: rest => (rest, beUint [b0; b1; b2; b3], true)
  | _ => ([], 0, false)
  end.

(** Modelled from the spec: [extractData] is not under src; DATA is a 4-byte
    length and then that many bytes.  It fails when the length field is
    missing or exceeds the remaining input. *)
Definition extractData (d : bytes) : bytes * bytes * bool :=
  let '(rest, n, ok) := extractWord d in
  if negb ok || (Z.of_nat (length rest) <? n)
  then (d, [], false)
  else (drop (Z.to_nat n) rest, take (Z.to_nat n) rest, true).

(** Modelled from the spec: [extractMPI] is not under src; an MPI is a
    4-byte length [n] and then the [n] bytes of the big-endian integer. *)
Definition extractMPI (d : bytes) : bytes * option Z * bool :=
  let '(rest, n, ok) := extractWord d in
  if negb ok || (Z.of_nat (length rest) <? n)
  then ([], None, false)
  else (drop (Z.to_nat n) rest, Some (beUint (take (Z.to_nat n) rest)), true).

End Wire.

(** ** The Diffie-Hellman group *)

(** Modelled from the spec: the constants [g1] and [pMinusTwo] and the
    function [isGroupElement] are not under src.  The group check is
    [2 <= value <= p-2] for the fixed prime [p], which is a parameter here. *)
Class DHGroup := { otrPrime : Z }.

(** Modelled from the spec: the helpers [lt], [gt] and [eq] on [*big.Int]
    are not under src; they compare the values. *)
Module BigInt.
Definition lt (a b : Z) : bool := a <? b.
Definition gt (a b : Z) : bool := a >? b.
Definition eq (a b : Z) : bool := a =? b.
End BigInt.

Section Group.
Context `{DHGroup}.

(** Modelled from the spec: [g1] is not under src; the lower end of the
    group range is 2, the generator. *)
Definition g1 : Z := 2.

(** Modelled from the spec: [pMinusTwo] is not under src; it is [p - 2]. *)
Definition pMinusTwo : Z := otrPrime - 2.

(** Modelled from the spec: [isGroupElement] is not under src; the group
    check is [2 <= value <= p-2]. *)
Definition isGroupElement (n : Z) : bool := (g1 <=? n) && (n <=? pMinusTwo).

End Group.

(** ** AKE wire messages (auth messages) *)

Record dhMessage := {
  protocolVersion : Z;
  needInstanceTag : bool;
  senderInstanceTag : Z;
  receiverInstanceTag : Z
}.

Record dhCommit := {
  dhCommit_dhMessage : dhMessage;
  dhCommit_gx : option Z;
  dhCommit_encryptedGx : bytes;
  dhCommit_hashedGx : bytes
}.

Record dhKey := {
  dhKey_dhMessage : dhMessage;
  dhKey_gy : option Z
}.

Record revealSig := {
  revealSig_dhMessage : dhMessage;
  revealSig_r : bytes;
  revealSig_encryptedSig : bytes;
  revealSig_macSig : bytes
}.

Record sig := {
  sig_dhMessage : dhMessage;
  sig_encryptedSig : bytes;
  sig_macSig : bytes
}.

Record tlv := {
  tlvType : Z;
  tlvLength : Z;
  tlvValue : bytes
}.

Record dataMsg := {
  nul : byte;
  tlvs : list tlv
}.

Definition zeroDhMessage : dhMessage :=
  {| protocolVersion := 0; needInstanceTag := false;
     senderInstanceTag := 0; receiverInstanceTag := 0 |}.

(** The zero values [dhCommit{}], [dhKey{}], [revealSig{}], [sig{}],
    [dataMsg{}]. *)
Definition zeroDhCommit : dhCommit :=
  {| dhCommit_dhMessage := zeroDhMessage; dhCommit_gx := None;
     dhCommit_encryptedGx := []; dhCommit_hashedGx := replicate 32 x00 |}.
Definition zeroDhKey : dhKey :=
  {| dhKey_dhMessage := zeroDhMessage; dhKey_gy := None |}.
Definition zeroRevealSig : revealSig :=
  {| revealSig_dhMessage := zeroDhMessage; revealSig_r := replicate 16 x00;
     revealSig_encryptedSig := []; revealSig_macSig := [] |}.
Definition zeroSig : sig :=
  {| sig_dhMessage := zeroDhMessage; sig_encryptedSig := []; sig_macSig := [] |}.
Definition zeroDataMsg : dataMsg := {| nul := x00; tlvs := [] |}.

Section AuthMessages.
Context `{DHGroup}.

(** [func (c *dhCommit) deserialize(msg []byte) error] *)
Definition dhCommit_deserialize (c : dhCommit) (msg : bytes)
  : dhCommit * option error :=
  let '(msg1, encGx, ok1) := Wire.extractData msg in
  let c1 := {| dhCommit_dhMessage := dhCommit_dhMessage c;
               dhCommit_gx := dhCommit_gx c;
               dhCommit_encryptedGx := encGx;
               dhCommit_hashedGx := dhCommit_hashedGx c |} in
  let '(_, h, ok2) := Wire.extractData msg1 in
  if negb ok1 || negb ok2
  then (c1, Some (errorsNew "otr: corrupt DH commit message"))
  else ({| dhCommit_dhMessage := dhCommit_dhMessage c1;
           dhCommit_gx := dhCommit_gx c1;
           dhCommit_encryptedGx := dhCommit_encryptedGx c1;
           dhCommit_hashedGx := copyInto (dhCommit_hashedGx c1) h |}, None).

(** [func (c *dhKey) deserialize(msg []byte) error].  The bytes after the
    MPI are bound to [_] and never looked at. *)
Definition dhKey_deserialize (c : dhKey) (msg : bytes) : dhKey * option error :=
  match Wire.extractMPI msg with
  | (_, Some gy, true) =>
      if BigInt.lt gy g1 || BigInt.gt gy pMinusTwo
      then (c, Some (errorsNew "otr: DH value out of range"))
      else ({| dhKey_dhMessage := dhKey_dhMessage c; dhKey_gy := Some gy |}, None)
  | _ => (c, Some (errorsNew "otr: corrupt DH key message"))
  end.

(** [func (c *revealSig) deserialize(msg []byte) error].  [extractData]
    returns the rest first: [macSig] is what follows the second DATA. *)
Definition revealSig_deserialize (c : revealSig) (msg : bytes)
  : revealSig * option error :=
  let '(in_, r, ok1) := Wire.extractData msg in
  let '(macSig, encryptedSig, ok2) := Wire.extractData in_ in
  if negb ok1 || negb ok2 || negb (length macSig =? 20)%nat
  then (c, Some (errorsNew "otr: corrupt reveal signature message"))
  else ({| revealSig_dhMessage := revealSig_dhMessage c;
           revealSig_r := copyInto (revealSig_r c) r;
           revealSig_encryptedSig := encryptedSig;
           revealSig_macSig := macSig |}, None).

(** [func (c *sig) deserialize(msg []byte) error] *)
Definition sig_deserialize (c : sig) (msg : bytes) : sig * option error :=
  let '(macSig, encryptedSig, ok) := Wire.extractData msg in
  if negb ok || negb (length macSig =? 20)%nat
  then (c, Some (errorsNew "otr: corrupt signature message"))
  else ({| sig_dhMessage := sig_dhMessage c;
           sig_encryptedSig := encryptedSig;
           sig_macSig := macSig |}, None).

(** The loop of [dataMsg.deserialize].  [index] only grows, by at least 4
    per round, so [length tlvsBytes] rounds of fuel are never used up;
    [None] is the fuel running out.  A slice expression [s[a:b]] panics when
    [b] exceeds the slice (slices are modelled with capacity = length). *)
Fixpoint deserializeTLVs (fuel : nat) (tlvsBytes : bytes) (index : nat)
    (acc : list tlv) : option (outcome (list tlv * option error)) :=
  if (index <? length tlvsBytes)%nat then
    match fuel with
    | O => None
    | S fuel' =>
        if (length tlvsBytes <? index + 4)%nat
        then Some (Panic "slice bounds out of range")
        else
          let tlvType_ := beUint (take 2 (drop index tlvsBytes)) in
          let tlvLength_ := beUint (take 2 (drop (index + 2) tlvsBytes)) in
          let endOfTLV := (index + 4 + Z.to_nat tlvLength_)%nat in
          if (length tlvsBytes <? endOfTLV)%nat
          then Some (Ret (acc, Some (errorsNew "otr: wrong tlv length")))
          else
            let atlv := {| tlvType := tlvType_; tlvLength := tlvLength_;
                           tlvValue := take (endOfTLV - (index + 4))
                                         (drop (index + 4) tlvsBytes) |} in
            deserializeTLVs fuel' tlvsBytes endOfTLV (acc ++ [atlv])
    end
  else Some (Ret (acc, None)).

(** [func (c *dataMsg) deserialize(msg []byte) error]: [msg[0]] is read
    before any length check. *)
Definition dataMsg_deserialize (c : dataMsg) (msg : bytes)
  : outcome (dataMsg * option error) :=
  match msg with
  | [] => Panic "index out of range"
  | b0 :: tlvsBytes =>
      if negb (Byte.eqb b0 x00)
      then Ret (c, Some (errorsNew "otr: corrupt data message"))
      else
        match deserializeTLVs (S (length tlvsBytes)) tlvsBytes 0 (tlvs c) with
        | Some (Ret (ts, e)) => Ret ({| nul := b0; tlvs := ts |}, e)
        | Some (Panic s) => Panic s
        | None => Panic "unreachable"
        end
  end.

End AuthMessages.

(** The byte with value [z mod 256]. *)
Definition byteOfZ (z : Z) : byte :=
  default x00 (Byte.of_N (Z.to_N (z mod 256))).

(** Modelled from the spec: [appendShort] is not under src; a SHORT is 2
    big-endian bytes. *)
Definition appendShort (out : bytes) (v : Z) : bytes :=
  out ++ [byteOfZ (v / 256); byteOfZ v].

(** [func (c *dataMsg) serialize() []byte] *)
Definition dataMsg_serialize (c : dataMsg) : bytes :=
  fold_left
    (fun out t =>
       appendShort (appendShort out (tlvType t)) (tlvLength t) ++ tlvValue t)
    (tlvs c) [x00].

(** ** Query messages (query.go) *)

Inductive otrVersion : Type := otrV2 | otrV3.

Definition queryMarker : bytes := list_byte_of_string "?OTR".

(** [bytes.HasPrefix] *)
Fixpoint hasPrefix (s prefix : bytes) {struct prefix} : bool :=
  match prefix, s with
  | [], _ => true
  | p :: prefix', c :: s' => Byte.eqb p c && hasPrefix s' prefix'
  | _ :: _, [] => false
  end.

(** [strconv.Atoi(string(c))] for one byte [c]: only the ten ASCII digits
    convert. *)
Definition atoiByte (c : byte) : option Z :=
  if (48 <=? byteZ c) && (byteZ c <=? 57) then Some (byteZ c - 48) else None.

(** [func parseOTRQueryMessage(msg []byte) []int] *)
Definition parseOTRQueryMessage (msg : bytes) : list Z :=
  if hasPrefix msg queryMarker && (length queryMarker <? length msg)%nat then
    let versions := drop (length queryMarker) msg in
    let '(ret, versions) :=
      match versions with
      | c :: rest => if Byte.eqb c "?" then ([1], rest) else ([], versions)
      | [] => ([], versions)
      end in
    match versions with
    | c :: _ => if Byte.eqb c "v" then ret ++ omap atoiByte versions else ret
    | [] => ret
    end
  else [].

(** Modelled from the spec: the type [policies], its method [has] and the
    policy bits [allowV2], [allowV3] are not under src.  [policies] is a bit
    set; the two bits are parameters. *)
Class PolicyBits := { allowV2 : Z; allowV3 : Z }.

(** Modelled from the spec: [policies.has] is not under src; a policy set
    has a policy when all bits of the policy are set in it. *)
Definition has (p c : Z) : bool := Z.land p c =? c.

Section Query.
Context `{PolicyBits}.

(** The [for _, v := range versions] loop of [acceptOTRRequest]: the first
    version of the list that hits a [case] returns. *)
Fixpoint acceptVersions (p : Z) (versions : list Z) : option otrVersion * bool :=
  match versions with
  | [] => (None, false)
  | v :: rest =>
      if (v =? 3) && has p allowV3 then (Some otrV3, true)
      else if (v =? 2) && has p allowV2 then (Some otrV2, true)
      else acceptVersions p rest
  end.

(** [func acceptOTRRequest(p policies, msg []byte) (otrVersion, bool)] *)
Definition acceptOTRRequest (p : Z) (msg : bytes) : option otrVersion * bool :=
  acceptVersions p (parseOTRQueryMessage msg).

End Query.

(** ** Conversations and the AKE context (conversation.go, ake.go) *)

(** A [*big.Int] is a location in the heap of big integers. *)
Definition loc := positive.
Abbreviation heap := (gmap loc Z).

(** [new(big.Int)] holding [v]. *)
Definition allocBigInt (h : heap) (v : Z) : loc * heap :=
  let l := fresh (dom h) in (l, <[l := v]> h).

(** The value read through a possibly nil [*big.Int]. *)
Definition readBigInt (h : heap) (p : option loc) : option Z :=
  match p with
  | Some l => h !! l
  | None => None
  end.

Inductive msgState : Type := plainText | encrypted | finished.

Inductive authState : Type :=
| authStateNone
| authStateAwaitingDHKey
| authStateAwaitingRevealSig
| authStateAwaitingSig.

(** Modelled from the spec: the type [akeKeys] is not under src; a key
    bundle holds [c] (16 bytes), [m1] and [m2] (32 bytes each). *)
Record akeKeys := {
  akeKeys_c : bytes;
  akeKeys_m1 : bytes;
  akeKeys_m2 : bytes
}.

(** Modelled from the spec: the types [dhKeyPair] and
    [keyManagementContext] are not under src; these are the fields the
    source reads and writes. *)
Record dhKeyPair := {
  pub : option loc;
  priv : option loc
}.

Record keyManagementContext := {
  ourKeyID : Z;
  theirKeyID : Z;
  ourCurrentDHKeys : dhKeyPair;
  ourPreviousDHKeys : dhKeyPair;
  theirCurrentDHPubKey : option loc
}.

Record ake := {
  secretExponent : option loc;
  ourPublicValue : option loc;
  theirPublicValue : option loc;
  ake_r : bytes;
  ake_encryptedGx : bytes;
  ake_hashedGx : bytes;
  revealKey : akeKeys;
  sigKey : akeKeys;
  ake_state : authState;
  ake_keys : keyManagementContext
}.

Definition zeroAkeKeys : akeKeys :=
  {| akeKeys_c := replicate 16 x00; akeKeys_m1 := replicate 32 x00;
     akeKeys_m2 := replicate 32 x00 |}.
Definition zeroDhKeyPair : dhKeyPair := {| pub := None; priv := None |}.
Definition zeroKeyManagementContext : keyManagementContext :=
  {| ourKeyID := 0; theirKeyID := 0; ourCurrentDHKeys := zeroDhKeyPair;
     ourPreviousDHKeys := zeroDhKeyPair; theirCurrentDHPubKey := None |}.

(** [&ake{state: authStateNone{}}] *)
Definition newAke : ake :=
  {| secretExponent := None; ourPublicValue := None; theirPublicValue := None;
     ake_r := replicate 16 x00; ake_encryptedGx := [];
     ake_hashedGx := replicate 32 x00;
     revealKey := zeroAkeKeys; sigKey := zeroAkeKeys;
     ake_state := authStateNone; ake_keys := zeroKeyManagementContext |}.

Definition set_theirPublicValue (a : ake) (p : option loc) : ake :=
  {| secretExponent := secretExponent a; ourPublicValue := ourPublicValue a;
     theirPublicValue := p;
     ake_r := ake_r a; ake_encryptedGx := ake_encryptedGx a;
     ake_hashedGx := ake_hashedGx a;
     revealKey := revealKey a; sigKey := sigKey a;
     ake_state := ake_state a; ake_keys := ake_keys a |}.

Definition set_ake_state (a : ake) (s : authState) : ake :=
  {| secretExponent := secretExponent a; ourPublicValue := ourPublicValue a;
     theirPublicValue := theirPublicValue a;
     ake_r := ake_r a; ake_encryptedGx := ake_encryptedGx a;
     ake_hashedGx := ake_hashedGx a;
     revealKey := revealKey a; sigKey := sigKey a;
     ake_state := s; ake_keys := ake_keys a |}.

(** Modelled from the spec: the SMP context type [smp] and the message
    types are not under src.  Their contents are parameters; the context
    holds the state, the secret and the intermediates [s1], [s2], [s3]. *)
Class SmpTypes := {
  smpSecret : Type;
  smp1State : Type;
  smp2State : Type;
  smp3State : Type;
  smp1Message : Type;
  smp2Message : Type;
  smp3Message : Type;
  smp4Message : Type
}.

Inductive smpState : Type :=
| smpStateExpect1
| smpStateExpect2
| smpStateExpect3
| smpStateExpect4.

Record smp `{SmpTypes} := {
  smp_state : smpState;
  smp_secret : smpSecret;
  smp_s1 : smp1State;
  smp_s2 : smp2State;
  smp_s3 : smp3State
}.

(** The fields of [Conversation] that the modelled functions use. *)
Record Conversation `{SmpTypes} := {
  version : option otrVersion;
  conv_msgState : msgState;
  ourInstanceTag : Z;
  theirInstanceTag : Z;
  ssid : bytes;
  conv_ake : option ake;
  conv_smp : smp;
  conv_keys : keyManagementContext;
  policies : Z;
  fragmentSize : Z
}.

Section ConversationSetters.
Context `{SmpTypes}.

Definition set_ake (c : Conversation) (a : option ake) : Conversation :=
  {| version := version c; conv_msgState := conv_msgState c;
     ourInstanceTag := ourInstanceTag c; theirInstanceTag := theirInstanceTag c;
     ssid := ssid c; conv_ake := a; conv_smp := conv_smp c;
     conv_keys := conv_keys c; policies := policies c;
     fragmentSize := fragmentSize c |}.

Definition set_msgState (c : Conversation) (s : msgState) : Conversation :=
  {| version := version c; conv_msgState := s;
     ourInstanceTag := ourInstanceTag c; theirInstanceTag := theirInstanceTag c;
     ssid := ssid c; conv_ake := conv_ake c; conv_smp := conv_smp c;
     conv_keys := conv_keys c; policies := policies c;
     fragmentSize := fragmentSize c |}.

Definition set_smp (c : Conversation) (s : smp) : Conversation :=
  {| version := version c; conv_msgState := conv_msgState c;
     ourInstanceTag := ourInstanceTag c; theirInstanceTag := theirInstanceTag c;
     ssid := ssid c; conv_ake := conv_ake c; conv_smp := s;
     conv_keys := conv_keys c; policies := policies c;
     fragmentSize := fragmentSize c |}.

Definition set_keys (c : Conversation) (k : keyManagementContext) : Conversation :=
  {| version := version c; conv_msgState := conv_msgState c;
     ourInstanceTag := ourInstanceTag c; theirInstanceTag := theirInstanceTag c;
     ssid := ssid c; conv_ake := conv_ake c; conv_smp := conv_smp c;
     conv_keys := k; policies := policies c;
     fragmentSize := fragmentSize c |}.

Definition set_version (c : Conversation) (v : option otrVersion) : Conversation :=
  {| version := v; conv_msgState := conv_msgState c;
     ourInstanceTag := ourInstanceTag c; theirInstanceTag := theirInstanceTag c;
     ssid := ssid c; conv_ake := conv_ake c; conv_smp := conv_smp c;
     conv_keys := conv_keys c; policies := policies c;
     fragmentSize := fragmentSize c |}.

Definition set_instanceTags (c : Conversation) (our their : Z) : Conversation :=
  {| version := version c; conv_msgState := conv_msgState c;
     ourInstanceTag := our; theirInstanceTag := their;
     ssid := ssid c; conv_ake := conv_ake c; conv_smp := conv_smp c;
     conv_keys := conv_keys c; policies := policies c;
     fragmentSize := fragmentSize c |}.

End ConversationSetters.

Section AKE.
Context `{DHGroup} `{SmpTypes}.

(** [func (c *Conversation) processDHKey(msg []byte) (isSame bool, err error)].
    [c.ake] is dereferenced only after the two checks; the [*big.Int] of the
    message becomes a heap object when it is stored. *)
Definition processDHKey (h : heap) (c : Conversation) (msg : bytes)
  : outcome (heap * Conversation * bool * option error) :=
  let '(dhKeyMsg, err) := dhKey_deserialize zeroDhKey msg in
  match err with
  | Some e => Ret (h, c, false, Some e)
  | None =>
      match dhKey_gy dhKeyMsg with
      | None => Panic "nil pointer dereference"
      | Some gy =>
          if negb (isGroupElement gy)
          then Ret (h, c, false, Some (newOtrError "DH value out of range"))
          else
            match conv_ake c with
            | None => Panic "nil pointer dereference"
            | Some a =>
                match theirPublicValue a with
                | Some l => Ret (h, c, BigInt.eq (h !!! l) gy, None)
                | None =>
                    let '(l, h') := allocBigInt h gy in
                    Ret (h', set_ake c (Some (set_theirPublicValue a (Some l))),
                         false, None)
                end
            end
      end
  end.

(** [func extractGx(decryptedGx []byte)], returning the integer and an
    error. *)
Definition extractGx (decryptedGx : bytes) : option Z * option error :=
  let '(newData, gx, ok) := Wire.extractMPI decryptedGx in
  if negb ok || (0 <? length newData)%nat
  then (gx, Some (newOtrError "gx corrupt after decryption"))
  else
    match gx with
    | None => (gx, Some (newOtrError "gx corrupt after decryption"))
    | Some v =>
        if negb (isGroupElement v)
        then (gx, Some (newOtrError "DH value out of range"))
        else (gx, None)
    end.

End AKE.

(** *** Ending a conversation *)

Inductive securityEvent : Type := GoneInsecure.

(** Modelled from the spec: [wipeBigInt] is not under src; the integer is
    overwritten with zeros where it lives, so every pointer to it reads 0. *)
Definition wipeBigInt (k : option loc) (h : heap) : heap :=
  match k with
  | Some l => <[l := 0]> h
  | None => h
  end.

(** Modelled from the spec: [dhKeyPair.wipe] is not under src; both halves
    of the pair are overwritten with zeros. *)
Definition dhKeyPair_wipe (p : dhKeyPair) (h : heap) : heap :=
  wipeBigInt (priv p) (wipeBigInt (pub p) h).

(** Modelled from the spec: the callees of [End] that are not under src and
    are outside the core that the spec describes: wiping the SMP context, and building the serialized
    disconnect data message (which draws randomness and advances counters).
    Both may change the heap and the conversation in any way. *)
Class ConversationOps `{SmpTypes} := {
  smp_wipe : heap -> smp -> heap * smp;
  tlvTypeDisconnected : Z;
  messageFlagIgnoreUnreadable : byte;
  createSerializedDataMessage :
    heap -> Conversation -> bytes -> byte -> list tlv ->
    heap * Conversation * list bytes * option error
}.

Section End_.
Context `{ConversationOps}.

(** [func (c *Conversation) End() (toSend []ValidMessage, err error)].  The
    deferred [signalSecurityEventIf] is the returned event list. *)
Definition End (h : heap) (c : Conversation)
  : heap * Conversation * list bytes * option error * list securityEvent :=
  let previousMsgState := conv_msgState c in
  let '(h1, c1, toSend, err) :=
    match conv_msgState c with
    | encrypted =>
        let '(h', s') := smp_wipe h (conv_smp c) in
        createSerializedDataMessage h' (set_smp c s') []
          messageFlagIgnoreUnreadable
          [{| tlvType := tlvTypeDisconnected; tlvLength := 0; tlvValue := [] |}]
    | _ => (h, c, [], None)
    end in
  let c2 := set_msgState c1 plainText in
  let h2 := dhKeyPair_wipe (ourCurrentDHKeys (conv_keys c2)) h1 in
  let h3 := dhKeyPair_wipe (ourPreviousDHKeys (conv_keys c2)) h2 in
  let h4 := wipeBigInt (theirCurrentDHPubKey (conv_keys c2)) h3 in
  (h4, c2, toSend, err,
   match previousMsgState with encrypted => [GoneInsecure] | _ => [] end).

(** What "reads as zero" means for the values [End] is to clear. *)
Definition bigIntIsZero (h : heap) (p : option loc) : Prop :=
  match p with
  | Some l => h !! l = Some 0
  | None => True
  end.

Definition bytesAreZero (b : bytes) : Prop := Forall (fun x => x = x00) b.

Definition akeKeysAreZero (k : akeKeys) : Prop :=
  bytesAreZero (akeKeys_c k) /\ bytesAreZero (akeKeys_m1 k)
  /\ bytesAreZero (akeKeys_m2 k).

Definition dhKeyPairIsZero (h : heap) (p : dhKeyPair) : Prop :=
  bigIntIsZero h (pub p) /\ bigIntIsZero h (priv p).

(** The key-management DH keys of the conversation read as zero. *)
Definition keysAreZero (h : heap) (k : keyManagementContext) : Prop :=
  dhKeyPairIsZero h (ourCurrentDHKeys k)
  /\ dhKeyPairIsZero h (ourPreviousDHKeys k)
  /\ bigIntIsZero h (theirCurrentDHPubKey k).

(** The secrets of the AKE context read as zero. *)
Definition akeIsZero (h : heap) (a : ake) : Prop :=
  bigIntIsZero h (secretExponent a) /\ bytesAreZero (ake_r a)
  /\ akeKeysAreZero (revealKey a) /\ akeKeysAreZero (sigKey a).

Definition conversationSecretsAreZero (h : heap) (c : Conversation) : Prop :=
  keysAreZero h (conv_keys c)
  /\ match conv_ake c with Some a => akeIsZero h a | None => True end.

End End_.

(** *** Persistence of the AKE context *)

(** One value of an [encoding/gob] stream.  A gob stream is
    self-describing: each value carries its wire type, and [Decode] into a
    destination of another type fails.  [*big.Int] travels through its
    [GobEncode] method, [[n]byte] as an array of [n] bytes, [[]byte] as
    bytes, and [akeKeys] as a struct. *)
Inductive gobValue : Type :=
| GobBigInt (v : Z)
| GobArray (n : nat) (b : bytes)
| GobBytes (b : bytes)
| GobAkeKeys (k : akeKeys).

(** [encoder.Encode(v)] appends one value to the buffer and cannot fail
    for these types. *)
Definition gobEncodeBigInt (h : heap) (p : option loc) (w : list gobValue)
  : list gobValue :=
  match p with
  | Some l => w ++ [GobBigInt (default 0 (h !! l))]
  | None => w
  end.

(** [func (c ake) GobEncode() ([]byte, error)] *)
Definition ake_GobEncode (h : heap) (c : ake) : list gobValue * option error :=
  let w := [] in
  let w := gobEncodeBigInt h (secretExponent c) w in
  let w := gobEncodeBigInt h (ourPublicValue c) w in
  let w := gobEncodeBigInt h (theirPublicValue c) w in
  let w := w ++ [GobArray 16 (ake_r c)] in
  let w := w ++ [GobBytes (ake_encryptedGx c)] in
  let w := w ++ [GobArray 32 (ake_hashedGx c)] in
  let w := w ++ [GobAkeKeys (revealKey c)] in
  let w := w ++ [GobAkeKeys (sigKey c)] in
  (w, None).

(** [decoder.Decode(&p)] for [p *big.Int]: a nil pointer gets a fresh
    integer, a pointer that is set has its integer overwritten. *)
Definition gobDecodeBigInt (h : heap) (p : option loc) (r : list gobValue)
  : (heap * option loc * list gobValue) + error :=
  match r with
  | [] => inr ioEOF
  | GobBigInt v :: r' =>
      match p with
      | Some l => inl (<[l := v]> h, Some l, r')
      | None => let '(l, h') := allocBigInt h v in inl (h', Some l, r')
      end
  | _ :: _ => inr gobTypeMismatch
  end.

Definition gobDecodeBytes (r : list gobValue) : (bytes * list gobValue) + error :=
  match r with
  | [] => inr ioEOF
  | GobBytes b :: r' => inl (b, r')
  | _ :: _ => inr gobTypeMismatch
  end.

Definition gobDecodeArray (n : nat) (r : list gobValue)
  : (bytes * list gobValue) + error :=
  match r with
  | [] => inr ioEOF
  | GobArray m b :: r' => if (m =? n)%nat then inl (b, r') else inr gobTypeMismatch
  | _ :: _ => inr gobTypeMismatch
  end.

Definition gobDecodeAkeKeys (r : list gobValue)
  : (akeKeys * list gobValue) + error :=
  match r with
  | [] => inr ioEOF
  | GobAkeKeys k :: r' => inl (k, r')
  | _ :: _ => inr gobTypeMismatch
  end.

(** [func (c *ake) GobDecode(buf []byte) error].  There is no
    [Decode(&c.r)]: after the three integers the next value goes to
    [encryptedGx].  Fields decoded before an error keep their new value. *)
Definition ake_GobDecode (h : heap) (c : ake) (buf : list gobValue)
  : heap * ake * option error :=
  let mk se opv tpv egx hgx rk sk :=
    {| secretExponent := se; ourPublicValue := opv; theirPublicValue := tpv;
       ake_r := ake_r c; ake_encryptedGx := egx; ake_hashedGx := hgx;
       revealKey := rk; sigKey := sk;
       ake_state := ake_state c; ake_keys := ake_keys c |} in
  let se := secretExponent c in
  let opv := ourPublicValue c in
  let tpv := theirPublicValue c in
  let egx := ake_encryptedGx c in
  let hgx := ake_hashedGx c in
  let rk := revealKey c in
  let sk := sigKey c in
  match gobDecodeBigInt h se buf with
  | inr e => (h, c, Some e)
  | inl (h, se, r) =>
  match gobDecodeBigInt h opv r with
  | inr e => (h, mk se opv tpv egx hgx rk sk, Some e)
  | inl (h, opv, r) =>
  match gobDecodeBigInt h tpv r with
  | inr e => (h, mk se opv tpv egx hgx rk sk, Some e)
  | inl (h, tpv, r) =>
  match gobDecodeBytes r with
  | inr e => (h, mk se opv tpv egx hgx rk sk, Some e)
  | inl (egx, r) =>
  match gobDecodeArray 32 r with
  | inr e => (h, mk se opv tpv egx hgx rk sk, Some e)
  | inl (hgx, r) =>
  match gobDecodeAkeKeys r with
  | inr e => (h, mk se opv tpv egx hgx rk sk, Some e)
  | inl (rk, r) =>
  match gobDecodeAkeKeys r with
  | inr e => (h, mk se opv tpv egx hgx rk sk, Some e)
  | inl (sk, r) => (h, mk se opv tpv egx hgx rk sk, None)
  end end end end end end end.

(** The persisted content of an AKE context: what a decode that undoes
    [GobEncode] has to bring back. *)
Definition akeContent (h : heap) (c : ake)
  : option Z * option Z * option Z * bytes * bytes * bytes * akeKeys * akeKeys :=
  (readBigInt h (secretExponent c), readBigInt h (ourPublicValue c),
   readBigInt h (theirPublicValue c), ake_r c, ake_encryptedGx c,
   ake_hashedGx c, revealKey c, sigKey c).

(** ** The SMP state machine (smp_state_machine.go) *)

Inductive smpMessage `{SmpTypes} : Type :=
| smpMessage1 (m : smp1Message)
| smpMessage2 (m : smp2Message)
| smpMessage3 (m : smp3Message)
| smpMessage4 (m : smp4Message)
| smpMessageAbort.

(** The receiver type of the state machine; only its [smp] field is used. *)
Record conversation `{SmpTypes} := {
  conversation_smp : smp
}.

(** Modelled from the spec: the methods of [*conversation] that the state
    machine calls are not under src (the zero-knowledge proofs and the
    message TLV encoding); they are parameters.  The generators draw randomness and may store intermediates,
    so they return the conversation as well. *)
Class SmpOps `{SmpTypes} := {
  verifySMP1 : conversation -> smp1Message -> option error;
  generateSMP2 : conversation -> smpSecret -> smp1Message
                 -> conversation * smp2Message * bool;
  verifySMP2 : conversation -> smp1State -> smp2Message -> option error;
  generateSMP3 : conversation -> smpSecret -> smp1State -> smp2Message
                 -> conversation * smp3Message * bool;
  verifySMP3 : conversation -> smp2State -> smp3Message -> option error;
  verifySMP3ProtocolSuccess : conversation -> smp2State -> smp3Message
                              -> option error;
  generateSMP4 : conversation -> smpSecret -> smp2State -> smp3Message
                 -> conversation * smp4Message * bool;
  verifySMP4 : conversation -> smp3State -> smp4Message -> option error;
  verifySMP4ProtocolSuccess : conversation -> smp1State -> smp3State
                              -> smp4Message -> option error;
  tlv_serialize : smpMessage -> bytes
}.

Section SMP.
Context `{SmpOps}.

Definition set_smp_state (c : conversation) (s : smpState) : conversation :=
  {| conversation_smp :=
       {| smp_state := s;
          smp_secret := smp_secret (conversation_smp c);
          smp_s1 := smp_s1 (conversation_smp c);
          smp_s2 := smp_s2 (conversation_smp c);
          smp_s3 := smp_s3 (conversation_smp c) |} |}.

(** What a handler returns: next state, message to send (nil or not),
    error. *)
Definition smpResult : Type := smpState * option smpMessage * option error.

(** [func abortStateMachineWith(e error) (smpState, smpMessage, error)] *)
Definition abortStateMachineWith (e : option error) : smpResult :=
  (smpStateExpect1, Some smpMessageAbort, e).

(** [func abortStateMachine() (smpState, smpMessage, error)] *)
Definition abortStateMachine : smpResult := abortStateMachineWith None.

(** [receiveMessage1]: [smpStateExpect1] overrides the method, the other
    states inherit it from the embedded [smpStateBase]. *)
Definition receiveMessage1 (s : smpState) (c : conversation) (m : smp1Message)
  : conversation * smpResult :=
  match s with
  | smpStateExpect1 =>
      match verifySMP1 c m with
      | Some err => (c, abortStateMachineWith (Some err))
      | None =>
          let '(c', ret, ok) := generateSMP2 c (smp_secret (conversation_smp c)) m in
          if negb ok then (c', abortStateMachineWith (Some errShortRandomRead))
          else (c', (smpStateExpect3, Some (smpMessage2 ret), None))
      end
  | _ => (c, abortStateMachine)
  end.

(** [receiveMessage2]: overridden by [smpStateExpect2] only. *)
Definition receiveMessage2 (s : smpState) (c : conversation) (m : smp2Message)
  : conversation * smpResult :=
  match s with
  | smpStateExpect2 =>
      match verifySMP2 c (smp_s1 (conversation_smp c)) m with
      | Some err => (c, abortStateMachineWith (Some err))
      | None =>
          let '(c', ret, ok) :=
            generateSMP3 c (smp_secret (conversation_smp c))
              (smp_s1 (conversation_smp c)) m in
          if negb ok then (c', abortStateMachineWith (Some errShortRandomRead))
          else (c', (smpStateExpect4, Some (smpMessage3 ret), None))
      end
  | _ => (c, abortStateMachine)
  end.

(** [receiveMessage3]: overridden by [smpStateExpect3] only. *)
Definition receiveMessage3 (s : smpState) (c : conversation) (m : smp3Message)
  : conversation * smpResult :=
  match s with
  | smpStateExpect3 =>
      match verifySMP3 c (smp_s2 (conversation_smp c)) m with
      | Some err => (c, abortStateMachineWith (Some err))
      | None =>
          match verifySMP3ProtocolSuccess c (smp_s2 (conversation_smp c)) m with
          | Some err => (c, abortStateMachineWith (Some err))
          | None =>
              let '(c', ret, ok) :=
                generateSMP4 c (smp_secret (conversation_smp c))
                  (smp_s2 (conversation_smp c)) m in
              if negb ok
              then (c', abortStateMachineWith (Some errShortRandomRead))
              else (c', (smpStateExpect1, Some (smpMessage4 ret), None))
          end
      end
  | _ => (c, abortStateMachine)
  end.

(** [receiveMessage4]: overridden by [smpStateExpect4] only. *)
Definition receiveMessage4 (s : smpState) (c : conversation) (m : smp4Message)
  : conversation * smpResult :=
  match s with
  | smpStateExpect4 =>
      match verifySMP4 c (smp_s3 (conversation_smp c)) m with
      | Some err => (c, abortStateMachineWith (Some err))
      | None =>
          match verifySMP4ProtocolSuccess c (smp_s1 (conversation_smp c))
                  (smp_s3 (conversation_smp c)) m with
          | Some err => (c, abortStateMachineWith (Some err))
          | None => (c, (smpStateExpect1, None, None))
          end
      end
  | _ => (c, abortStateMachine)
  end.

(** The step function: [m.receivedMessage(c)] hands the message to the
    handler of the current state that has its number and stores the state
    the handler returns.  An abort message resets the state itself. *)
Definition receivedMessage (m : smpMessage) (c : conversation)
  : conversation * option smpMessage * option error :=
  let step (r : conversation * smpResult) :=
    let '(c', (st, ret, err)) := r in (set_smp_state c' st, ret, err) in
  match m with
  | smpMessage1 m1 => step (receiveMessage1 (smp_state (conversation_smp c)) c m1)
  | smpMessage2 m2 => step (receiveMessage2 (smp_state (conversation_smp c)) c m2)
  | smpMessage3 m3 => step (receiveMessage3 (smp_state (conversation_smp c)) c m3)
  | smpMessage4 m4 => step (receiveMessage4 (smp_state (conversation_smp c)) c m4)
  | smpMessageAbort => (set_smp_state c smpStateExpect1, None, None)
  end.

(** [func (c *conversation) receiveSMP(m smpMessage) ([]byte, error)] *)
Definition receiveSMP (c : conversation) (m : smpMessage)
  : conversation * option bytes * option error :=
  let '(c', toSend, err) := receivedMessage m c in
  match err with
  | Some e => (c', None, Some e)
  | None =>
      match toSend with
      | None => (c', None, None)
      | Some t => (c', Some (tlv_serialize t), None)
      end
  end.

(** The number of the message a state waits for, and the number of a
    message ([None] for the abort message, which no handler takes). *)
Definition expectedMessage (s : smpState) : nat :=
  match s with
  | smpStateExpect1 => 1
  | smpStateExpect2 => 2
  | smpStateExpect3 => 3
  | smpStateExpect4 => 4
  end.


End SMP.

(** ** OTR version 3 (v3.go) *)

Definition otrv3FragmentationPrefix : bytes := list_byte_of_string "?OTR|".
Definition otrv3HeaderLen : nat := 11.

(** Modelled from the spec: the constant [messageHeaderPrefix] is not under
    src; a message starts with version (SHORT) and message type (BYTE). *)
Definition messageHeaderPrefix : nat := 3.

(** [func (v otrV3) minFragmentSize() uint16] *)
Definition otrV3_minFragmentSize : nat := 26.

(** [func generateInstanceTag() uint32] *)
Definition generateInstanceTag : Z := 0x00000100 + 0x01.

Section V3.
Context `{SmpTypes}.

(** [func (v otrV3) parseMessageHeader(c *Conversation, msg []byte)
    ([]byte, error)] *)
Definition otrV3_parseMessageHeader (c : Conversation) (msg : bytes)
  : Conversation * option bytes * option error :=
  if (length msg <? otrv3HeaderLen)%nat then (c, None, Some errInvalidOTRMessage)
  else
    let '(msg1, senderInstanceTag_, _) :=
      Wire.extractWord (drop messageHeaderPrefix msg) in
    let '(msg2, receiverInstanceTag_, _) := Wire.extractWord msg1 in
    let c1 := if ourInstanceTag c =? 0
              then set_instanceTags c generateInstanceTag (theirInstanceTag c)
              else c in
    let c2 := if theirInstanceTag c1 =? 0
              then set_instanceTags c1 (ourInstanceTag c1) senderInstanceTag_
              else c1 in
    if (0 <? receiverInstanceTag_) && (receiverInstanceTag_ <? 0x100)
    then (c2, None, Some errInvalidOTRMessage)
    else if senderInstanceTag_ <? 0x100
    then (c2, None, Some errInvalidOTRMessage)
    else if negb (receiverInstanceTag_ =? 0)
            && negb (ourInstanceTag c2 =? receiverInstanceTag_)
    then (c2, None, Some errReceivedMessageForOtherInstance)
    else if (0x100 <=? senderInstanceTag_)
            && negb (theirInstanceTag c2 =? senderInstanceTag_)
    then (c2, None, Some errReceivedMessageForOtherInstance)
    else (c2, Some msg2, None).

End V3.

(** ** Fragmentation *)

(** [fmt.Sprintf] verbs [%05d] and [%08x]: decimal and lower-case
    hexadecimal digits, padded on the left with zeros to the width. *)
Fixpoint bytesOfDecUint (u : Decimal.uint) : bytes :=
  match u with
  | Decimal.Nil => []
  | Decimal.D0 u => "0"%byte :: bytesOfDecUint u
  | Decimal.D1 u => "1"%byte :: bytesOfDecUint u
  | Decimal.D2 u => "2"%byte :: bytesOfDecUint u
  | Decimal.D3 u => "3"%byte :: bytesOfDecUint u
  | Decimal.D4 u => "4"%byte :: bytesOfDecUint u
  | Decimal.D5 u => "5"%byte :: bytesOfDecUint u
  | Decimal.D6 u => "6"%byte :: bytesOfDecUint u
  | Decimal.D7 u => "7"%byte :: bytesOfDecUint u
  | Decimal.D8 u => "8"%byte :: bytesOfDecUint u
  | Decimal.D9 u => "9"%byte :: bytesOfDecUint u
  end.

Fixpoint bytesOfHexUint (u : Hexadecimal.uint) : bytes :=
  match u with
  | Hexadecimal.Nil => []
  | Hexadecimal.D0 u => "0"%byte :: bytesOfHexUint u
  | Hexadecimal.D1 u => "1"%byte :: bytesOfHexUint u
  | Hexadecimal.D2 u => "2"%byte :: bytesOfHexUint u
  | Hexadecimal.D3 u => "3"%byte :: bytesOfHexUint u
  | Hexadecimal.D4 u => "4"%byte :: bytesOfHexUint u
  | Hexadecimal.D5 u => "5"%byte :: bytesOfHexUint u
  | Hexadecimal.D6 u => "6"%byte :: bytesOfHexUint u
  | Hexadecimal.D7 u => "7"%byte :: bytesOfHexUint u
  | Hexadecimal.D8 u => "8"%byte :: bytesOfHexUint u
  | Hexadecimal.D9 u => "9"%byte :: bytesOfHexUint u
  | Hexadecimal.Da u => "a"%byte :: bytesOfHexUint u
  | Hexadecimal.Db u => "b"%byte :: bytesOfHexUint u
  | Hexadecimal.Dc u => "c"%byte :: bytesOfHexUint u
  | Hexadecimal.Dd u => "d"%byte :: bytesOfHexUint u
  | Hexadecimal.De u => "e"%byte :: bytesOfHexUint u
  | Hexadecimal.Df u => "f"%byte :: bytesOfHexUint u
  end.

Definition padZeros (w : nat) (s : bytes) : bytes :=
  replicate (w - length s) "0"%byte ++ s.

Definition fmtDec (w : nat) (n : Z) : bytes :=
  padZeros w (bytesOfDecUint (N.to_uint (Z.to_N n))).

Definition fmtHex (w : nat) (n : Z) : bytes :=
  padZeros w (bytesOfHexUint (N.to_hex_uint (Z.to_N n))).

(** [func (v otrV3) fragmentPrefix(n, total int, itags uint32, itagr uint32)
    []byte], that is
    [Sprintf("%s%08x|%08x,%05d,%05d,", prefix, itags, itagr, n+1, total)]. *)
Definition otrV3_fragmentPrefix (n total : nat) (itags itagr : Z) : bytes :=
  otrv3FragmentationPrefix ++ fmtHex 8 itags ++ ["|"%byte] ++ fmtHex 8 itagr
  ++ [","%byte] ++ fmtDec 5 (Z.of_nat n + 1) ++ [","%byte]
  ++ fmtDec 5 (Z.of_nat total) ++ [","%byte].

Module Fragmentation.

(** The context as the tests build it: [fragmentationContext{frag,
    currentIndex, currentLen}], the two counters being [uint16]. *)
Record fragmentationContext := {
  frag : bytes;
  currentIndex : Z;
  currentLen : Z
}.

Definition emptyContext : fragmentationContext :=
  {| frag := []; currentIndex := 0; currentLen := 0 |}.

Inductive messageEvent : Type :=
| MessageEventReceivedMessageForOtherInstance
| MessageEventReceivedMessageMalformed.

Definition otrv2FragmentationPrefix : bytes := list_byte_of_string "?OTR,".

(** Modelled from the spec: [otrV2.fragmentPrefix] is not under src; the
    version 2 prefix is [?OTR,<idx:5d>,<total:5d>,]. *)
Definition otrV2_fragmentPrefix (n total : nat) : bytes :=
  otrv2FragmentationPrefix ++ fmtDec 5 (Z.of_nat n + 1) ++ [","%byte]
  ++ fmtDec 5 (Z.of_nat total) ++ [","%byte].

Definition fragmentPrefix (v : otrVersion) (n total : nat) (itags itagr : Z)
  : bytes :=
  match v with
  | otrV2 => otrV2_fragmentPrefix n total
  | otrV3 => otrV3_fragmentPrefix n total itags itagr
  end.

Definition ceilDiv (a b : nat) : nat := ((a + b - 1) / b)%nat.

(** Modelled from the spec: [Conversation.fragment] is not under src (its
    tests are).  A message no longer than [fragmentSize] is returned as it
    is; a longer one is cut into [ceil(len/payloadSize)] slices of
    [payloadSize] bytes, each sent as prefix, slice, comma, with the
    sender's tags [itags] (ours) and [itagr] (theirs).  The payload size is
    an argument because the sources differ on it, see [fragment] and
    [fragmentByOverhead]. *)
Definition fragmentWith (payloadSize : nat) (v : otrVersion) (itags itagr : Z)
    (data : bytes) (fragmentSize : nat) : list bytes :=
  if (length data <=? fragmentSize)%nat then [data]
  else
    let numFragments := ceilDiv (length data) payloadSize in
    map (fun i =>
           fragmentPrefix v i numFragments itags itagr
           ++ take payloadSize (drop (i * payloadSize) data) ++ [","%byte])
        (seq 0 numFragments).

(** Modelled from the spec: [Conversation.fragment] is not under src.  This
    is the cut as the test
    [Test_fragment_returnsFragmentsForNeededFragmentation] under src and
    scenario 1 of the spec have it: with [fragmentSize] 4, "one two three"
    goes out in slices of 4 bytes, so the payload size is [fragmentSize]. *)
Definition fragment (v : otrVersion) (itags itagr : Z) (data : bytes)
    (fragmentSize : nat) : list bytes :=
  fragmentWith fragmentSize v itags itagr data fragmentSize.

(** Modelled from the spec: the overhead [O] of a fragment is not under
    src; it is the length of the prefix and of the closing comma. *)
Definition fragmentOverhead (v : otrVersion) : nat :=
  (length (fragmentPrefix v 0 0 0 0) + 1)%nat.

(** Modelled from the spec: [Conversation.fragment] is not under src.  This
    is the cut as section 4.2 of the spec words it, with a payload size of
    [F - O]. *)
Definition fragmentByOverhead (v : otrVersion) (itags itagr : Z) (data : bytes)
    (fragmentSize : nat) : list bytes :=
  fragmentWith (fragmentSize - fragmentOverhead v) v itags itagr data fragmentSize.

(** [bytes.Split(s, sep)] for a one-byte separator. *)
Fixpoint splitOn (sep : byte) (s : bytes) : list bytes :=
  match s with
  | [] => [[]]
  | c :: s' =>
      if Byte.eqb c sep then [] :: splitOn sep s'
      else
        match splitOn sep s' with
        | p :: ps => (c :: p) :: ps
        | [] => [[c]]
        end
  end.

Definition decDigit (c : byte) : option (Decimal.uint -> Decimal.uint) :=
  match c with
  | "0" => Some Decimal.D0 | "1" => Some Decimal.D1 | "2" => Some Decimal.D2
  | "3" => Some Decimal.D3 | "4" => Some Decimal.D4 | "5" => Some Decimal.D5
  | "6" => Some Decimal.D6 | "7" => Some Decimal.D7 | "8" => Some Decimal.D8
  | "9" => Some Decimal.D9
  | _ => None
  end%byte.

Definition hexDigit (c : byte)
  : option (Hexadecimal.uint -> Hexadecimal.uint) :=
  match c with
  | "0" => Some Hexadecimal.D0 | "1" => Some Hexadecimal.D1
  | "2" => Some Hexadecimal.D2 | "3" => Some Hexadecimal.D3
  | "4" => Some Hexadecimal.D4 | "5" => Some Hexadecimal.D5
  | "6" => Some Hexadecimal.D6 | "7" => Some Hexadecimal.D7
  | "8" => Some Hexadecimal.D8 | "9" => Some Hexadecimal.D9
  | "a" | "A" => Some Hexadecimal.Da | "b" | "B" => Some Hexadecimal.Db
  | "c" | "C" => Some Hexadecimal.Dc | "d" | "D" => Some Hexadecimal.Dd
  | "e" | "E" => Some Hexadecimal.De | "f" | "F" => Some Hexadecimal.Df
  | _ => None
  end%byte.

Fixpoint decUintOfBytes (s : bytes) : option Decimal.uint :=
  match s with
  | [] => Some Decimal.Nil
  | c :: s' =>
      match decDigit c, decUintOfBytes s' with
      | Some d, Some u => Some (d u)
      | _, _ => None
      end
  end.

Fixpoint hexUintOfBytes (s : bytes) : option Hexadecimal.uint :=
  match s with
  | [] => Some Hexadecimal.Nil
  | c :: s' =>
      match hexDigit c, hexUintOfBytes s' with
      | Some d, Some u => Some (d u)
      | _, _ => None
      end
  end.

(** Modelled from the spec: the parsing of the two counters is not under
    src; they are decimal and must fit a [uint16]. *)
Definition parseUint16 (s : bytes) : option Z :=
  match s with
  | [] => None
  | _ =>
      match decUintOfBytes s with
      | Some u =>
          let n := Z.of_N (N.of_uint u) in
          if n <=? 65535 then Some n else None
      | None => None
      end
  end.

(** Modelled from the spec: the parsing of an instance tag is not under
    src; a tag is hexadecimal and must fit a [uint32].  The test
    [Test_receiveFragment_signalsMalformedMessageIfTheirInstanceTagIsBelowTheLimit]
    sends upper-case digits. *)
Definition parseItag (s : bytes) : option Z :=
  match s with
  | [] => None
  | _ =>
      match hexUintOfBytes s with
      | Some u =>
          let n := Z.of_N (N.of_hex_uint u) in
          if n <=? 4294967295 then Some n else None
      | None => None
      end
  end.

(** Modelled from the spec: [parseFragment] is not under src (its tests
    are).  The body after the prefix must split into exactly 4
    comma-separated fields: index, total, payload and what follows the last
    comma. *)
Definition parseFragment (data : bytes) : bytes * Z * Z * bool :=
  match splitOn "," data with
  | [ixs; ls; payload; _] =>
      match parseUint16 ixs, parseUint16 ls with
      | Some ix, Some l => (payload, ix, l, true)
      | _, _ => ([], 0, 0, false)
      end
  | _ => ([], 0, 0, false)
  end.

(** Modelled from the spec: the parsing of the fragment prefix is not under
    src.  A version 3 fragment is [?OTR|sender|receiver,] and then the body
    (recognized only when running version 3); a version 2 fragment is
    [?OTR,] and then the body.  The result is the tags, if any, and the
    body. *)
Definition parseFragmentPrefix (v : otrVersion) (data : bytes)
  : option (option (Z * Z) * bytes) :=
  match v with
  | otrV3 =>
      if hasPrefix data otrv3FragmentationPrefix then
        match splitOn "," (drop 4 data) with
        | hdr :: _ =>
            match splitOn "|" hdr with
            | [_; s; r] =>
                match parseItag s, parseItag r with
                | Some sender, Some receiver =>
                    Some (Some (sender, receiver), drop (length hdr + 5) data)
                | _, _ => None
                end
            | _ => None
            end
        | [] => None
        end
      else if hasPrefix data otrv2FragmentationPrefix
      then Some (None, drop 5 data)
      else None
  | otrV2 =>
      if hasPrefix data otrv2FragmentationPrefix
      then Some (None, drop 5 data)
      else None
  end.

(** Modelled from the spec: the instance-tag filter of a version 3
    fragment.  First the other-instance test (the receiver tag is not ours,
    or the sender tag is not theirs when both are set), then the test for a
    sender tag below [0x100]. *)
Definition checkInstanceTags (ourTag theirTag sender receiver : Z)
  : option messageEvent :=
  if negb (receiver =? ourTag)
     || (negb (sender =? 0) && negb (theirTag =? 0)
         && negb (sender =? theirTag))
  then Some MessageEventReceivedMessageForOtherInstance
  else if sender <? 0x100 then Some MessageEventReceivedMessageMalformed
  else None.

(** Modelled from the spec: the step of the reassembly state machine on a
    fragment with index [ix] of [l] that passed the filters.  An index or
    total of zero or an index above the total resets the context; index 1
    begins a new one; the index after the current one, with the same total,
    appends; anything else resets. *)
Definition acceptFragment (beforeCtx : fragmentationContext) (payload : bytes)
    (ix l : Z) : fragmentationContext :=
  if (ix =? 0) || (l =? 0) || (l <? ix) then emptyContext
  else if ix =? 1
  then {| frag := payload; currentIndex := 1; currentLen := l |}
  else if (ix =? currentIndex beforeCtx + 1) && (l =? currentLen beforeCtx)
  then {| frag := frag beforeCtx ++ payload; currentIndex := ix;
          currentLen := currentLen beforeCtx |}
  else emptyContext.

(** Modelled from the spec: [Conversation.receiveFragment] is not under src
    (its tests are).  [ourTag] and [theirTag] are the instance tags of the
    receiving conversation.  The result is the next context, the events
    signalled, and the error. *)
Definition receiveFragment (v : otrVersion) (ourTag theirTag : Z)
    (beforeCtx : fragmentationContext) (data : bytes)
  : fragmentationContext * list messageEvent * option error :=
  match parseFragmentPrefix v data with
  | None => (beforeCtx, [], Some (newOtrError "invalid OTR fragment"))
  | Some (tags, body) =>
      let '(payload, ix, l, ok) := parseFragment body in
      if negb ok
      then (beforeCtx, [], Some (newOtrError "invalid OTR fragment"))
      else
        match
          match tags with
          | Some (sender, receiver) =>
              checkInstanceTags ourTag theirTag sender receiver
          | None => None
          end
        with
        | Some ev => (beforeCtx, [ev], None)
        | None => (acceptFragment beforeCtx payload ix l, [], None)
        end
  end.

(** Modelled from the spec: reassembly is complete when
    [current_index = current_len > 0]. *)
Definition fragmentsFinished (ctx : fragmentationContext) : bool :=
  (currentIndex ctx =? currentLen ctx) && (0 <? currentLen ctx).

(** Modelled from the spec: reassembling fragments in order is feeding
    them one after the other to [receiveFragment]; the loop that does so is
    not under src.  It stops at the first error. *)
Fixpoint receiveFragments (v : otrVersion) (ourTag theirTag : Z)
    (ctx : fragmentationContext) (fragments : list bytes)
  : fragmentationContext * option error :=
  match fragments with
  | [] => (ctx, None)
  | f :: rest =>
      let '(ctx', _, err) := receiveFragment v ourTag theirTag ctx f in
      match err with
      | Some e => (ctx', Some e)
      | None => receiveFragments v ourTag theirTag ctx' rest
      end
  end.

(** Modelled from the spec: the message that the fragments reassemble to,
    starting from the empty context; there is one when no fragment was
    refused and the last context is finished. *)
Definition reassemble (v : otrVersion) (ourTag theirTag : Z)
    (fragments : list bytes) : option bytes :=
  match receiveFragments v ourTag theirTag emptyContext fragments with
  | (ctx, None) => if fragmentsFinished ctx then Some (frag ctx) else None
  | (_, Some _) => None
  end.

(** The tags under which the peer takes what a sender with tags [itags]
    (its own) and [itagr] (the peer's) has fragmented: under version 3 the
    sender's tags are valid [uint32] instance tags, the peer's own tag
    [ourTag] is the one the sender addressed, and the tag [theirTag] it has
    stored for the sender is the sender's or not set yet. *)
Definition peerAccepts (v : otrVersion) (itags itagr ourTag theirTag : Z) : Prop :=
  match v with
  | otrV2 => True
  | otrV3 =>
      0x100 <= itags <= 0xffffffff /\ 0 <= itagr <= 0xffffffff
      /\ ourTag = itagr /\ (theirTag = itags \/ theirTag = 0)
  end.

(** The bytes that [fmtDec] and [fmtHex] print. *)
Definition isDigit (b : byte) : Prop := hexDigit b <> None.


End Fragmentation.

(** ** The [message] interface *)

(** [type message interface { serialize() []byte; deserialize(msg []byte)
    error }] with its five implementations. *)
Inductive message : Type :=
| MsgDHCommit (c : dhCommit)
| MsgDHKey (c : dhKey)
| MsgRevealSig (c : revealSig)
| MsgSig (c : sig)
| MsgData (c : dataMsg).

Section MessageInterface.
Context `{DHGroup}.

(** Dynamic dispatch of [m.deserialize(msg)]. *)
Definition deserialize (m : message) (msg : bytes)
  : outcome (message * option error) :=
  match m with
  | MsgDHCommit c =>
      let '(c', e) := dhCommit_deserialize c msg in Ret (MsgDHCommit c', e)
  | MsgDHKey c =>
      let '(c', e) := dhKey_deserialize c msg in Ret (MsgDHKey c', e)
  | MsgRevealSig c =>
      let '(c', e) := revealSig_deserialize c msg in Ret (MsgRevealSig c', e)
  | MsgSig c =>
      let '(c', e) := sig_deserialize c msg in Ret (MsgSig c', e)
  | MsgData c =>
      match dataMsg_deserialize c msg with
      | Ret (c', e) => Ret (MsgData c', e)
      | Panic s => Panic s
      end
  end.

End MessageInterface.

(** The error that the deserializer of each AKE message gives for a corrupt
    input. *)
Definition corruptMessageError (m : message) : error :=
  match m with
  | MsgDHCommit _ => errorsNew "otr: corrupt DH commit message"
  | MsgDHKey _ => errorsNew "otr: corrupt DH key message"
  | MsgRevealSig _ => errorsNew "otr: corrupt reveal signature message"
  | MsgSig _ => errorsNew "otr: corrupt signature message"
  | MsgData _ => errorsNew "otr: corrupt data message"
  end.

(** The 4-byte length field at the head of [d] exceeds the input that
    remains after it. *)
Definition lengthFieldExceeds (d : bytes) : Prop :=
  exists b0 b1 b2 b3 rest,
    d = b0 :: b1 :: b2 :: b3 :: rest
    /\ Z.of_nat (length rest) < beUint [b0; b1; b2; b3].

(** The inputs that an AKE message deserializer has to reject: a length
    field exceeds the remaining input (any of the DATA or MPI fields of the
    message), or the MAC of a Reveal-Signature or Signature message is not
    20 bytes long. *)
Inductive corruptInput : message -> bytes -> Prop :=
| corrupt_dhCommit_first (c : dhCommit) (msg : bytes) :
    lengthFieldExceeds msg -> corruptInput (MsgDHCommit c) msg
| corrupt_dhCommit_second (c : dhCommit) (msg rest d : bytes) :
    Wire.extractData msg = (rest, d, true) -> lengthFieldExceeds rest ->
    corruptInput (MsgDHCommit c) msg
| corrupt_dhKey (c : dhKey) (msg : bytes) :
    lengthFieldExceeds msg -> corruptInput (MsgDHKey c) msg
| corrupt_revealSig_first (c : revealSig) (msg : bytes) :
    lengthFieldExceeds msg -> corruptInput (MsgRevealSig c) msg
| corrupt_revealSig_second (c : revealSig) (msg rest d : bytes) :
    Wire.extractData msg = (rest, d, true) -> lengthFieldExceeds rest ->
    corruptInput (MsgRevealSig c) msg
| corrupt_revealSig_mac (c : revealSig) (msg rest d mac sg : bytes) :
    Wire.extractData msg = (rest, d, true) ->
    Wire.extractData rest = (mac, sg, true) ->
    length mac <> 20%nat ->
    corruptInput (MsgRevealSig c) msg
| corrupt_sig_first (c : sig) (msg : bytes) :
    lengthFieldExceeds msg -> corruptInput (MsgSig c) msg
| corrupt_sig_mac (c : sig) (msg mac sg : bytes) :
    Wire.extractData msg = (mac, sg, true) ->
    length mac <> 20%nat ->
    corruptInput (MsgSig c) msg.

(** ** Receiving a query message *)

(** [dhCommitMessage] draws the secret exponent and [r] from the random
    source and encrypts and hashes [gx]; randomness, AES and SHA-256 are
    outside this model, so the method is a parameter. *)
Class AkeOps `{SmpTypes} := {
  dhCommitMessage : heap -> Conversation -> heap * Conversation * bytes * option error
}.

Section ReceiveQuery.
Context `{PolicyBits} `{AkeOps}.

(** [func (c *Conversation) ensureAKE()] with [initAKE] *)
Definition ensureAKE (c : Conversation) : Conversation :=
  match conv_ake c with
  | Some _ => c
  | None => set_ake c (Some newAke)
  end.

(** [func (c *Conversation) sendDHCommit() (toSend []byte, err error)] *)
Definition sendDHCommit (h : heap) (c : Conversation)
  : heap * Conversation * bytes * option error :=
  let c0 := set_instanceTags c generateInstanceTag (theirInstanceTag c) in
  let '(h1, c1, toSend, err) := dhCommitMessage h c0 in
  match err with
  | Some e => (h1, c1, toSend, Some e)
  | None =>
      let c2 := ensureAKE c1 in
      let c3 := set_ake c2 (option_map (fun a => set_ake_state a authStateAwaitingDHKey)
                              (conv_ake c2)) in
      let k := conv_keys c3 in
      let c4 := set_keys c3 {| ourKeyID := 0; theirKeyID := theirKeyID k;
                               ourCurrentDHKeys := zeroDhKeyPair;
                               ourPreviousDHKeys := ourPreviousDHKeys k;
                               theirCurrentDHPubKey := theirCurrentDHPubKey k |} in
      (h1, c4, toSend, None)
  end.

(** [func (c *Conversation) receiveQueryMessage(msg []byte) ([]byte, error)] *)
Definition receiveQueryMessage (h : heap) (c : Conversation) (msg : bytes)
  : heap * Conversation * bytes * option error :=
  let '(v, ok) := acceptOTRRequest (policies c) msg in
  if negb ok then (h, c, [], Some errInvalidVersion)
  else sendDHCommit h (set_version c v).

End ReceiveQuery.

(** ** Closed instances of the parameters *)

(** The prime of the 1536-bit MODP group (RFC 3526, group 5) that OTR
    fixes. *)
Definition otrGroup : DHGroup :=
  {| otrPrime := 0xFFFFFFFFFFFFFFFFC90FDAA22168C234C4C6628B80DC1CD129024E088A67CC74020BBEA63B139B22514A08798E3404DDEF9519B3CD3A431B302B0A6DF25F14374FE1356D6D51C245E485B576625E7EC6F44C42E9A637ED6B0BFF5CB6F406B7EDEE386BFB5A899FA5AE9F24117C4B1FE649286651ECE45B3DC2007CB8A163BF0598DA48361C55D39A69163FA8FD24CF5F83655D23DCA3AD961C62F356208552BB9ED529077096966D670C354E4ABC9804F1746C08CA237327FFFFFFFFFFFFFFFF |}.

(** The smallest SMP payloads and operations: every check passes, every
    generator succeeds. *)
Definition unitSmpTypes : SmpTypes :=
  {| smpSecret := unit; smp1State := unit; smp2State := unit;
     smp3State := unit; smp1Message := unit; smp2Message := unit;
     smp3Message := unit; smp4Message := unit |}.


Definition unitSmp (s : smpState) : @smp unitSmpTypes :=
  @Build_smp unitSmpTypes s tt tt tt tt.

Definition unitConversationOps : @ConversationOps unitSmpTypes :=
  @Build_ConversationOps unitSmpTypes
    (fun h s => (h, s))
    1
    x01
    (fun h c _ _ _ => (h, c, [], None)).

(** A conversation in plain text that has run no AKE. *)
Definition plainConversation : @Conversation unitSmpTypes :=
  @Build_Conversation unitSmpTypes
    (Some otrV3) plainText 0x101 0x102 (replicate 8 x00) None
    (unitSmp smpStateExpect1) zeroKeyManagementContext 0 0.

(** An AKE context in the middle of a handshake, with its three integers
    on the heap, and a conversation that holds it. *)
Definition sampleHeap : heap :=
  <[1%positive := 5]> (<[2%positive := 32]> (<[3%positive := 7]> ∅)).

Definition sampleAke : ake :=
  {| secretExponent := Some 1%positive;
     ourPublicValue := Some 2%positive;
     theirPublicValue := Some 3%positive;
     ake_r := replicate 16 x01;
     ake_encryptedGx := [xaa; xbb; xcc];
     ake_hashedGx := replicate 32 x02;
     revealKey := {| akeKeys_c := replicate 16 x03;
                     akeKeys_m1 := replicate 32 x04;
                     akeKeys_m2 := replicate 32 x05 |};
     sigKey := {| akeKeys_c := replicate 16 x06;
                  akeKeys_m1 := replicate 32 x07;
                  akeKeys_m2 := replicate 32 x08 |};
     ake_state := authStateAwaitingSig;
     ake_keys := zeroKeyManagementContext |}.

Definition sampleConversation : @Conversation unitSmpTypes :=
  set_ake plainConversation (Some sampleAke).


(** ** More of query.go *)

Section QueryMessage.
Context `{PolicyBits} `{SmpTypes}.

(** [func isQueryMessage(msg []byte) bool] *)
Definition isQueryMessage (msg : bytes) : bool := hasPrefix msg queryMarker.

(** [func (c Conversation) queryMessage() string] *)
Definition queryMessage (c : Conversation) : bytes :=
  let queryMessage := list_byte_of_string "?OTRv" in
  let queryMessage :=
    if has (policies c) allowV2 then queryMessage ++ ["2"%byte]
    else queryMessage in
  let queryMessage :=
    if has (policies c) allowV3 then queryMessage ++ ["3"%byte]
    else queryMessage in
  queryMessage ++ ["?"%byte].

End QueryMessage.

(** ** More of the conversation *)

(** The integers that the key-management context points to, the ones that
    [End] wipes. *)
Definition keyPointers (k : keyManagementContext) : list (option loc) :=
  [pub (ourCurrentDHKeys k); priv (ourCurrentDHKeys k);
   pub (ourPreviousDHKeys k); priv (ourPreviousDHKeys k);
   theirCurrentDHPubKey k].

Section IsEncrypted.
Context `{SmpTypes}.

(** [func (c *Conversation) IsEncrypted() bool] *)
Definition IsEncrypted (c : Conversation) : bool :=
  match conv_msgState c with
  | encrypted => true
  | _ => false
  end.

End IsEncrypted.

(** SMP operations whose generators run out of randomness. *)
Definition shortRandomSmpOps : @SmpOps unitSmpTypes :=
  @Build_SmpOps unitSmpTypes
    (fun _ _ => None)
    (fun c _ _ => (c, tt, false))
    (fun _ _ _ => None)
    (fun c _ _ _ => (c, tt, false))
    (fun _ _ _ => None)
    (fun _ _ _ => None)
    (fun c _ _ _ => (c, tt, false))
    (fun _ _ _ => None)
    (fun _ _ _ _ => None)
    (fun _ => []).

(** An SMP conversation waiting for message 1. *)
Definition expect1Conversation : @conversation unitSmpTypes :=
  @Build_conversation unitSmpTypes (unitSmp smpStateExpect1).

(** A conversation that has finished an AKE: its key-management context
    points to integers on the heap, one of them shared with the AKE
    context. *)
Definition keyedConversation : @Conversation unitSmpTypes :=
  @Build_Conversation unitSmpTypes
    (Some otrV3) plainText 0x101 0x102 (replicate 8 x00) (Some sampleAke)
    (unitSmp smpStateExpect1)
    {| ourKeyID := 1; theirKeyID := 1;
       ourCurrentDHKeys := {| pub := Some 2%positive; priv := Some 1%positive |};
       ourPreviousDHKeys := zeroDhKeyPair;
       theirCurrentDHPubKey := None |}
    0 0.

(** A conversation whose AKE context waits for the first DH-Key message. *)
Definition awaitingDHKeyConversation : @Conversation unitSmpTypes :=
  set_ake plainConversation
    (Some (set_ake_state (set_theirPublicValue sampleAke None)
             authStateAwaitingDHKey)).

(** ** Proof automation *)

(** Case analysis on a scrutinee that holds no case analysis itself. *)
Ltac destruct_innermost_match :=
  match goal with
  | |- context [match ?x with _ => _ end] =>
      lazymatch x with
      | context [match _ with _ => _ end] => fail
      | _ => destruct x
      end
  end.

(** ** More of the version 3 header *)

(** The tags that [parseMessageHeader] reads at offsets 3 and 7. *)
Definition headerSenderTag (msg : bytes) : Z := beUint (take 4 (drop 3 msg)).
Definition headerReceiverTag (msg : bytes) : Z := beUint (take 4 (drop 7 msg)).


(** ** More of the data message *)

(** A TLV whose fields fit the [uint16] they are declared with and whose
    length field is the length of its value. *)
Definition tlvWellFormed (t : tlv) : Prop :=
  0 <= tlvType t < 65536
  /\ tlvLength t = Z.of_nat (length (tlvValue t))
  /\ tlvLength t < 65536.

(** ** More of the wire codec: the writers *)

(** Modelled from the spec: [appendWord] is not under src; a WORD is 4
    big-endian bytes of the value taken as a [uint32]. *)
Definition appendWord (out : bytes) (v : Z) : bytes :=
  out ++ [byteOfZ (v / 16777216); byteOfZ (v / 65536); byteOfZ (v / 256);
          byteOfZ v].

(** Modelled from the spec: [appendData] is not under src; DATA is a 4-byte
    length and then the bytes. *)
Definition appendData (out d : bytes) : bytes :=
  appendWord out (Z.of_nat (length d)) ++ d.

(** [big.Int.Bytes]: the big-endian bytes of the absolute value, without
    leading zeros (none at all for 0).  An integer below [2^fuel] needs no
    more than [fuel] rounds. *)
Fixpoint bigEndianBytes (fuel : nat) (v : Z) (acc : bytes) : bytes :=
  match fuel with
  | O => acc
  | S fuel' =>
      if v <=? 0 then acc
      else bigEndianBytes fuel' (v / 256) (byteOfZ v :: acc)
  end.

Definition bigIntBytes (v : Z) : bytes :=
  bigEndianBytes (S (Z.to_nat (Z.log2 (Z.abs v)))) (Z.abs v) [].

(** Modelled from the spec: [appendMPI] is not under src; an MPI is the
    4-byte length of the integer's minimal big-endian representation and
    then these bytes.  A nil integer has no bytes to take: the call
    panics. *)
Definition appendMPI (out : bytes) (n : option Z) : outcome bytes :=
  match n with
  | Some v => Ret (appendData out (bigIntBytes v))
  | None => Panic "nil pointer dereference"
  end.

(** Modelled from the spec: the message type constants are not under src;
    they are the type bytes of section 4.1. *)
Definition msgTypeDHCommit : byte := x02.
Definition msgTypeDHKey : byte := x0a.
Definition msgTypeRevealSig : byte := x11.
Definition msgTypeSig : byte := x12.

(** Equality of byte strings, and [subtle.ConstantTimeCompare]: 1 when the
    two slices have equal contents, 0 otherwise. *)
Fixpoint bytesEqb (x y : bytes) : bool :=
  match x, y with
  | [], [] => true
  | a :: x', b :: y' => Byte.eqb a b && bytesEqb x' y'
  | _, _ => false
  end.

Definition constantTimeCompare (x y : bytes) : Z :=
  if bytesEqb x y then 1 else 0.

(** The hash functions of the Go standard library, [sha256.Sum256] (which
    the package also reaches through its helper [sha256Sum], not under src)
    and HMAC-SHA256, are parameters. *)
Class HashOps := {
  sha256_Sum256 : bytes -> bytes;
  hmac_sha256 : bytes -> bytes -> bytes
}.

Section Writers.
Context `{HashOps}.

(** [func (c *dhCommit) serialize() []byte].  The method may fill in
    [c.hashedGx]; the message is returned with the bytes. *)
Definition dhCommit_serialize (c : dhCommit) : outcome (dhCommit * bytes) :=
  let m := dhCommit_dhMessage c in
  let out := appendShort [] (protocolVersion m) in
  let out := out ++ [msgTypeDHCommit] in
  let out :=
    if needInstanceTag m
    then appendWord (appendWord out (senderInstanceTag m))
           (receiverInstanceTag m)
    else out in
  let out := appendData out (dhCommit_encryptedGx c) in
  if bytesEqb (dhCommit_hashedGx c) (replicate 32 x00)
  then
    match appendMPI [] (dhCommit_gx c) with
    | Panic s => Panic s
    | Ret mpi =>
        let c' := {| dhCommit_dhMessage := dhCommit_dhMessage c;
                     dhCommit_gx := dhCommit_gx c;
                     dhCommit_encryptedGx := dhCommit_encryptedGx c;
                     dhCommit_hashedGx := sha256_Sum256 mpi |} in
        Ret (c', appendData out (dhCommit_hashedGx c'))
    end
  else Ret (c, appendData out (dhCommit_hashedGx c)).

(** [func (c *dhKey) serialize() []byte] *)
Definition dhKey_serialize (c : dhKey) : outcome bytes :=
  let m := dhKey_dhMessage c in
  let out := appendShort [] (protocolVersion m) in
  let out := out ++ [msgTypeDHKey] in
  let out :=
    if needInstanceTag m
    then appendWord (appendWord out (senderInstanceTag m))
           (receiverInstanceTag m)
    else out in
  appendMPI out (dhKey_gy c).

(** [func (c *revealSig) serialize() []byte].  [c.macSig[:20]] panics on a
    MAC shorter than 20 bytes (slices are modelled with capacity =
    length). *)
Definition revealSig_serialize (c : revealSig) : outcome bytes :=
  let m := revealSig_dhMessage c in
  let out := appendShort [] (protocolVersion m) in
  let out := out ++ [msgTypeRevealSig] in
  let out :=
    if needInstanceTag m
    then appendWord (appendWord out (senderInstanceTag m))
           (receiverInstanceTag m)
    else out in
  let out := appendData out (revealSig_r c) in
  let out := out ++ revealSig_encryptedSig c in
  if (length (revealSig_macSig c) <? 20)%nat
  then Panic "slice bounds out of range"
  else Ret (out ++ take 20 (revealSig_macSig c)).

(** [func (c *sig) serialize() []byte] *)
Definition sig_serialize (c : sig) : outcome bytes :=
  let m := sig_dhMessage c in
  let out := appendShort [] (protocolVersion m) in
  let out := out ++ [msgTypeSig] in
  let out :=
    if needInstanceTag m
    then appendWord (appendWord out (senderInstanceTag m))
           (receiverInstanceTag m)
    else out in
  let out := out ++ sig_encryptedSig c in
  if (length (sig_macSig c) <? 20)%nat
  then Panic "slice bounds out of range"
  else Ret (out ++ take 20 (sig_macSig c)).

(** The length of the header that the [serialize] methods write: version,
    type and, when asked for, the two instance tags. *)
Definition dhMessage_headerLen (m : dhMessage) : nat :=
  if needInstanceTag m then 11 else 3.

(** [func sumHMAC(key, data []byte) []byte] *)
Definition sumHMAC (key data : bytes) : bytes := hmac_sha256 key data.

(** [func checkDecryptedGx(decryptedGx, hashedGx []byte) error] *)
Definition checkDecryptedGx (decryptedGx hashedGx : bytes) : option error :=
  let digest := sha256_Sum256 decryptedGx in
  if constantTimeCompare digest hashedGx =? 0
  then Some (newOtrError "bad commit MAC in reveal signature message")
  else None.

(** [func verifyEncryptedSignatureMAC(encryptedSig []byte, theirMAC []byte,
    keys *akeKeys) error].  [sumHMAC(...)[:20]] panics on a MAC shorter
    than 20 bytes. *)
Definition verifyEncryptedSignatureMAC (encryptedSig theirMAC : bytes)
    (keys : akeKeys) : outcome (option error) :=
  let tomac := appendData [] encryptedSig in
  let mac := sumHMAC (akeKeys_m2 keys) tomac in
  if (length mac <? 20)%nat then Panic "slice bounds out of range"
  else
    let myMAC := take 20 mac in
    if negb (length myMAC =? length theirMAC)%nat
       || (constantTimeCompare myMAC theirMAC =? 0)
    then Ret (Some (newOtrError "bad signature MAC in encrypted signature"))
    else Ret None.

End Writers.

Section MoreAKE.
Context `{DHGroup} `{HashOps} `{SmpTypes}.

Definition set_commitment (a : ake) (encryptedGx hashedGx : bytes) : ake :=
  {| secretExponent := secretExponent a; ourPublicValue := ourPublicValue a;
     theirPublicValue := theirPublicValue a;
     ake_r := ake_r a; ake_encryptedGx := encryptedGx;
     ake_hashedGx := hashedGx;
     revealKey := revealKey a; sigKey := sigKey a;
     ake_state := ake_state a; ake_keys := ake_keys a |}.

(** [func (c *Conversation) serializeDHCommit(public *big.Int) []byte] *)
Definition serializeDHCommit (c : Conversation) (public : option Z)
  : outcome bytes :=
  match conv_ake c with
  | None => Panic "nil pointer dereference"
  | Some a =>
      match appendMPI [] public with
      | Panic s => Panic s
      | Ret mpi =>
          let dhCommitMsg :=
            {| dhCommit_dhMessage := zeroDhMessage; dhCommit_gx := None;
               dhCommit_encryptedGx := ake_encryptedGx a;
               dhCommit_hashedGx := sha256_Sum256 mpi |} in
          match dhCommit_serialize dhCommitMsg with
          | Panic s => Panic s
          | Ret (_, out) => Ret out
          end
      end
  end.

(** [func (c *Conversation) serializeDHKey() []byte] *)
Definition serializeDHKey (h : heap) (c : Conversation) : outcome bytes :=
  match conv_ake c with
  | None => Panic "nil pointer dereference"
  | Some a =>
      let dhKeyMsg :=
        {| dhKey_dhMessage := zeroDhMessage;
           dhKey_gy := option_map (fun l => h !!! l) (ourPublicValue a) |} in
      dhKey_serialize dhKeyMsg
  end.

(** [func (c *Conversation) processDHCommit(msg []byte) error] *)
Definition processDHCommit (c : Conversation) (msg : bytes)
  : outcome (Conversation * option error) :=
  let '(dhCommitMsg, err) := dhCommit_deserialize zeroDhCommit msg in
  match err with
  | Some e => Ret (c, Some e)
  | None =>
      match conv_ake c with
      | None => Panic "nil pointer dereference"
      | Some a =>
          Ret (set_ake c (Some (set_commitment a
                                  (dhCommit_encryptedGx dhCommitMsg)
                                  (dhCommit_hashedGx dhCommitMsg))), None)
      end
  end.

(** [func (v otrV3) protocolVersion() uint16] *)
Definition otrV3_protocolVersion : Z := 3.

(** [func (v otrV3) messageHeader(c *Conversation, msgType byte) []byte] *)
Definition otrV3_messageHeader (c : Conversation) (msgType : byte) : bytes :=
  let out := appendShort [] otrV3_protocolVersion in
  let out := out ++ [msgType] in
  let out := appendWord out (ourInstanceTag c) in
  let out := appendWord out (theirInstanceTag c) in
  out.

End MoreAKE.

(** Modelled from the spec: [otrV2.isFragmented] is not under src; a
    version 2 fragment starts with [?OTR,]. *)
Definition otrV2_isFragmented (data : bytes) : bool :=
  hasPrefix data Fragmentation.otrv2FragmentationPrefix.

(** [func (v otrV3) isFragmented(data []byte) bool] *)
Definition otrV3_isFragmented (data : bytes) : bool :=
  hasPrefix data otrv3FragmentationPrefix || otrV2_isFragmented data.

(** A stand-in for the hash functions: the first 32 bytes of the input
    (of key and data), filled up with ones. *)
Definition prefixHashOps : HashOps :=
  {| sha256_Sum256 := fun d => take 32 (d ++ replicate 32 x01);
     hmac_sha256 := fun k d => take 32 (k ++ d ++ replicate 32 x01) |}.

(** ** Heartbeats (heartbeat.go) *)

(** [type heartbeatContext struct { lastSent time.Time }], instants being
    counted in nanoseconds.  The context is the field [heartbeat] of the
    conversation; it is kept beside the conversation record here. *)
Record heartbeatContext := { lastSent : Z }.

(** [const heartbeatInterval = 60 * time.Second] *)
Definition heartbeatInterval : Z := 60 * 1000000000.

Inductive heartbeatEvent : Type := MessageEventHeartbeatSent.

(** Modelled from the spec: [genDataMsgWithFlag] is not under src; it
    builds the data message to send and may draw randomness and advance
    counters, so it may change the heap and the conversation in any way.  It
    is taken not to write to the heartbeat context. *)
Class HeartbeatOps `{SmpTypes} := {
  genDataMsgWithFlag :
    heap -> Conversation -> bytes -> byte ->
    heap * Conversation * dataMsg * option error
}.

Section Heartbeat.
Context `{ConversationOps} `{!HeartbeatOps}.

(** [func (c *Conversation) potentialHeartbeat(plain []byte)
    (toSend []byte, err error)], with [time.Now()] as the argument [now]
    and the event that [messageEventHeartbeatSent] signals in the returned
    list.  A nil slice is [None]. *)
Definition potentialHeartbeat (now : Z) (h : heap) (c : Conversation)
    (hb : heartbeatContext) (plain : option bytes)
  : heap * Conversation * heartbeatContext * option bytes * option error
    * list heartbeatEvent :=
  match plain with
  | Some _ =>
      if lastSent hb <? now + - heartbeatInterval then
        let '(h', c', dataMsg, err) :=
          genDataMsgWithFlag h c [] messageFlagIgnoreUnreadable in
        match err with
        | Some e => (h', c', hb, None, Some e, [])
        | None =>
            (h', c', {| lastSent := now |}, Some (dataMsg_serialize dataMsg),
             None, [MessageEventHeartbeatSent])
        end
      else (h, c, hb, None, None, [])
  | None => (h, c, hb, None, None, [])
  end.

(** [func (c *Conversation) maybeHeartbeat(plain, toSend []byte, err error)
    ([]byte, []byte, []byte, error)] *)
Definition maybeHeartbeat (now : Z) (h : heap) (c : Conversation)
    (hb : heartbeatContext) (plain toSend : option bytes) (err : option error)
  : heap * Conversation * heartbeatContext
    * (option bytes * option bytes * option bytes * option error)
    * list heartbeatEvent :=
  match err with
  | Some e => (h, c, hb, (None, None, None, Some e), [])
  | None =>
      let '(h', c', hb', tsExtra, e, evs) :=
        potentialHeartbeat now h c hb plain in
      (h', c', hb', (plain, toSend, tsExtra, e), evs)
  end.

End Heartbeat.

(** Heartbeat operations that build an empty data message and change
    nothing. *)
Definition unitHeartbeatOps : @HeartbeatOps unitSmpTypes :=
  @Build_HeartbeatOps unitSmpTypes (fun h c _ _ => (h, c, zeroDataMsg, None)).

(** * Theorems *)

(** ** Query messages *)

Lemma has_lor_l (a b : Z) : has (Z.lor a b) a = true.
Proof.
  unfold has. apply Z.eqb_eq. apply Z.bits_inj'. intros n Hn.
  rewrite Z.land_spec, Z.lor_spec. destruct (Z.testbit a n), (Z.testbit b n); reflexivity.
Qed.

Lemma has_lor_r (a b : Z) : has (Z.lor a b) b = true.
Proof. rewrite Z.lor_comm. apply has_lor_l. Qed.

Example parseOTRQueryMessage_v23 :
  parseOTRQueryMessage (list_byte_of_string "?OTRv23?") = [2; 3].
Proof. reflexivity. Qed.

Example parseOTRQueryMessage_legacy :
  parseOTRQueryMessage (list_byte_of_string "?OTR?v2?") = [1; 2].
Proof. reflexivity. Qed.

(** When no advertised version is allowed, no version is accepted. *)
Lemma acceptVersions_none `{PolicyBits} (p : Z) (versions : list Z) :
  Forall (fun w => ((w =? 3) && has p allowV3) || ((w =? 2) && has p allowV2) = false)
         versions ->
  acceptVersions p versions = (None, false).
Proof.
  intros Hs. induction Hs as [|w ws Hw _ IH]; simpl; [reflexivity|].
  apply orb_false_iff in Hw as [-> ->]. exact IH.
Qed.

(** ... and receiving the query message fails with [errInvalidVersion],
    leaving the conversation as it was. *)
Lemma receiveQueryMessage_invalid_version `{PolicyBits} `{AkeOps}
    (h : heap) (c : Conversation) (msg : bytes) :
  Forall (fun w => ((w =? 3) && has (policies c) allowV3)
                   || ((w =? 2) && has (policies c) allowV2) = false)
         (parseOTRQueryMessage msg) ->
  receiveQueryMessage h c msg = (h, c, [], Some errInvalidVersion).
Proof.
  intros Hs. unfold receiveQueryMessage, acceptOTRRequest.
  rewrite (acceptVersions_none _ _ Hs). reflexivity.
Qed.

(** C2 (fails on the code): the query ["?OTRv23?"] advertises versions 2
    and 3; with a policy that allows both, [acceptOTRRequest] returns version
    2, the first advertised version that is allowed, not the highest one. *)
Theorem acceptOTRRequest_v23_both_allowed_selects_v2 `{PolicyBits} :
  acceptOTRRequest (Z.lor allowV2 allowV3) (list_byte_of_string "?OTRv23?")
  = (Some otrV2, true).
Proof.
  unfold acceptOTRRequest. rewrite parseOTRQueryMessage_v23. simpl.
  rewrite has_lor_l. reflexivity.
Qed.

(** With the versions advertised in the other order the same policy gives
    version 3: the result follows the order of the digits in the query. *)
Lemma acceptOTRRequest_v32_both_allowed_selects_v3 `{PolicyBits} :
  acceptOTRRequest (Z.lor allowV2 allowV3) (list_byte_of_string "?OTRv32?")
  = (Some otrV3, true).
Proof.
  unfold acceptOTRRequest.
  replace (parseOTRQueryMessage (list_byte_of_string "?OTRv32?")) with [3; 2]
    by reflexivity.
  simpl. rewrite has_lor_r. reflexivity.
Qed.

(** ** AKE wire messages *)

Lemma extractWord_of_exceeds (d : bytes) :
  lengthFieldExceeds d ->
  exists rest n, Wire.extractWord d = (rest, n, true) /\ Z.of_nat (length rest) < n.
Proof.
  intros (b0 & b1 & b2 & b3 & rest & -> & Hlt).
  exists rest, (beUint [b0; b1; b2; b3]). split; [reflexivity | exact Hlt].
Qed.

Lemma extractData_of_exceeds (d : bytes) :
  lengthFieldExceeds d -> Wire.extractData d = (d, [], false).
Proof.
  intros Hd. destruct (extractWord_of_exceeds d Hd) as (rest & n & Hw & Hlt).
  unfold Wire.extractData. rewrite Hw. simpl.
  apply Z.ltb_lt in Hlt. rewrite Hlt. reflexivity.
Qed.

Lemma extractMPI_of_exceeds (d : bytes) :
  lengthFieldExceeds d -> Wire.extractMPI d = ([], None, false).
Proof.
  intros Hd. destruct (extractWord_of_exceeds d Hd) as (rest & n & Hw & Hlt).
  unfold Wire.extractMPI. rewrite Hw. simpl.
  apply Z.ltb_lt in Hlt. rewrite Hlt. reflexivity.
Qed.

(** C3 (fails on the code as stated): a DH-Key payload whose MPI is followed
    by a trailing byte is accepted; [dhKey.deserialize] returns no error and
    stores the value. *)
Lemma dhKey_deserialize_accepts_trailing_bytes :
  Wire.extractMPI [x00; x00; x00; x01; x02; xff] = ([xff], Some 2, true)
  /\ @dhKey_deserialize otrGroup zeroDhKey [x00; x00; x00; x01; x02; xff]
     = ({| dhKey_dhMessage := zeroDhMessage; dhKey_gy := Some 2 |}, None).
Proof. split; vm_compute; reflexivity. Qed.

(** C3 (amended): for every input, the deserializer of a DH-Commit, DH-Key,
    Reveal-Signature or Signature message fails with the corrupt-message
    error of that message whenever a length field exceeds the remaining
    input, or the MAC of a Reveal-Signature or Signature message is not 20
    bytes long. *)
Theorem deserialize_rejects_corrupt_input `{DHGroup} (m : message) (msg : bytes) :
  corruptInput m msg ->
  exists m', deserialize m msg = Ret (m', Some (corruptMessageError m)).
Proof.
  intros Hc. destruct Hc; simpl.
  - unfold dhCommit_deserialize.
    rewrite (extractData_of_exceeds msg) by assumption.
    destruct (Wire.extractData msg) as [[? ?] ?]. eauto.
  - unfold dhCommit_deserialize. rewrite H0.
    rewrite (extractData_of_exceeds rest) by assumption. eauto.
  - unfold dhKey_deserialize.
    rewrite (extractMPI_of_exceeds msg) by assumption. eauto.
  - unfold revealSig_deserialize.
    rewrite (extractData_of_exceeds msg) by assumption.
    destruct (Wire.extractData msg) as [[? ?] ?]. eauto.
  - unfold revealSig_deserialize. rewrite H0.
    rewrite (extractData_of_exceeds rest) by assumption. eauto.
  - unfold revealSig_deserialize. rewrite H0, H1. simpl.
    destruct (Nat.eqb_spec (length mac) 20); [contradiction|]. eauto.
  - unfold sig_deserialize.
    rewrite (extractData_of_exceeds msg) by assumption. eauto.
  - unfold sig_deserialize. rewrite H0. simpl.
    destruct (Nat.eqb_spec (length mac) 20); [contradiction|]. eauto.
Qed.

Lemma deserialize_rejects_corrupt_input_witness :
  corruptInput (MsgSig zeroSig) [x00; x00; x00; x01; xaa; x01; x02; x03]
  /\ exists m',
       @deserialize otrGroup (MsgSig zeroSig)
         [x00; x00; x00; x01; xaa; x01; x02; x03]
       = Ret (m', Some (errorsNew "otr: corrupt signature message")).
Proof.
  assert (Hc : corruptInput (MsgSig zeroSig)
                 [x00; x00; x00; x01; xaa; x01; x02; x03]).
  { apply (corrupt_sig_mac zeroSig _ [x01; x02; x03] [xaa]);
      [reflexivity | simpl; lia]. }
  split; [exact Hc|].
  exact (@deserialize_rejects_corrupt_input otrGroup _ _ Hc).
Defined.

(** The trailing-bytes check that the DH-Key deserializer lacks is made on
    the decrypted [gx] of a Reveal-Signature message. *)
Lemma extractGx_rejects_trailing_bytes `{DHGroup}
    (decryptedGx rest : bytes) (gx : option Z) :
  Wire.extractMPI decryptedGx = (rest, gx, true) ->
  rest <> [] ->
  extractGx decryptedGx = (gx, Some (newOtrError "gx corrupt after decryption")).
Proof.
  intros He Hr. unfold extractGx. rewrite He. simpl.
  destruct rest; [contradiction|]. reflexivity.
Qed.

(** ** Processing a DH-Key message *)

(** C7: for every DH-Key message whose MPI parses to a value [gy] outside
    [2, p-2], [processDHKey] returns the error "DH value out of range" and
    leaves the heap and the conversation as they were: [gy] is not stored. *)
Theorem processDHKey_rejects_out_of_range `{DHGroup} `{SmpTypes}
    (h : heap) (c : Conversation) (msg rest : bytes) (gy : Z) :
  Wire.extractMPI msg = (rest, Some gy, true) ->
  gy < 2 \/ otrPrime - 2 < gy ->
  processDHKey h c msg
  = Ret (h, c, false, Some (errorsNew "otr: DH value out of range")).
Proof.
  intros Hm Hr. unfold processDHKey, dhKey_deserialize. rewrite Hm.
  unfold BigInt.lt, BigInt.gt, g1, pMinusTwo.
  destruct (Z.ltb_spec gy 2); simpl; [reflexivity|].
  destruct Hr as [Hr|Hr]; [lia|].
  rewrite Z.gtb_ltb. apply Z.ltb_lt in Hr. rewrite Hr. reflexivity.
Qed.

Lemma processDHKey_rejects_out_of_range_witness :
  (Wire.extractMPI [x00; x00; x00; x01; x01] = ([], Some 1, true)
   /\ (1 < 2 \/ @otrPrime otrGroup - 2 < 1))
  /\ @processDHKey otrGroup unitSmpTypes ∅ plainConversation
       [x00; x00; x00; x01; x01]
     = Ret (∅, plainConversation, false,
            Some (errorsNew "otr: DH value out of range")).
Proof.
  split.
  - split; [reflexivity | left; lia].
  - apply (@processDHKey_rejects_out_of_range otrGroup unitSmpTypes ∅
             plainConversation [x00; x00; x00; x01; x01] [] 1);
      [reflexivity | left; lia].
Defined.

(** C9: once [theirPublicValue] is set, a DH-Key message that carries a
    group element changes neither the heap nor the conversation; the call
    only reports whether the incoming [gy] equals the stored value. *)
Theorem processDHKey_keeps_theirPublicValue `{DHGroup} `{SmpTypes}
    (h : heap) (c : Conversation) (a : ake) (l : loc) (v : Z)
    (msg rest : bytes) (gy : Z) :
  conv_ake c = Some a ->
  theirPublicValue a = Some l ->
  h !! l = Some v ->
  Wire.extractMPI msg = (rest, Some gy, true) ->
  2 <= gy <= otrPrime - 2 ->
  processDHKey h c msg = Ret (h, c, Z.eqb v gy, None).
Proof.
  intros Ha Hl Hv Hm [Hlo Hhi]. unfold processDHKey, dhKey_deserialize.
  rewrite Hm. unfold BigInt.lt, BigInt.gt, g1, pMinusTwo.
  destruct (Z.ltb_spec gy 2); [lia|]. rewrite Z.gtb_ltb.
  destruct (Z.ltb_spec (otrPrime - 2) gy); [lia|]. simpl.
  unfold isGroupElement, g1, pMinusTwo.
  destruct (Z.leb_spec 2 gy); [|lia].
  destruct (Z.leb_spec gy (otrPrime - 2)); [|lia]. simpl.
  rewrite Ha, Hl, (lookup_total_correct h l v Hv). reflexivity.
Qed.

Lemma processDHKey_keeps_theirPublicValue_witness :
  (conv_ake sampleConversation = Some sampleAke
   /\ theirPublicValue sampleAke = Some 3%positive
   /\ sampleHeap !! 3%positive = Some 7
   /\ Wire.extractMPI [x00; x00; x00; x01; x09] = ([], Some 9, true)
   /\ 2 <= 9 <= @otrPrime otrGroup - 2)
  /\ @processDHKey otrGroup unitSmpTypes sampleHeap sampleConversation
       [x00; x00; x00; x01; x09]
     = Ret (sampleHeap, sampleConversation, false, None).
Proof.
  assert (Hr : 2 <= 9 <= @otrPrime otrGroup - 2) by (simpl; lia).
  split.
  - repeat split; try reflexivity; apply Hr.
  - apply (@processDHKey_keeps_theirPublicValue otrGroup unitSmpTypes
             sampleHeap sampleConversation sampleAke 3%positive 7
             [x00; x00; x00; x01; x09] [] 9);
      [reflexivity | reflexivity | reflexivity | reflexivity | exact Hr].
Defined.

(** The value is stored only while none is: the first valid DH-Key message
    puts [gy] on the heap and points [theirPublicValue] at it. *)
Lemma processDHKey_stores_first `{DHGroup} `{SmpTypes}
    (h : heap) (c : Conversation) (a : ake) (msg rest : bytes) (gy : Z) :
  conv_ake c = Some a ->
  theirPublicValue a = None ->
  Wire.extractMPI msg = (rest, Some gy, true) ->
  2 <= gy <= otrPrime - 2 ->
  exists l,
    h !! l = None
    /\ processDHKey h c msg
       = Ret (<[l := gy]> h,
              set_ake c (Some (set_theirPublicValue a (Some l))), false, None).
Proof.
  intros Ha Hl Hm [Hlo Hhi]. unfold processDHKey, dhKey_deserialize.
  rewrite Hm. unfold BigInt.lt, BigInt.gt, g1, pMinusTwo.
  destruct (Z.ltb_spec gy 2); [lia|]. rewrite Z.gtb_ltb.
  destruct (Z.ltb_spec (otrPrime - 2) gy); [lia|]. simpl.
  unfold isGroupElement, g1, pMinusTwo.
  destruct (Z.leb_spec 2 gy); [|lia].
  destruct (Z.leb_spec gy (otrPrime - 2)); [|lia]. simpl.
  rewrite Ha, Hl. exists (fresh (dom h)). split; [|reflexivity].
  apply not_elem_of_dom. apply is_fresh.
Qed.

(** ** Data messages *)

(** The fuel given to the TLV loop is never used up. *)
Lemma deserializeTLVs_total (fuel : nat) (tlvsBytes : bytes) (index : nat)
    (acc : list tlv) :
  (length tlvsBytes - index <= fuel)%nat ->
  deserializeTLVs fuel tlvsBytes index acc <> None.
Proof.
  revert index acc. induction fuel as [|fuel IH]; intros index acc Hf; simpl.
  - destruct (Nat.ltb_spec index (length tlvsBytes)); [lia | discriminate].
  - destruct (Nat.ltb_spec index (length tlvsBytes)); [|discriminate].
    destruct (Nat.ltb_spec (length tlvsBytes) (index + 4)); [discriminate|].
    match goal with |- context [Nat.ltb (length tlvsBytes) ?e] =>
      destruct (Nat.ltb_spec (length tlvsBytes) e) end; [discriminate|].
    apply IH. lia.
Qed.

(** So [dataMsg.deserialize] either returns or panics on a run-time bounds
    check; the model's out-of-fuel branch is dead code. *)
Lemma dataMsg_deserialize_cases (c : dataMsg) (msg : bytes) :
  (exists r, dataMsg_deserialize c msg = Ret r)
  \/ dataMsg_deserialize c msg = Panic "index out of range"
  \/ dataMsg_deserialize c msg = Panic "slice bounds out of range".
Proof.
  unfold dataMsg_deserialize. destruct msg as [|b0 tlvsBytes]; [auto|].
  destruct (negb (Byte.eqb b0 x00)); [eauto|].
  pose proof (deserializeTLVs_total (S (length tlvsBytes)) tlvsBytes 0 (tlvs c))
    as Ht.
  destruct (deserializeTLVs (S (length tlvsBytes)) tlvsBytes 0 (tlvs c))
    as [[[ts e]|s]|] eqn:Hd.
  - eauto.
  - right; right. revert Hd. clear Ht.
    generalize (S (length tlvsBytes)), 0%nat, (tlvs c).
    intros fuel. induction fuel as [|fuel IH]; intros index acc; simpl.
    + destruct (index <? length tlvsBytes)%nat; discriminate.
    + destruct (index <? length tlvsBytes)%nat; [|discriminate].
      destruct (length tlvsBytes <? index + 4)%nat; [intros [= <-]; reflexivity|].
      match goal with |- context [Nat.ltb (length tlvsBytes) ?e] =>
        destruct (Nat.ltb (length tlvsBytes) e) end; [discriminate|].
      apply IH.
  - exfalso. apply Ht; [lia | reflexivity].
Qed.

(** C10 (fails on the code): on the empty input [dataMsg.deserialize] reads
    [msg[0]] and panics with an index out of range instead of returning an
    error. *)
Theorem dataMsg_deserialize_empty_panics (c : dataMsg) :
  dataMsg_deserialize c [] = Panic "index out of range".
Proof. reflexivity. Qed.

(** The same missing bounds check shows on a TLV header that is cut short:
    one byte after the leading zero makes the loop slice past the input. *)
Lemma dataMsg_deserialize_short_header_panics :
  dataMsg_deserialize zeroDataMsg [x00; x01]
  = Panic "slice bounds out of range".
Proof. reflexivity. Qed.

(** The cases of the claim that the code does handle: a first byte other
    than zero, and a TLV length beyond the input, are errors. *)
Lemma dataMsg_deserialize_bad_first_byte (c : dataMsg) (b0 : byte) (rest : bytes) :
  b0 <> x00 ->
  dataMsg_deserialize c (b0 :: rest)
  = Ret (c, Some (errorsNew "otr: corrupt data message")).
Proof.
  intros Hb. unfold dataMsg_deserialize.
  destruct (Byte.eqb b0 x00) eqn:He; [|reflexivity].
  apply Byte.byte_dec_bl in He. contradiction.
Qed.

Example dataMsg_deserialize_wrong_tlv_length :
  dataMsg_deserialize zeroDataMsg [x00; x00; x01; x00; x02; xaa]
  = Ret ({| nul := x00; tlvs := [] |}, Some (errorsNew "otr: wrong tlv length")).
Proof. reflexivity. Qed.

Example dataMsg_deserialize_two_tlvs :
  dataMsg_deserialize zeroDataMsg
    [x00; x00; x01; x00; x02; xaa; xbb; x00; x06; x00; x00]
  = Ret ({| nul := x00;
            tlvs := [ {| tlvType := 1; tlvLength := 2; tlvValue := [xaa; xbb] |};
                      {| tlvType := 6; tlvLength := 0; tlvValue := [] |} ] |},
         None).
Proof. reflexivity. Qed.

(** What the code does on a successful parse: the TLVs that were read tile
    the input, so serializing them gives the input back. *)
Lemma byteOfZ_byteZ (b : byte) : byteOfZ (byteZ b) = b.
Proof.
  unfold byteOfZ, byteZ. pose proof (Byte.to_N_bounded b) as Hb.
  rewrite Z.mod_small by lia. rewrite N2Z.id, Byte.of_to_N. reflexivity.
Qed.

Lemma byteZ_range (b : byte) : 0 <= byteZ b < 256.
Proof. unfold byteZ. pose proof (Byte.to_N_bounded b). lia. Qed.

Lemma byteOfZ_mod (z : Z) : byteOfZ (z mod 256) = byteOfZ z.
Proof. unfold byteOfZ. rewrite Z.mod_mod by lia. reflexivity. Qed.

Lemma appendShort_beUint (out : bytes) (a b : byte) :
  appendShort out (beUint [a; b]) = out ++ [a; b].
Proof.
  unfold appendShort, beUint. simpl.
  pose proof (byteZ_range a) as Ha. pose proof (byteZ_range b) as Hb.
  replace ((0 * 256 + byteZ a) * 256 + byteZ b)
    with (byteZ a * 256 + byteZ b) by lia.
  replace ((byteZ a * 256 + byteZ b) / 256) with (byteZ a)
    by (apply Z.div_unique with (r := byteZ b); lia).
  rewrite <- (byteOfZ_mod (byteZ a * 256 + byteZ b)).
  replace ((byteZ a * 256 + byteZ b) mod 256) with (byteZ b)
    by (apply Z.mod_unique with (q := byteZ a); lia).
  rewrite !byteOfZ_byteZ. reflexivity.
Qed.

Lemma beUint_two_range (a b : byte) : 0 <= beUint [a; b] < 65536.
Proof.
  unfold beUint. simpl.
  pose proof (byteZ_range a). pose proof (byteZ_range b). lia.
Qed.

Lemma take_two_drop (bs : bytes) (i : nat) :
  (i + 2 <= length bs)%nat ->
  exists a b, take 2 (drop i bs) = [a; b] /\ drop i bs = a :: b :: drop (i + 2) bs.
Proof.
  intros Hi. pose proof (length_drop bs i) as Hl.
  destruct (drop i bs) as [|a [|b rest]] eqn:Hd; simpl in Hl; try lia.
  exists a, b. split; [reflexivity|].
  rewrite <- drop_drop, Hd. reflexivity.
Qed.

Lemma serialize_fold_app (ts : list tlv) (out : bytes) :
  fold_left
    (fun out t =>
       appendShort (appendShort out (tlvType t)) (tlvLength t) ++ tlvValue t)
    ts out
  = out ++ fold_left
             (fun out t =>
                appendShort (appendShort out (tlvType t)) (tlvLength t)
                ++ tlvValue t) ts [].
Proof.
  revert out. induction ts as [|t ts IH]; intros out; cbn [fold_left].
  - rewrite app_nil_r. reflexivity.
  - rewrite (IH (appendShort (appendShort out (tlvType t)) (tlvLength t)
                 ++ tlvValue t)).
    rewrite (IH (appendShort (appendShort [] (tlvType t)) (tlvLength t)
                 ++ tlvValue t)).
    unfold appendShort. simpl. rewrite <- !app_assoc. reflexivity.
Qed.

Lemma deserializeTLVs_tiles (fuel : nat) (tlvsBytes : bytes) (index : nat)
    (acc ts : list tlv) :
  (index <= length tlvsBytes)%nat ->
  deserializeTLVs fuel tlvsBytes index acc = Some (Ret (ts, None)) ->
  exists new,
    ts = acc ++ new
    /\ fold_left
         (fun out t =>
            appendShort (appendShort out (tlvType t)) (tlvLength t)
            ++ tlvValue t) new []
       = drop index tlvsBytes.
Proof.
  revert index acc. induction fuel as [|fuel IH]; intros index acc Hi; simpl.
  - destruct (Nat.ltb_spec index (length tlvsBytes)); [discriminate|].
    intros [= <-]. exists []. rewrite app_nil_r. split; [reflexivity|].
    rewrite drop_ge by lia. reflexivity.
  - destruct (Nat.ltb_spec index (length tlvsBytes)).
    2:{ intros [= <-]. exists []. rewrite app_nil_r. split; [reflexivity|].
        rewrite drop_ge by lia. reflexivity. }
    destruct (Nat.ltb_spec (length tlvsBytes) (index + 4)); [discriminate|].
    destruct (take_two_drop tlvsBytes index) as (a & b & Hab & Hd1); [lia|].
    destruct (take_two_drop tlvsBytes (index + 2)) as (c & d & Hcd & Hd2); [lia|].
    rewrite Hab, Hcd.
    replace (index + 2 + 2)%nat with (index + 4)%nat in Hd2 by lia.
    pose proof (beUint_two_range c d) as Hlen.
    set (len := Z.to_nat (beUint [c; d])) in *.
    destruct (Nat.ltb_spec (length tlvsBytes) (index + 4 + len)); [discriminate|].
    intros Hrec. apply IH in Hrec; [|lia].
    destruct Hrec as (new & -> & Hser).
    eexists (_ :: new). rewrite <- app_assoc. split; [reflexivity|].
    cbn [fold_left tlvType tlvLength tlvValue].
    rewrite serialize_fold_app, Hser.
    rewrite !appendShort_beUint. simpl.
    rewrite Hd1, Hd2. do 4 f_equal.
    replace (index + 4 + len - (index + 4))%nat with len by lia.
    rewrite <- (drop_drop tlvsBytes len (index + 4)). apply take_drop.
Qed.

Lemma dataMsg_deserialize_tiles (msg : bytes) (d : dataMsg) :
  dataMsg_deserialize zeroDataMsg msg = Ret (d, None) ->
  dataMsg_serialize d = msg.
Proof.
  unfold dataMsg_deserialize. destruct msg as [|b0 tlvsBytes]; [discriminate|].
  destruct (Byte.eqb b0 x00) eqn:Hb; cbn [negb]; [|discriminate].
  apply Byte.byte_dec_bl in Hb. subst b0.
  change (tlvs zeroDataMsg) with (@nil tlv).
  destruct (deserializeTLVs (S (length tlvsBytes)) tlvsBytes 0 [])
    as [[[ts e]|s]|] eqn:Hd; try discriminate.
  intros Heq. inversion Heq; subst; clear Heq.
  apply deserializeTLVs_tiles in Hd; [|lia].
  destruct Hd as (new & -> & Hser). unfold dataMsg_serialize.
  cbn [tlvs app]. rewrite serialize_fold_app, Hser. reflexivity.
Qed.

(** ** Persistence of the AKE context *)

Example ake_GobEncode_sample :
  ake_GobEncode sampleHeap sampleAke
  = ([GobBigInt 5; GobBigInt 32; GobBigInt 7; GobArray 16 (replicate 16 x01);
      GobBytes [xaa; xbb; xcc]; GobArray 32 (replicate 32 x02);
      GobAkeKeys (revealKey sampleAke); GobAkeKeys (sigKey sampleAke)], None).
Proof. reflexivity. Qed.

(** Whatever the context and whatever the destination, decoding what
    [GobEncode] wrote ends in an error: the decoder reads three integers and
    then bytes, the encoder wrote at most three integers and then the array
    [r]. *)
Lemma ake_GobDecode_GobEncode_always_fails (h h' : heap) (c d : ake) :
  snd (ake_GobDecode h' d (fst (ake_GobEncode h c))) = Some gobTypeMismatch.
Proof.
  unfold ake_GobEncode, gobEncodeBigInt. simpl.
  destruct (secretExponent c) as [l1|], (ourPublicValue c) as [l2|],
    (theirPublicValue c) as [l3|]; simpl;
  unfold ake_GobDecode, gobDecodeBigInt, allocBigInt; simpl;
  destruct (secretExponent d), (ourPublicValue d), (theirPublicValue d);
  reflexivity.
Qed.

(** [GobDecode] never assigns the field [r]. *)
Lemma ake_GobDecode_keeps_r (h : heap) (d : ake) (buf : list gobValue) :
  ake_r (snd (fst (ake_GobDecode h d buf))) = ake_r d.
Proof.
  unfold ake_GobDecode.
  repeat match goal with
         | |- context [match ?x with inl _ => _ | inr _ => _ end] =>
             destruct x as [[[? ?] ?]|?] || destruct x as [[? ?]|?]
         end; reflexivity.
Qed.

(** C5 (fails on the code): encoding the sample AKE context, which has all
    three integers set, and decoding the result into a fresh context gives a
    type-mismatch error, and the decoded context does not hold the content
    of the encoded one ([r] and every field after it are lost). *)
Theorem ake_GobDecode_GobEncode_not_identity :
  snd (ake_GobDecode ∅ newAke (fst (ake_GobEncode sampleHeap sampleAke)))
  = Some gobTypeMismatch
  /\ akeContent
       (fst (fst (ake_GobDecode ∅ newAke (fst (ake_GobEncode sampleHeap sampleAke)))))
       (snd (fst (ake_GobDecode ∅ newAke (fst (ake_GobEncode sampleHeap sampleAke)))))
     <> akeContent sampleHeap sampleAke.
Proof.
  split; [apply ake_GobDecode_GobEncode_always_fails|].
  intros Heq.
  assert (Hr : ake_r (snd (fst (ake_GobDecode ∅ newAke
                 (fst (ake_GobEncode sampleHeap sampleAke))))) = ake_r sampleAke).
  { unfold akeContent in Heq. congruence. }
  rewrite ake_GobDecode_keeps_r in Hr. discriminate Hr.
Qed.

(** ** The SMP state machine *)





Lemma expectedMessage_inj `{SmpOps} (s s' : smpState) :
  expectedMessage s = expectedMessage s' -> s = s'.
Proof. destruct s, s'; simpl; congruence. Qed.



(** The abort message itself is not an unexpected message: it resets the
    state and nothing is sent back. *)
Lemma smp_abort_message_resets `{SmpOps} (c : conversation) :
  receiveSMP c smpMessageAbort = (set_smp_state c smpStateExpect1, None, None).
Proof. reflexivity. Qed.

(** The expected message is handled by the state's own handler; for
    instance message 1 in [smpStateExpect1], when the proofs verify and the
    randomness suffices, moves to [smpStateExpect3]. *)
Lemma smp_expect1_message1 `{SmpOps} (c c' : conversation) (m : smp1Message)
    (ret : smp2Message) :
  smp_state (conversation_smp c) = smpStateExpect1 ->
  verifySMP1 c m = None ->
  generateSMP2 c (smp_secret (conversation_smp c)) m = (c', ret, true) ->
  receivedMessage (smpMessage1 m) c
  = (set_smp_state c' smpStateExpect3, Some (smpMessage2 ret), None).
Proof.
  intros Hs Hv Hg. unfold receivedMessage, receiveMessage1.
  rewrite Hs, Hv, Hg. reflexivity.
Qed.

(** ** Ending a conversation *)

Lemma wipeBigInt_zero (l : loc) (h : heap) : wipeBigInt (Some l) h !! l = Some 0.
Proof. simpl. apply lookup_insert_eq. Qed.

Lemma wipeBigInt_keeps_zero (k : option loc) (l : loc) (h : heap) :
  h !! l = Some 0 -> wipeBigInt k h !! l = Some 0.
Proof.
  intros Hl. destruct k as [l'|]; simpl; [|exact Hl].
  destruct (decide (l' = l)) as [->|Hne].
  - apply lookup_insert_eq.
  - rewrite lookup_insert_ne by exact Hne. exact Hl.
Qed.

Lemma bigIntIsZero_wipe_same (k : option loc) (h : heap) :
  bigIntIsZero (wipeBigInt k h) k.
Proof. destruct k; simpl; [apply lookup_insert_eq | exact I]. Qed.

Lemma bigIntIsZero_wipe_other (k p : option loc) (h : heap) :
  bigIntIsZero h p -> bigIntIsZero (wipeBigInt k h) p.
Proof. destruct p; simpl; [apply wipeBigInt_keeps_zero | auto]. Qed.

Lemma dhKeyPairIsZero_wipe_same (p : dhKeyPair) (h : heap) :
  dhKeyPairIsZero (dhKeyPair_wipe p h) p.
Proof.
  unfold dhKeyPairIsZero, dhKeyPair_wipe. split.
  - apply bigIntIsZero_wipe_other, bigIntIsZero_wipe_same.
  - apply bigIntIsZero_wipe_same.
Qed.

Lemma dhKeyPairIsZero_wipeBigInt (k : option loc) (p : dhKeyPair) (h : heap) :
  dhKeyPairIsZero h p -> dhKeyPairIsZero (wipeBigInt k h) p.
Proof. intros [? ?]. split; apply bigIntIsZero_wipe_other; assumption. Qed.

Lemma dhKeyPairIsZero_wipe_other (q p : dhKeyPair) (h : heap) :
  dhKeyPairIsZero h p -> dhKeyPairIsZero (dhKeyPair_wipe q h) p.
Proof.
  intros Hp. unfold dhKeyPair_wipe. do 2 apply dhKeyPairIsZero_wipeBigInt.
  exact Hp.
Qed.

(** What [End] wipes, on any heap and key-management context. *)
Lemma wipes_of_End_clear_keys (k : keyManagementContext) (h : heap) :
  keysAreZero
    (wipeBigInt (theirCurrentDHPubKey k)
       (dhKeyPair_wipe (ourPreviousDHKeys k)
          (dhKeyPair_wipe (ourCurrentDHKeys k) h))) k.
Proof.
  unfold keysAreZero. split; [|split].
  - apply dhKeyPairIsZero_wipeBigInt, dhKeyPairIsZero_wipe_other,
      dhKeyPairIsZero_wipe_same.
  - apply dhKeyPairIsZero_wipeBigInt, dhKeyPairIsZero_wipe_same.
  - apply bigIntIsZero_wipe_same.
Qed.

(** C4 (fails on the code as stated): ending the sample conversation leaves
    the secret exponent, [r] and both key bundles of its AKE context as they
    were; they do not read as zero. *)
Lemma End_does_not_clear_ake :
  ~ conversationSecretsAreZero
      (fst (fst (fst (fst (@End unitSmpTypes unitConversationOps
                             sampleHeap sampleConversation)))))
      (snd (fst (fst (fst (@End unitSmpTypes unitConversationOps
                             sampleHeap sampleConversation))))).
Proof.
  intros [_ Hake]. simpl in Hake.
  destruct Hake as (_ & Hr & _).
  unfold bytesAreZero in Hr. simpl in Hr.
  apply Forall_cons_1 in Hr as [Hr _]. discriminate Hr.
Qed.

(** C4 (amended): after [End] the conversation is in plain text and the
    key-management DH keys it holds (our current and previous key pair,
    their current public key) read as zero. *)
Theorem End_clears_key_management `{ConversationOps} (h : heap) (c : Conversation) :
  conv_msgState (snd (fst (fst (fst (End h c))))) = plainText
  /\ keysAreZero (fst (fst (fst (fst (End h c)))))
       (conv_keys (snd (fst (fst (fst (End h c)))))).
Proof.
  unfold End.
  destruct (match conv_msgState c with
            | encrypted => _
            | _ => _
            end) as [[[h1 c1] toSend] err].
  simpl. split; [reflexivity|]. apply wipes_of_End_clear_keys.
Qed.

(** [End] has no statement that writes to the AKE context: when the
    conversation is not encrypted (so that no data message is built), the
    context is as before. *)
Lemma End_frames_ake `{ConversationOps} (h : heap) (c : Conversation) :
  conv_msgState c <> encrypted ->
  conv_ake (snd (fst (fst (fst (End h c))))) = conv_ake c.
Proof.
  intros Hs. unfold End. destruct (conv_msgState c); try contradiction; reflexivity.
Qed.

Example End_sample_secret_exponent :
  readBigInt
    (fst (fst (fst (fst (@End unitSmpTypes unitConversationOps
                           sampleHeap sampleConversation)))))
    (secretExponent sampleAke) = Some 5.
Proof. reflexivity. Qed.

(** The same on an encrypted conversation, when building the disconnect
    message leaves the AKE context alone: the keys of the key-management
    context are cleared, the AKE context is not. *)
Example End_encrypted_sample :
  conv_ake
    (snd (fst (fst (fst (@End unitSmpTypes unitConversationOps sampleHeap
                           (set_msgState sampleConversation encrypted))))))
  = Some sampleAke
  /\ snd (@End unitSmpTypes unitConversationOps sampleHeap
            (set_msgState sampleConversation encrypted))
     = [GoneInsecure].
Proof. split; reflexivity. Qed.

(** ** Fragmentation *)

Import Fragmentation.

Lemma byte_eqb_refl (b : byte) : Byte.eqb b b = true.
Proof. apply Byte.byte_dec_lb. reflexivity. Qed.

Lemma byte_eqb_neq (b c : byte) : b <> c -> Byte.eqb b c = false.
Proof.
  intros Hne. destruct (Byte.eqb b c) eqn:He; [|reflexivity].
  apply Byte.byte_dec_bl in He. contradiction.
Qed.

(** *** Splitting at a separator *)

Lemma splitOn_app_sep (sep : byte) (a rest : bytes) :
  Forall (fun b => b <> sep) a ->
  splitOn sep (a ++ sep :: rest) = a :: splitOn sep rest.
Proof.
  induction 1 as [|c a Hc _ IH]; simpl.
  - rewrite byte_eqb_refl. reflexivity.
  - rewrite (byte_eqb_neq c sep Hc), IH. reflexivity.
Qed.

Lemma splitOn_no_sep (sep : byte) (a : bytes) :
  Forall (fun b => b <> sep) a -> splitOn sep a = [a].
Proof.
  induction 1 as [|c a Hc _ IH]; simpl; [reflexivity|].
  rewrite (byte_eqb_neq c sep Hc), IH. reflexivity.
Qed.

(** *** Printing and parsing numbers *)

Lemma isDigit_not_comma (b : byte) : isDigit b -> b <> ","%byte.
Proof. intros Hd ->. apply Hd. reflexivity. Qed.

Lemma isDigit_not_pipe (b : byte) : isDigit b -> b <> "|"%byte.
Proof. intros Hd ->. apply Hd. reflexivity. Qed.

Lemma bytesOfDecUint_digits (u : Decimal.uint) : Forall isDigit (bytesOfDecUint u).
Proof. induction u; simpl; constructor; try assumption; discriminate. Qed.

Lemma bytesOfHexUint_digits (u : Hexadecimal.uint) :
  Forall isDigit (bytesOfHexUint u).
Proof. induction u; simpl; constructor; try assumption; discriminate. Qed.

Lemma padZeros_digits (w : nat) (s : bytes) :
  Forall isDigit s -> Forall isDigit (padZeros w s).
Proof.
  intros Hs. unfold padZeros. apply Forall_app. split; [|exact Hs].
  apply Forall_replicate. discriminate.
Qed.

Lemma fmtDec_digits (w : nat) (n : Z) : Forall isDigit (fmtDec w n).
Proof. apply padZeros_digits, bytesOfDecUint_digits. Qed.

Lemma fmtHex_digits (w : nat) (n : Z) : Forall isDigit (fmtHex w n).
Proof. apply padZeros_digits, bytesOfHexUint_digits. Qed.

Lemma decUintOfBytes_bytesOfDecUint (u : Decimal.uint) :
  decUintOfBytes (bytesOfDecUint u) = Some u.
Proof. induction u; simpl; [reflexivity | rewrite IHu; reflexivity ..]. Qed.

Lemma hexUintOfBytes_bytesOfHexUint (u : Hexadecimal.uint) :
  hexUintOfBytes (bytesOfHexUint u) = Some u.
Proof. induction u; simpl; [reflexivity | rewrite IHu; reflexivity ..]. Qed.

Lemma decUintOfBytes_zeros (k : nat) (s : bytes) (u : Decimal.uint) :
  decUintOfBytes s = Some u ->
  decUintOfBytes (replicate k "0"%byte ++ s) = Some (Nat.iter k Decimal.D0 u).
Proof.
  intros Hs. induction k as [|k IH]; simpl; [exact Hs|].
  rewrite IH. reflexivity.
Qed.

Lemma hexUintOfBytes_zeros (k : nat) (s : bytes) (u : Hexadecimal.uint) :
  hexUintOfBytes s = Some u ->
  hexUintOfBytes (replicate k "0"%byte ++ s) = Some (Nat.iter k Hexadecimal.D0 u).
Proof.
  intros Hs. induction k as [|k IH]; simpl; [exact Hs|].
  rewrite IH. reflexivity.
Qed.

Lemma of_uint_zeros (k : nat) (u : Decimal.uint) :
  N.of_uint (Nat.iter k Decimal.D0 u) = N.of_uint u.
Proof. induction k as [|k IH]; simpl; [reflexivity | exact IH]. Qed.

Lemma of_hex_uint_zeros (k : nat) (u : Hexadecimal.uint) :
  N.of_hex_uint (Nat.iter k Hexadecimal.D0 u) = N.of_hex_uint u.
Proof. induction k as [|k IH]; simpl; [reflexivity | exact IH]. Qed.

Lemma bytesOfDecUint_nonempty (m : N) : bytesOfDecUint (N.to_uint m) <> [].
Proof.
  destruct m as [|p]; simpl; [discriminate|].
  pose proof (DecimalPos.Unsigned.to_uint_nonnil p) as Hn.
  destruct (Pos.to_uint p); simpl; [contradiction | discriminate ..].
Qed.

Lemma bytesOfHexUint_nonempty (m : N) : bytesOfHexUint (N.to_hex_uint m) <> [].
Proof.
  destruct m as [|p]; simpl; [discriminate|].
  pose proof (HexadecimalPos.Unsigned.to_uint_nonnil p) as Hn.
  destruct (Pos.to_hex_uint p); simpl; [contradiction | discriminate ..].
Qed.

(** [%05d] and the parser of the counters are inverse on [uint16]. *)
Lemma parseUint16_fmtDec (w : nat) (n : Z) :
  0 <= n <= 65535 -> parseUint16 (fmtDec w n) = Some n.
Proof.
  intros Hn. unfold parseUint16, fmtDec, padZeros.
  set (ds := bytesOfDecUint (N.to_uint (Z.to_N n))).
  set (k := (w - length ds)%nat).
  assert (Hne : replicate k "0"%byte ++ ds <> []).
  { intros He. apply app_eq_nil in He as [_ He].
    exact (bytesOfDecUint_nonempty _ He). }
  rewrite (decUintOfBytes_zeros k ds (N.to_uint (Z.to_N n)))
    by apply decUintOfBytes_bytesOfDecUint.
  rewrite of_uint_zeros, DecimalN.Unsigned.of_to, Z2N.id by lia.
  destruct (replicate k "0"%byte ++ ds); [contradiction|].
  destruct (Z.leb_spec n 65535); [reflexivity | lia].
Qed.

(** [%08x] and the parser of the instance tags are inverse on [uint32]. *)
Lemma parseItag_fmtHex (w : nat) (n : Z) :
  0 <= n <= 4294967295 -> parseItag (fmtHex w n) = Some n.
Proof.
  intros Hn. unfold parseItag, fmtHex, padZeros.
  set (ds := bytesOfHexUint (N.to_hex_uint (Z.to_N n))).
  set (k := (w - length ds)%nat).
  assert (Hne : replicate k "0"%byte ++ ds <> []).
  { intros He. apply app_eq_nil in He as [_ He].
    exact (bytesOfHexUint_nonempty _ He). }
  rewrite (hexUintOfBytes_zeros k ds (N.to_hex_uint (Z.to_N n)))
    by apply hexUintOfBytes_bytesOfHexUint.
  rewrite of_hex_uint_zeros, HexadecimalN.Unsigned.of_to, Z2N.id by lia.
  destruct (replicate k "0"%byte ++ ds); [contradiction|].
  destruct (Z.leb_spec n 4294967295); [reflexivity | lia].
Qed.

(** *** Parsing what [fragment] produced *)

Lemma parseFragment_produced (ix l : Z) (payload : bytes) :
  0 <= ix <= 65535 -> 0 <= l <= 65535 ->
  Forall (fun b => b <> ","%byte) payload ->
  parseFragment (fmtDec 5 ix ++ ","%byte :: fmtDec 5 l ++ ","%byte
                 :: payload ++ [","%byte])
  = (payload, ix, l, true).
Proof.
  intros Hix Hl Hp. unfold parseFragment.
  rewrite splitOn_app_sep
    by (eapply Forall_impl; [apply fmtDec_digits | apply isDigit_not_comma]).
  rewrite splitOn_app_sep
    by (eapply Forall_impl; [apply fmtDec_digits | apply isDigit_not_comma]).
  rewrite splitOn_app_sep by exact Hp. simpl.
  rewrite !parseUint16_fmtDec by assumption. reflexivity.
Qed.

Lemma parseFragmentPrefix_v2 (v : otrVersion) (body : bytes) :
  v = otrV2 ->
  parseFragmentPrefix v (otrv2FragmentationPrefix ++ body) = Some (None, body).
Proof. intros ->. reflexivity. Qed.

Lemma parseFragmentPrefix_v3 (itags itagr : Z) (body : bytes) :
  0 <= itags <= 4294967295 -> 0 <= itagr <= 4294967295 ->
  parseFragmentPrefix otrV3
    (otrv3FragmentationPrefix ++ fmtHex 8 itags ++ ["|"%byte] ++ fmtHex 8 itagr
     ++ [","%byte] ++ body)
  = Some (Some (itags, itagr), body).
Proof.
  intros Hs Hr.
  pose proof (fmtHex_digits 8 itags) as Hds.
  pose proof (fmtHex_digits 8 itagr) as Hdr.
  pose proof (parseItag_fmtHex 8 itags Hs) as Hps.
  pose proof (parseItag_fmtHex 8 itagr Hr) as Hpr.
  revert Hds Hdr Hps Hpr. generalize (fmtHex 8 itags) (fmtHex 8 itagr).
  intros hs hr Hds Hdr Hps Hpr.
  unfold parseFragmentPrefix.
  change (hasPrefix (otrv3FragmentationPrefix ++ hs ++ ["|"%byte] ++ hr
                     ++ [","%byte] ++ body) otrv3FragmentationPrefix) with true.
  cbv iota.
  change (drop 4 (otrv3FragmentationPrefix ++ hs ++ ["|"%byte] ++ hr
                  ++ [","%byte] ++ body))
    with ("|"%byte :: hs ++ ["|"%byte] ++ hr ++ [","%byte] ++ body).
  replace ("|"%byte :: hs ++ ["|"%byte] ++ hr ++ [","%byte] ++ body)
    with (("|"%byte :: hs ++ "|"%byte :: hr) ++ ","%byte :: body)
    by (simpl; rewrite <- app_assoc; reflexivity).
  rewrite splitOn_app_sep.
  2:{ constructor; [discriminate|]. apply Forall_app. split.
      - eapply Forall_impl; [exact Hds | apply isDigit_not_comma].
      - constructor; [discriminate|].
        eapply Forall_impl; [exact Hdr | apply isDigit_not_comma]. }
  change (splitOn "|" ("|"%byte :: hs ++ "|"%byte :: hr))
    with ([] :: splitOn "|" (hs ++ "|"%byte :: hr)).
  rewrite splitOn_app_sep
    by (eapply Forall_impl; [exact Hds | apply isDigit_not_pipe]).
  rewrite splitOn_no_sep
    by (eapply Forall_impl; [exact Hdr | apply isDigit_not_pipe]).
  rewrite Hps, Hpr. f_equal. f_equal.
  replace (otrv3FragmentationPrefix ++ hs ++ ["|"%byte] ++ hr ++ [","%byte] ++ body)
    with ((otrv3FragmentationPrefix ++ hs ++ ["|"%byte] ++ hr ++ [","%byte]) ++ body)
    by (rewrite <- !app_assoc; reflexivity).
  apply drop_app_length'. simpl. repeat (rewrite length_app; simpl). lia.
Qed.

(** *** Receiving what [fragment] produced *)

Lemma checkInstanceTags_peer (itags itagr ourTag theirTag : Z) :
  peerAccepts otrV3 itags itagr ourTag theirTag ->
  checkInstanceTags ourTag theirTag itags itagr = None.
Proof.
  intros (Hs & Hr & -> & Ht). unfold checkInstanceTags.
  rewrite Z.eqb_refl. simpl.
  destruct (Z.ltb_spec itags 256); [lia|].
  destruct Ht as [-> | ->].
  - rewrite Z.eqb_refl. simpl. rewrite !andb_false_r. reflexivity.
  - simpl. rewrite andb_false_r. reflexivity.
Qed.

Lemma receiveFragment_produced (v : otrVersion) (itags itagr ourTag theirTag : Z)
    (ctx : fragmentationContext) (n j : nat) (payload : bytes) :
  peerAccepts v itags itagr ourTag theirTag ->
  (j < n)%nat -> Z.of_nat n <= 65535 ->
  Forall (fun b => b <> ","%byte) payload ->
  receiveFragment v ourTag theirTag ctx
    (fragmentPrefix v j n itags itagr ++ payload ++ [","%byte])
  = (acceptFragment ctx payload (Z.of_nat j + 1) (Z.of_nat n), [], None).
Proof.
  intros Hpeer Hj Hn Hp. unfold receiveFragment. destruct v.
  - replace (fragmentPrefix otrV2 j n itags itagr ++ payload ++ [","%byte])
      with (otrv2FragmentationPrefix
            ++ (fmtDec 5 (Z.of_nat j + 1) ++ ","%byte :: fmtDec 5 (Z.of_nat n)
                ++ ","%byte :: payload ++ [","%byte]))
      by (unfold fragmentPrefix, otrV2_fragmentPrefix;
          rewrite <- !app_assoc; reflexivity).
    rewrite parseFragmentPrefix_v2 by reflexivity.
    rewrite parseFragment_produced by (assumption || lia). reflexivity.
  - pose proof Hpeer as (Hs & Hr & Ho & Ht).
    replace (fragmentPrefix otrV3 j n itags itagr ++ payload ++ [","%byte])
      with (otrv3FragmentationPrefix ++ fmtHex 8 itags ++ ["|"%byte]
            ++ fmtHex 8 itagr ++ [","%byte]
            ++ (fmtDec 5 (Z.of_nat j + 1) ++ ","%byte :: fmtDec 5 (Z.of_nat n)
                ++ ","%byte :: payload ++ [","%byte]))
      by (unfold fragmentPrefix, otrV3_fragmentPrefix;
          rewrite <- !app_assoc; reflexivity).
    rewrite parseFragmentPrefix_v3 by lia.
    rewrite parseFragment_produced by (assumption || lia).
    rewrite checkInstanceTags_peer by exact Hpeer.
    reflexivity.
Qed.

Lemma acceptFragment_first (ctx : fragmentationContext) (payload : bytes) (l : Z) :
  1 <= l ->
  acceptFragment ctx payload 1 l
  = {| frag := payload; currentIndex := 1; currentLen := l |}.
Proof.
  intros Hl. unfold acceptFragment. simpl.
  destruct (Z.eqb_spec l 0); [lia|]. destruct (Z.ltb_spec l 1); [lia|].
  reflexivity.
Qed.

Lemma acceptFragment_next (ctx : fragmentationContext) (payload : bytes) (ix l : Z) :
  2 <= ix <= l -> currentIndex ctx + 1 = ix -> currentLen ctx = l ->
  acceptFragment ctx payload ix l
  = {| frag := frag ctx ++ payload; currentIndex := ix; currentLen := l |}.
Proof.
  intros Hix Hc Hl. unfold acceptFragment.
  destruct (Z.eqb_spec ix 0); [lia|]. destruct (Z.eqb_spec l 0); [lia|].
  destruct (Z.ltb_spec l ix); [lia|]. destruct (Z.eqb_spec ix 1); [lia|].
  simpl. rewrite Hc, Hl, !Z.eqb_refl. reflexivity.
Qed.

(** The fragments after the first, fed to a context that holds the payload
    of the fragments before them. *)
Lemma receiveFragments_rest (v : otrVersion) (itags itagr ourTag theirTag : Z)
    (M : bytes) (F n : nat) :
  peerAccepts v itags itagr ourTag theirTag ->
  Z.of_nat n <= 65535 ->
  Forall (fun b => b <> ","%byte) M ->
  forall (m j : nat) (ctx : fragmentationContext),
    (1 <= j)%nat -> (j + m = n)%nat ->
    ctx = {| frag := take (j * F) M; currentIndex := Z.of_nat j;
             currentLen := Z.of_nat n |} ->
    receiveFragments v ourTag theirTag ctx
      (map (fun i => fragmentPrefix v i n itags itagr
                     ++ take F (drop (i * F) M) ++ [","%byte])
           (seq j m))
    = ({| frag := take (n * F) M; currentIndex := Z.of_nat n;
          currentLen := Z.of_nat n |}, None).
Proof.
  intros Hpeer Hn HM m. induction m as [|m IH]; intros j ctx Hj Hjm ->; simpl.
  - replace j with n by lia. reflexivity.
  - rewrite (receiveFragment_produced v itags itagr ourTag theirTag)
      by (try assumption; try lia; apply Forall_take, Forall_drop, HM).
    apply IH; [lia | lia |].
    rewrite acceptFragment_next by (simpl; lia). simpl.
    rewrite take_take_drop. f_equal; [f_equal; lia | lia].
Qed.

Lemma ceilDiv_covers (a b : nat) : (0 < b)%nat -> (a <= ceilDiv a b * b)%nat.
Proof.
  intros Hb. unfold ceilDiv.
  pose proof (Nat.div_mod_eq (a + b - 1) b) as Hd.
  pose proof (Nat.mod_upper_bound (a + b - 1) b) as Hm. nia.
Qed.

Lemma ceilDiv_pos (a b : nat) : (0 < b)%nat -> (0 < a)%nat -> (0 < ceilDiv a b)%nat.
Proof.
  intros Hb Ha. unfold ceilDiv. apply Nat.div_str_pos. lia.
Qed.

(** The round trip for any payload size: the fragments of a message that
    is longer than the limit reassemble to the message. *)
Lemma fragmentWith_reassemble (k : nat) (v : otrVersion)
    (itags itagr ourTag theirTag : Z) (M : bytes) (F : nat) :
  (0 < k)%nat ->
  Forall (fun b => b <> ","%byte) M ->
  Z.of_nat (ceilDiv (length M) k) <= 65535 ->
  peerAccepts v itags itagr ourTag theirTag ->
  (F < length M)%nat ->
  reassemble v ourTag theirTag (fragmentWith k v itags itagr M F) = Some M.
Proof.
  intros Hk HM Hn Hpeer Hlen. unfold fragmentWith.
  destruct (Nat.leb_spec (length M) F); [lia|].
  set (n := ceilDiv (length M) k) in *.
  assert (Hpos : (0 < n)%nat) by (apply ceilDiv_pos; lia).
  assert (Hcov : (length M <= n * k)%nat) by (apply ceilDiv_covers; exact Hk).
  destruct n as [|n']; [lia|].
  unfold reassemble. cbn [seq map receiveFragments].
  rewrite (receiveFragment_produced v itags itagr ourTag theirTag)
    by (try assumption; try lia; apply Forall_take, Forall_drop, HM).
  rewrite (receiveFragments_rest v itags itagr ourTag theirTag M k (S n')
             Hpeer Hn HM n' 1%nat); [| lia | lia |].
  - unfold fragmentsFinished. simpl frag. simpl currentIndex. simpl currentLen.
    rewrite Z.eqb_refl. destruct (Z.ltb_spec 0 (Z.of_nat (S n'))); [|lia].
    simpl. rewrite take_ge by exact Hcov. reflexivity.
  - rewrite acceptFragment_first by lia. simpl.
    rewrite Nat.add_0_r. reflexivity.
Qed.

(** C1 (fails on the model as stated): a 28-byte message with commas in it,
    cut with the minimum fragment size of version 3, does not reassemble;
    the peer finds a fragment with too many fields. *)
Lemma reassemble_comma_payload_fails :
  (otrV3_minFragmentSize <= 26)%nat
  /\ reassemble otrV3 0x102 0x100
       (fragment otrV3 0x100 0x102
          (list_byte_of_string "one,two,three,four,five,six.") 26)
     = None.
Proof. split; [unfold otrV3_minFragmentSize; lia | vm_compute; reflexivity]. Qed.

(** C1 (amended): for every byte string [M] without a comma byte and every
    fragment size [F >= 1] (so every [F] from the minimum fragment size on)
    that cuts [M] into at most 65535 fragments: when [|M| <= F], [fragment]
    returns the single element [M]; otherwise the peer that the fragments
    are addressed to reassembles them, in order, to exactly [M]. *)
Theorem fragment_reassemble (v : otrVersion) (itags itagr ourTag theirTag : Z)
    (M : bytes) (F : nat) :
  (0 < F)%nat ->
  Forall (fun b => b <> ","%byte) M ->
  Z.of_nat (ceilDiv (length M) F) <= 65535 ->
  peerAccepts v itags itagr ourTag theirTag ->
  ((length M <= F)%nat -> fragment v itags itagr M F = [M])
  /\ ((F < length M)%nat ->
      reassemble v ourTag theirTag (fragment v itags itagr M F) = Some M).
Proof.
  intros HF HM Hn Hpeer. split; intros Hlen.
  - unfold fragment, fragmentWith.
    destruct (Nat.leb_spec (length M) F); [reflexivity | lia].
  - unfold fragment. apply fragmentWith_reassemble; assumption.
Qed.

Lemma fragment_reassemble_witness :
  ((0 < 4)%nat
   /\ Forall (fun b => b <> ","%byte) (list_byte_of_string "one two three")
   /\ Z.of_nat (ceilDiv (length (list_byte_of_string "one two three")) 4) <= 65535
   /\ peerAccepts otrV3 0x100 0x102 0x102 0x100)
  /\ ((length (list_byte_of_string "one two three") <= 4)%nat ->
      fragment otrV3 0x100 0x102 (list_byte_of_string "one two three") 4
      = [list_byte_of_string "one two three"])
  /\ ((4 < length (list_byte_of_string "one two three"))%nat ->
      reassemble otrV3 0x102 0x100
        (fragment otrV3 0x100 0x102 (list_byte_of_string "one two three") 4)
      = Some (list_byte_of_string "one two three")).
Proof.
  assert (H1 : (0 < 4)%nat) by lia.
  assert (H2 : Forall (fun b => b <> ","%byte)
                 (list_byte_of_string "one two three"))
    by (repeat constructor; discriminate).
  assert (H3 : Z.of_nat (ceilDiv (length (list_byte_of_string "one two three")) 4)
               <= 65535) by (vm_compute; discriminate).
  assert (H4 : peerAccepts otrV3 0x100 0x102 0x102 0x100)
    by (simpl; lia).
  split; [auto|].
  exact (fragment_reassemble otrV3 0x100 0x102 0x102 0x100
           (list_byte_of_string "one two three") 4 H1 H2 H3 H4).
Defined.

(** The same round trip for the cut that section 4.2 of the spec words,
    with payloads of [F - O] bytes; it needs a limit above the overhead,
    which is 18 bytes under version 2 and 36 under version 3. *)
Lemma fragmentByOverhead_reassemble (v : otrVersion)
    (itags itagr ourTag theirTag : Z) (M : bytes) (F : nat) :
  (fragmentOverhead v < F)%nat ->
  Forall (fun b => b <> ","%byte) M ->
  Z.of_nat (ceilDiv (length M) (F - fragmentOverhead v)) <= 65535 ->
  peerAccepts v itags itagr ourTag theirTag ->
  (F < length M)%nat ->
  reassemble v ourTag theirTag (fragmentByOverhead v itags itagr M F) = Some M.
Proof.
  intros HF HM Hn Hpeer Hlen. unfold fragmentByOverhead.
  apply fragmentWith_reassemble; try assumption. lia.
Qed.

Example fragmentOverhead_values :
  fragmentOverhead otrV2 = 18%nat /\ fragmentOverhead otrV3 = 36%nat.
Proof. split; vm_compute; reflexivity. Qed.

(** *** The instance-tag filter *)




(** The test of the malformed case: the conversation has the low tag stored
    as their tag, so the fragment passes the other-instance filter. *)
Example receiveFragment_malformed_test :
  receiveFragment otrV3 0x103 0x0A
    {| frag := list_byte_of_string "shouldn't change";
       currentIndex := 0; currentLen := 0 |}
    (list_byte_of_string "?OTR|0000000A|00000103,00001,00004,one ,")
  = ({| frag := list_byte_of_string "shouldn't change";
        currentIndex := 0; currentLen := 0 |},
     [MessageEventReceivedMessageMalformed], None).
Proof. vm_compute. reflexivity. Qed.

(** The tests of the repository that pin the model. *)
Example fragment_v3_test :
  fragment otrV3 0x100 0x102 (list_byte_of_string "one two three") 4
  = map list_byte_of_string
      ["?OTR|00000100|00000102,00001,00004,one ,";
       "?OTR|00000100|00000102,00002,00004,two ,";
       "?OTR|00000100|00000102,00003,00004,thre,";
       "?OTR|00000100|00000102,00004,00004,e,"]%string.
Proof. vm_compute. reflexivity. Qed.

Example fragment_v2_test :
  fragment otrV2 0x100 0x101 (list_byte_of_string "one two three") 4
  = map list_byte_of_string
      ["?OTR,00001,00004,one ,"; "?OTR,00002,00004,two ,";
       "?OTR,00003,00004,thre,"; "?OTR,00004,00004,e,"]%string.
Proof. vm_compute. reflexivity. Qed.

Example receiveFragment_next_test :
  receiveFragment otrV2 0 0
    {| frag := list_byte_of_string "blarg one two";
       currentIndex := 2; currentLen := 4 |}
    (list_byte_of_string "?OTR,00003,00004, one,")
  = ({| frag := list_byte_of_string "blarg one two one";
        currentIndex := 3; currentLen := 4 |}, [], None).
Proof. vm_compute. reflexivity. Qed.

Example receiveFragment_reset_test :
  receiveFragment otrV2 0 0
    {| frag := list_byte_of_string "blarg one two";
       currentIndex := 2; currentLen := 4 |}
    (list_byte_of_string "?OTR,00003,00005, one,")
  = (emptyContext, [], None).
Proof. vm_compute. reflexivity. Qed.

(** The header of a complete version 3 message goes through the same kind
    of filter in [parseMessageHeader]: valid tags that are not those of this
    conversation give [errReceivedMessageForOtherInstance]. *)
Example parseMessageHeader_other_instance :
  snd (@otrV3_parseMessageHeader unitSmpTypes plainConversation
         [x00; x03; x0a; x00; x00; x02; x04; x00; x00; x01; x01; xff])
  = Some errReceivedMessageForOtherInstance.
Proof. vm_compute. reflexivity. Qed.

(** * Further properties of the code *)

(** ** Query messages *)

Lemma atoiByte_range (c : byte) (v : Z) : atoiByte c = Some v -> 0 <= v <= 9.
Proof.
  unfold atoiByte.
  destruct (Z.leb_spec 48 (byteZ c)); simpl; [|discriminate].
  destruct (Z.leb_spec (byteZ c) 57); [|discriminate].
  intros [= <-]. lia.
Qed.

Lemma omap_atoiByte_range (s : bytes) :
  Forall (fun v => 0 <= v <= 9) (omap atoiByte s).
Proof.
  induction s as [|c s IH]; simpl; [constructor|].
  destruct (atoiByte c) as [v|] eqn:Hc; [|exact IH].
  constructor; [exact (atoiByte_range c v Hc) | exact IH].
Qed.

(** X1: every version that [parseOTRQueryMessage] returns is a single
    decimal digit (0 to 9), and it returns versions only for a message that
    [isQueryMessage] accepts and that is longer than the marker. *)
Theorem parseOTRQueryMessage_versions (msg : bytes) :
  Forall (fun v => 0 <= v <= 9) (parseOTRQueryMessage msg)
  /\ (parseOTRQueryMessage msg <> [] ->
      isQueryMessage msg = true /\ (4 < length msg)%nat).
Proof.
  unfold parseOTRQueryMessage, isQueryMessage.
  destruct (hasPrefix msg queryMarker) eqn:Hp; cbn [andb].
  2:{ split; [constructor | intros Hne; contradiction]. }
  destruct (Nat.ltb_spec (length queryMarker) (length msg)) as [Hl|Hl].
  2:{ split; [constructor | intros Hne; contradiction]. }
  split; [|intros _; split; [reflexivity | exact Hl]].
  destruct (drop (length queryMarker) msg) as [|c rest]; [constructor|].
  destruct (Byte.eqb c "?").
  - destruct rest as [|c' rest']; [repeat constructor; lia|].
    destruct (Byte.eqb c' "v"); [|repeat constructor; lia].
    apply Forall_app. split; [repeat constructor; lia|].
    apply omap_atoiByte_range.
  - destruct (Byte.eqb c "v"); [|constructor].
    apply omap_atoiByte_range.
Qed.

Lemma acceptVersions_spec `{PolicyBits} (p : Z) (versions : list Z) :
  match acceptVersions p versions with
  | (Some otrV3, true) => In 3 versions /\ has p allowV3 = true
  | (Some otrV2, true) => In 2 versions /\ has p allowV2 = true
  | (None, false) =>
      Forall (fun v => ((v =? 3) && has p allowV3) || ((v =? 2) && has p allowV2)
                       = false) versions
  | _ => False
  end.
Proof.
  induction versions as [|v rest IH]; simpl; [constructor|].
  revert IH.
  destruct (has p allowV3) eqn:Hh3, (has p allowV2) eqn:Hh2;
    destruct (Z.eqb_spec v 3) as [E3|E3]; destruct (Z.eqb_spec v 2) as [E2|E2];
    simpl; try lia; subst;
    try (intros _; split; [left; reflexivity | reflexivity]);
    destruct (acceptVersions p rest) as [[[]|] []]; intros IH;
    try contradiction;
    try (destruct IH; split; [right; assumption | assumption]);
    try (constructor; [|exact IH]);
    try reflexivity;
    try (destruct (Z.eqb_spec v 3); [contradiction|];
         destruct (Z.eqb_spec v 2); [contradiction|]; reflexivity).
Qed.

(** X2: [acceptOTRRequest] accepts version 3 (or 2) only when the query
    advertises it and the policy allows it, always reports [true] together
    with a version, and reports [false] exactly when no advertised version
    is allowed. *)
Theorem acceptOTRRequest_sound_complete `{PolicyBits} (p : Z) (msg : bytes) :
  match acceptOTRRequest p msg with
  | (Some otrV3, true) =>
      In 3 (parseOTRQueryMessage msg) /\ has p allowV3 = true
  | (Some otrV2, true) =>
      In 2 (parseOTRQueryMessage msg) /\ has p allowV2 = true
  | (None, false) =>
      Forall (fun v => ((v =? 3) && has p allowV3) || ((v =? 2) && has p allowV2)
                       = false) (parseOTRQueryMessage msg)
  | _ => False
  end.
Proof. unfold acceptOTRRequest. apply acceptVersions_spec. Qed.

(** X3: the query message that a conversation builds from its own policy,
    handed to [acceptOTRRequest] under the same policy, selects version 2
    whenever version 2 is allowed, version 3 only when version 3 alone is
    allowed, and nothing when neither is. *)
Theorem acceptOTRRequest_own_queryMessage `{PolicyBits} `{SmpTypes}
    (c : Conversation) :
  isQueryMessage (queryMessage c) = true
  /\ acceptOTRRequest (policies c) (queryMessage c)
     = if has (policies c) allowV2 then (Some otrV2, true)
       else if has (policies c) allowV3 then (Some otrV3, true)
       else (None, false).
Proof.
  unfold queryMessage, acceptOTRRequest, isQueryMessage.
  destruct (has (policies c) allowV2) eqn:H2, (has (policies c) allowV3) eqn:H3.
  - split; [reflexivity|].
    change (parseOTRQueryMessage _) with [2; 3]. simpl. rewrite H2.
    reflexivity.
  - split; [reflexivity|].
    change (parseOTRQueryMessage _) with [2]. simpl. rewrite H2. reflexivity.
  - split; [reflexivity|].
    change (parseOTRQueryMessage _) with [3]. simpl. rewrite H3. reflexivity.
  - split; reflexivity.
Qed.

(** ** The AKE: [extractGx] and [processDHKey] *)

(** X4: [extractGx] reports no error exactly when its input is one MPI, with
    nothing after it, whose value lies in [2, p-2]; the value is what it
    returns. *)
Theorem extractGx_ok_iff `{DHGroup} (decryptedGx : bytes) (gx : option Z) :
  extractGx decryptedGx = (gx, None)
  <-> exists v, gx = Some v
                /\ Wire.extractMPI decryptedGx = ([], Some v, true)
                /\ 2 <= v <= otrPrime - 2.
Proof.
  unfold extractGx, isGroupElement, g1, pMinusTwo. split.
  - destruct (Wire.extractMPI decryptedGx) as [[newData g] ok].
    destruct ok; simpl; [|discriminate].
    destruct newData; simpl; [|discriminate].
    destruct g as [v|]; [|discriminate].
    destruct (Z.leb_spec 2 v); simpl; [|discriminate].
    destruct (Z.leb_spec v (otrPrime - 2)); simpl; [|discriminate].
    intros [= <-]. exists v. auto with zarith.
  - intros (v & -> & -> & Hlo & Hhi). simpl.
    destruct (Z.leb_spec 2 v); [|lia].
    destruct (Z.leb_spec v (otrPrime - 2)); [|lia]. reflexivity.
Qed.

(** X5: whenever [processDHKey] returns an error, it reports [isSame =
    false] and has changed neither the heap nor the conversation. *)
Theorem processDHKey_error_keeps_state `{DHGroup} `{SmpTypes}
    (h h' : heap) (c c' : Conversation) (msg : bytes) (same : bool) (e : error) :
  processDHKey h c msg = Ret (h', c', same, Some e) ->
  h' = h /\ c' = c /\ same = false.
Proof.
  unfold processDHKey.
  destruct (dhKey_deserialize zeroDhKey msg) as [m [e0|]].
  - intros [= <- <- <- _]. auto.
  - destruct (dhKey_gy m) as [gy|]; [|discriminate].
    destruct (negb (isGroupElement gy)); [intros [= <- <- <- _]; auto|].
    destruct (conv_ake c) as [a|]; [|discriminate].
    destruct (theirPublicValue a) as [l|]; [discriminate|].
    unfold allocBigInt. discriminate.
Qed.

Lemma processDHKey_error_keeps_state_witness :
  @processDHKey otrGroup unitSmpTypes sampleHeap sampleConversation [x00; x01]
  = Ret (sampleHeap, sampleConversation, false,
         Some (errorsNew "otr: corrupt DH key message"))
  /\ (sampleHeap = sampleHeap /\ sampleConversation = sampleConversation
      /\ false = false).
Proof.
  assert (Hp : @processDHKey otrGroup unitSmpTypes sampleHeap sampleConversation
                 [x00; x01]
               = Ret (sampleHeap, sampleConversation, false,
                      Some (errorsNew "otr: corrupt DH key message")))
    by reflexivity.
  split; [exact Hp|].
  exact (@processDHKey_error_keeps_state otrGroup unitSmpTypes _ _ _ _ _ _ _ Hp).
Defined.

Lemma processDHKey_group_element `{DHGroup} `{SmpTypes}
    (h : heap) (c : Conversation) (a : ake) (msg rest : bytes) (gy : Z) :
  conv_ake c = Some a ->
  Wire.extractMPI msg = (rest, Some gy, true) ->
  2 <= gy <= otrPrime - 2 ->
  processDHKey h c msg
  = match theirPublicValue a with
    | Some l => Ret (h, c, BigInt.eq (h !!! l) gy, None)
    | None =>
        Ret (<[fresh (dom h) := gy]> h,
             set_ake c (Some (set_theirPublicValue a (Some (fresh (dom h))))),
             false, None)
    end.
Proof.
  intros Ha Hm [Hlo Hhi]. unfold processDHKey, dhKey_deserialize.
  rewrite Hm. unfold BigInt.lt, BigInt.gt, g1, pMinusTwo.
  destruct (Z.ltb_spec gy 2); [lia|]. rewrite Z.gtb_ltb.
  destruct (Z.ltb_spec (otrPrime - 2) gy); [lia|]. simpl.
  unfold isGroupElement, g1, pMinusTwo.
  destruct (Z.leb_spec 2 gy); [|lia].
  destruct (Z.leb_spec gy (otrPrime - 2)); [|lia]. simpl.
  rewrite Ha. destruct (theirPublicValue a); reflexivity.
Qed.

(** X6: a DH-Key message that carries a group element, received while no
    public value is stored, stores it and reports [isSame = false]; the same
    message received again reports [isSame = true] and changes nothing, so a
    retransmission is recognized. *)
Theorem processDHKey_retransmission `{DHGroup} `{SmpTypes}
    (h : heap) (c : Conversation) (a : ake) (msg rest : bytes) (gy : Z) :
  conv_ake c = Some a ->
  theirPublicValue a = None ->
  Wire.extractMPI msg = (rest, Some gy, true) ->
  2 <= gy <= otrPrime - 2 ->
  exists h1 c1,
    processDHKey h c msg = Ret (h1, c1, false, None)
    /\ processDHKey h1 c1 msg = Ret (h1, c1, true, None).
Proof.
  intros Ha Hl Hm Hr.
  eexists _, _. split.
  - rewrite (processDHKey_group_element h c a msg rest gy Ha Hm Hr), Hl.
    reflexivity.
  - rewrite (processDHKey_group_element (<[fresh (dom h) := gy]> h)
               (set_ake c (Some (set_theirPublicValue a (Some (fresh (dom h))))))
               (set_theirPublicValue a (Some (fresh (dom h)))) msg rest gy
               eq_refl Hm Hr).
    simpl. rewrite lookup_total_insert_eq. unfold BigInt.eq.
    rewrite Z.eqb_refl. reflexivity.
Qed.

Lemma processDHKey_retransmission_witness :
  (conv_ake awaitingDHKeyConversation
   = Some (set_ake_state (set_theirPublicValue sampleAke None)
             authStateAwaitingDHKey)
   /\ theirPublicValue (set_ake_state (set_theirPublicValue sampleAke None)
                          authStateAwaitingDHKey) = None
   /\ Wire.extractMPI [x00; x00; x00; x01; x09] = ([], Some 9, true)
   /\ 2 <= 9 <= @otrPrime otrGroup - 2)
  /\ exists h1 c1,
       @processDHKey otrGroup unitSmpTypes sampleHeap awaitingDHKeyConversation
         [x00; x00; x00; x01; x09] = Ret (h1, c1, false, None)
       /\ @processDHKey otrGroup unitSmpTypes h1 c1 [x00; x00; x00; x01; x09]
          = Ret (h1, c1, true, None).
Proof.
  assert (Hr : 2 <= 9 <= @otrPrime otrGroup - 2) by (simpl; lia).
  split; [repeat split; try reflexivity; apply Hr|].
  exact (@processDHKey_retransmission otrGroup unitSmpTypes sampleHeap
           awaitingDHKeyConversation _ [x00; x00; x00; x01; x09] [] 9
           eq_refl eq_refl eq_refl Hr).
Defined.

(** ** Ending a conversation, again *)

Lemma wipeBigInt_id (k : option loc) (h : heap) :
  bigIntIsZero h k -> wipeBigInt k h = h.
Proof. destruct k as [l|]; simpl; [apply insert_id | reflexivity]. Qed.

Lemma dhKeyPair_wipe_id (p : dhKeyPair) (h : heap) :
  dhKeyPairIsZero h p -> dhKeyPair_wipe p h = h.
Proof.
  intros [Hpub Hpriv]. unfold dhKeyPair_wipe.
  rewrite (wipeBigInt_id (pub p)) by exact Hpub.
  apply wipeBigInt_id. exact Hpriv.
Qed.

(** X7: after [End] the conversation is not encrypted, and [End] is
    idempotent: a second call, right after the first, returns no message, no
    error and no event, and leaves the heap and the conversation as the
    first call left them. *)
Theorem End_idempotent `{ConversationOps} (h : heap) (c : Conversation) :
  IsEncrypted (snd (fst (fst (fst (End h c))))) = false
  /\ End (fst (fst (fst (fst (End h c))))) (snd (fst (fst (fst (End h c)))))
     = (fst (fst (fst (fst (End h c)))), snd (fst (fst (fst (End h c)))),
        [], None, []).
Proof.
  destruct (End h c) as [[[[h4 c2] ts] er] evs] eqn:HE. cbn [fst snd].
  assert (Hz : conv_msgState c2 = plainText /\ keysAreZero h4 (conv_keys c2)).
  { revert HE. unfold End.
    destruct (match conv_msgState c with
              | encrypted => _
              | _ => _
              end) as [[[h1 c1] toSend] err].
    intros [= <- <- _ _ _].
    split; [reflexivity | apply wipes_of_End_clear_keys]. }
  destruct Hz as (Hs & Hcur & Hprev & Hthem).
  split; [unfold IsEncrypted; rewrite Hs; reflexivity|].
  unfold End. rewrite Hs. cbn [conv_keys set_msgState].
  rewrite (dhKeyPair_wipe_id (ourCurrentDHKeys (conv_keys c2))) by exact Hcur.
  rewrite (dhKeyPair_wipe_id (ourPreviousDHKeys (conv_keys c2))) by exact Hprev.
  rewrite (wipeBigInt_id (theirCurrentDHPubKey (conv_keys c2))) by exact Hthem.
  destruct c2; simpl in *; subst; reflexivity.
Qed.

Lemma wipeBigInt_lookup (k : option loc) (l : loc) (h : heap) :
  wipeBigInt k h !! l = if decide (k = Some l) then Some 0 else h !! l.
Proof.
  destruct k as [l'|]; cbn [wipeBigInt].
  - rewrite lookup_insert.
    destruct (decide (l' = l)) as [->|Hne]; destruct (decide (_ = Some l));
      congruence.
  - destruct (decide (None = Some l)); [discriminate | reflexivity].
Qed.

(** X8: on a conversation that is not encrypted, [End] wipes exactly the
    integers that the key-management context points to: each of them reads
    zero afterwards, through whatever pointer (so an AKE field that shares
    the integer reads zero too), and every other integer on the heap keeps
    its value. *)
Theorem End_wipes_exactly_key_pointers `{ConversationOps}
    (h : heap) (c : Conversation) (l : loc) :
  conv_msgState c <> encrypted ->
  (In (Some l) (keyPointers (conv_keys c)) ->
   fst (fst (fst (fst (End h c)))) !! l = Some 0)
  /\ (~ In (Some l) (keyPointers (conv_keys c)) ->
      fst (fst (fst (fst (End h c)))) !! l = h !! l).
Proof.
  intros Hs.
  assert (Hh : fst (fst (fst (fst (End h c))))
               = wipeBigInt (theirCurrentDHPubKey (conv_keys c))
                   (dhKeyPair_wipe (ourPreviousDHKeys (conv_keys c))
                      (dhKeyPair_wipe (ourCurrentDHKeys (conv_keys c)) h))).
  { unfold End. destruct (conv_msgState c); try contradiction; reflexivity. }
  rewrite Hh. unfold dhKeyPair_wipe, keyPointers.
  rewrite !wipeBigInt_lookup. simpl.
  repeat case_decide; split; intros Hin; try reflexivity;
    exfalso; tauto.
Qed.

Lemma End_wipes_exactly_key_pointers_witness :
  conv_msgState keyedConversation <> encrypted
  /\ In (Some 1%positive) (keyPointers (conv_keys keyedConversation))
  /\ secretExponent sampleAke = Some 1%positive
  /\ fst (fst (fst (fst (@End unitSmpTypes unitConversationOps sampleHeap
                           keyedConversation)))) !! 1%positive = Some 0.
Proof.
  assert (Hs : conv_msgState keyedConversation <> encrypted) by discriminate.
  assert (Hin : In (Some 1%positive) (keyPointers (conv_keys keyedConversation)))
    by (right; left; reflexivity).
  split; [exact Hs|]. split; [exact Hin|]. split; [reflexivity|].
  exact (proj1 (@End_wipes_exactly_key_pointers unitSmpTypes unitConversationOps
                  sampleHeap keyedConversation 1%positive Hs) Hin).
Defined.

(** ** The SMP state machine, again *)

(** X9: whenever the step function returns an error, in any state and for
    any message, the stored state is [smpStateExpect1] and the message it
    produced is the abort message; [receiveSMP] then returns the error and
    nothing to send, so the abort message is not sent. *)
Theorem smp_error_resets `{SmpOps} (c c' : conversation) (m : smpMessage)
    (ret : option smpMessage) (e : error) :
  receivedMessage m c = (c', ret, Some e) ->
  smp_state (conversation_smp c') = smpStateExpect1
  /\ ret = Some smpMessageAbort
  /\ receiveSMP c m = (c', None, Some e).
Proof.
  intros Hstep. unfold receiveSMP. rewrite Hstep.
  split; [|split; [|reflexivity]]; revert Hstep;
    unfold receivedMessage, receiveMessage1, receiveMessage2, receiveMessage3,
      receiveMessage4, abortStateMachine, abortStateMachineWith;
    destruct m as [m1|m2|m3|m4|]; destruct (smp_state (conversation_smp c));
    repeat destruct_innermost_match;
    simpl; intros [= <- <- <-] || intros [= <- <-] || discriminate;
    reflexivity.
Qed.

Lemma smp_error_resets_witness :
  @receivedMessage unitSmpTypes shortRandomSmpOps (@smpMessage1 unitSmpTypes tt)
    expect1Conversation
  = (expect1Conversation, Some smpMessageAbort, Some errShortRandomRead)
  /\ (smp_state (conversation_smp expect1Conversation) = smpStateExpect1
      /\ Some (@smpMessageAbort unitSmpTypes) = Some smpMessageAbort
      /\ @receiveSMP unitSmpTypes shortRandomSmpOps expect1Conversation
           (@smpMessage1 unitSmpTypes tt)
         = (expect1Conversation, None, Some errShortRandomRead)).
Proof.
  assert (Hs : @receivedMessage unitSmpTypes shortRandomSmpOps
                 (@smpMessage1 unitSmpTypes tt) expect1Conversation
               = (expect1Conversation, Some smpMessageAbort,
                  Some errShortRandomRead)) by reflexivity.
  split; [exact Hs|].
  exact (@smp_error_resets unitSmpTypes shortRandomSmpOps _ _ _ _ _ Hs).
Defined.

(** X10: no received message, in no state and whatever the checks and
    generators do, leaves the machine in [smpStateExpect2]: after a step the
    state is [smpStateExpect1], [smpStateExpect3] or [smpStateExpect4]. *)
Theorem smp_step_never_expect2 `{SmpOps} (c : conversation) (m : smpMessage) :
  smp_state (conversation_smp (fst (fst (receivedMessage m c))))
  <> smpStateExpect2.
Proof.
  unfold receivedMessage, receiveMessage1, receiveMessage2, receiveMessage3,
    receiveMessage4, abortStateMachine, abortStateMachineWith.
  destruct m as [m1|m2|m3|m4|]; destruct (smp_state (conversation_smp c));
    repeat destruct_innermost_match;
    simpl; discriminate.
Qed.

(** ** The header of a version 3 message *)

Lemma extractWord_ok (d : bytes) :
  (4 <= length d)%nat ->
  Wire.extractWord d = (drop 4 d, beUint (take 4 d), true).
Proof.
  destruct d as [|b0 [|b1 [|b2 [|b3 rest]]]]; simpl; intros Hl; try lia.
  reflexivity.
Qed.

Lemma otrV3_parseMessageHeader_unfold `{SmpTypes} (c : Conversation)
    (msg : bytes) :
  (11 <= length msg)%nat ->
  otrV3_parseMessageHeader c msg
  = let s := headerSenderTag msg in
    let r := headerReceiverTag msg in
    let c2 := set_instanceTags c
                (if ourInstanceTag c =? 0 then generateInstanceTag
                 else ourInstanceTag c)
                (if theirInstanceTag c =? 0 then s else theirInstanceTag c) in
    if (0 <? r) && (r <? 0x100) then (c2, None, Some errInvalidOTRMessage)
    else if s <? 0x100 then (c2, None, Some errInvalidOTRMessage)
    else if negb (r =? 0) && negb (ourInstanceTag c2 =? r)
    then (c2, None, Some errReceivedMessageForOtherInstance)
    else if (0x100 <=? s) && negb (theirInstanceTag c2 =? s)
    then (c2, None, Some errReceivedMessageForOtherInstance)
    else (c2, Some (drop 11 msg), None).
Proof.
  intros Hl. unfold otrV3_parseMessageHeader, otrv3HeaderLen,
    messageHeaderPrefix, headerSenderTag, headerReceiverTag.
  destruct (Nat.ltb_spec (length msg) 11) as [|_]; [lia|].
  rewrite (extractWord_ok (drop 3 msg)) by (rewrite length_drop; lia).
  rewrite (extractWord_ok (drop 4 (drop 3 msg)))
    by (rewrite !length_drop; lia).
  rewrite !drop_drop. cbn [Nat.add].
  assert (Hc : forall c0 : Conversation,
             set_instanceTags c0 (ourInstanceTag c0) (theirInstanceTag c0) = c0)
    by (intros []; reflexivity).
  cbv zeta.
  destruct (ourInstanceTag c =? 0) eqn:Ho, (theirInstanceTag c =? 0) eqn:Ht;
    cbn [theirInstanceTag ourInstanceTag set_instanceTags];
    rewrite ?Ht, ?Ho; cbn [theirInstanceTag ourInstanceTag set_instanceTags];
    rewrite ?Hc; reflexivity.
Qed.

(** X11: when [parseMessageHeader] accepts a message, the message has at
    least 11 bytes, what is returned is the message without its first 11
    bytes, the sender tag is at least 0x100 and is the conversation's
    their-tag afterwards, and the receiver tag is 0 or the conversation's
    own tag. *)
Theorem otrV3_parseMessageHeader_accepts `{SmpTypes}
    (c c' : Conversation) (msg payload : bytes) :
  otrV3_parseMessageHeader c msg = (c', Some payload, None) ->
  (11 <= length msg)%nat
  /\ payload = drop 11 msg
  /\ 0x100 <= headerSenderTag msg
  /\ theirInstanceTag c' = headerSenderTag msg
  /\ (headerReceiverTag msg = 0 \/ headerReceiverTag msg = ourInstanceTag c')
  /\ ourInstanceTag c'
     = (if ourInstanceTag c =? 0 then generateInstanceTag else ourInstanceTag c).
Proof.
  destruct (Nat.ltb_spec (length msg) 11) as [Hs|Hl].
  - unfold otrV3_parseMessageHeader, otrv3HeaderLen.
    destruct (Nat.ltb_spec (length msg) 11); [discriminate | lia].
  - rewrite (otrV3_parseMessageHeader_unfold c msg Hl). cbv zeta.
    set (s := headerSenderTag msg). set (r := headerReceiverTag msg).
    destruct ((0 <? r) && (r <? 256)); [discriminate|].
    destruct (Z.ltb_spec s 256); [discriminate|].
    cbn [ourInstanceTag theirInstanceTag set_instanceTags].
    destruct (Z.eqb_spec r 0) as [Hr|Hr]; cbn [negb andb].
    + destruct (Z.leb_spec 256 s); [|lia]. cbn [andb].
      match goal with
      | |- context [negb (?a =? s)] => destruct (Z.eqb_spec a s) as [Hts|]
      end; [|discriminate].
      cbn [negb]. intros [= <- <-]. cbn [ourInstanceTag theirInstanceTag].
      repeat split; auto.
    + match goal with
      | |- context [negb (?a =? r)] => destruct (Z.eqb_spec a r) as [Hor|]
      end; [|discriminate].
      cbn [negb]. destruct (Z.leb_spec 256 s); [|lia]. cbn [andb].
      match goal with
      | |- context [negb (?a =? s)] => destruct (Z.eqb_spec a s) as [Hts|]
      end; [|discriminate].
      cbn [negb]. intros [= <- <-]. cbn [ourInstanceTag theirInstanceTag].
      repeat split; auto.
Qed.

Lemma otrV3_parseMessageHeader_accepts_witness :
  @otrV3_parseMessageHeader unitSmpTypes plainConversation
    [x00; x03; x0a; x00; x00; x01; x02; x00; x00; x01; x01; xff]
  = (plainConversation, Some [xff], None)
  /\ headerSenderTag
       [x00; x03; x0a; x00; x00; x01; x02; x00; x00; x01; x01; xff] = 0x102
  /\ theirInstanceTag plainConversation = 0x102.
Proof.
  assert (Hp : @otrV3_parseMessageHeader unitSmpTypes plainConversation
                 [x00; x03; x0a; x00; x00; x01; x02; x00; x00; x01; x01; xff]
               = (plainConversation, Some [xff], None)) by reflexivity.
  split; [exact Hp|]. split; [reflexivity|].
  exact (proj1 (proj2 (proj2 (proj2
           (@otrV3_parseMessageHeader_accepts unitSmpTypes _ _ _ _ Hp))))).
Defined.

(** X12: [parseMessageHeader] never looks at the first three bytes of the
    message: the protocol version and the message type of the header do not
    influence what it returns or stores. *)
Theorem otrV3_parseMessageHeader_ignores_prefix `{SmpTypes}
    (c : Conversation) (p p' rest : bytes) :
  length p = 3%nat -> length p' = 3%nat ->
  otrV3_parseMessageHeader c (p ++ rest)
  = otrV3_parseMessageHeader c (p' ++ rest).
Proof.
  intros Hp Hp'. unfold otrV3_parseMessageHeader, messageHeaderPrefix.
  rewrite !length_app, Hp, Hp'.
  rewrite <- Hp at 2. rewrite drop_app_length.
  rewrite <- Hp' at 3. rewrite drop_app_length.
  reflexivity.
Qed.

Lemma otrV3_parseMessageHeader_ignores_prefix_witness :
  (length [x00; x03; x0a] = 3%nat /\ length [xff; xff; xff] = 3%nat)
  /\ @otrV3_parseMessageHeader unitSmpTypes plainConversation
       ([x00; x03; x0a] ++ [x00; x00; x01; x02; x00; x00; x01; x01; xff])
     = @otrV3_parseMessageHeader unitSmpTypes plainConversation
         ([xff; xff; xff] ++ [x00; x00; x01; x02; x00; x00; x01; x01; xff]).
Proof.
  split; [split; reflexivity|].
  exact (@otrV3_parseMessageHeader_ignores_prefix unitSmpTypes
           plainConversation [x00; x03; x0a] [xff; xff; xff]
           [x00; x00; x01; x02; x00; x00; x01; x01; xff] eq_refl eq_refl).
Defined.

(** X13: the tags are stored before they are checked.  On a conversation
    that knows no their-tag yet, a header with a sender tag between 1 and
    0xff is rejected as invalid, but that tag is stored as their-tag; from
    then on no header is accepted any more, whatever its tags. *)
Theorem otrV3_parseMessageHeader_stores_rejected_tag `{SmpTypes}
    (c : Conversation) (msg : bytes) :
  theirInstanceTag c = 0 ->
  (11 <= length msg)%nat ->
  0 < headerSenderTag msg < 0x100 ->
  snd (otrV3_parseMessageHeader c msg) = Some errInvalidOTRMessage
  /\ theirInstanceTag (fst (fst (otrV3_parseMessageHeader c msg)))
     = headerSenderTag msg
  /\ forall msg' : bytes,
       snd (otrV3_parseMessageHeader
              (fst (fst (otrV3_parseMessageHeader c msg))) msg') <> None.
Proof.
  intros Ht Hl Hs.
  rewrite (otrV3_parseMessageHeader_unfold c msg Hl). cbv zeta.
  set (s := headerSenderTag msg) in *. set (r := headerReceiverTag msg).
  rewrite Ht. cbn [Z.eqb].
  set (c2 := set_instanceTags c _ s).
  assert (Hc2 : theirInstanceTag c2 = s) by reflexivity.
  assert (Hres : (if (0 <? r) && (r <? 256)
                  then (c2, @None bytes, Some errInvalidOTRMessage)
                  else if s <? 256 then (c2, None, Some errInvalidOTRMessage)
                  else if negb (r =? 0) && negb (ourInstanceTag c2 =? r)
                  then (c2, None, Some errReceivedMessageForOtherInstance)
                  else if (256 <=? s) && negb (theirInstanceTag c2 =? s)
                  then (c2, None, Some errReceivedMessageForOtherInstance)
                  else (c2, Some (drop 11 msg), None))
                 = (c2, None, Some errInvalidOTRMessage)).
  { destruct ((0 <? r) && (r <? 256)); [reflexivity|].
    destruct (Z.ltb_spec s 256); [reflexivity | lia]. }
  rewrite Hres. cbn [fst snd].
  split; [reflexivity|]. split; [exact Hc2|].
  intros msg'.
  destruct (Nat.ltb_spec (length msg') 11) as [Hs'|Hl'].
  - unfold otrV3_parseMessageHeader, otrv3HeaderLen.
    destruct (Nat.ltb_spec (length msg') 11); [discriminate | lia].
  - rewrite (otrV3_parseMessageHeader_unfold c2 msg' Hl'). cbv zeta.
    set (s' := headerSenderTag msg'). set (r' := headerReceiverTag msg').
    rewrite Hc2. destruct (Z.eqb_spec s 0); [lia|].
    cbn [theirInstanceTag set_instanceTags].
    destruct ((0 <? r') && (r' <? 256)); [discriminate|].
    destruct (Z.ltb_spec s' 256); [discriminate|].
    destruct (negb (r' =? 0) && negb _); [discriminate|].
    destruct (Z.leb_spec 256 s'); [|lia].
    destruct (Z.eqb_spec s s'); [lia|]. discriminate.
Qed.

Lemma otrV3_parseMessageHeader_stores_rejected_tag_witness :
  (theirInstanceTag (set_instanceTags plainConversation 0x101 0) = 0
   /\ (11 <= length [x00; x03; x0a; x00; x00; x00; x05; x00; x00; x01; x01])%nat
   /\ 0 < headerSenderTag
            [x00; x03; x0a; x00; x00; x00; x05; x00; x00; x01; x01] < 0x100)
  /\ snd (@otrV3_parseMessageHeader unitSmpTypes
            (fst (fst (@otrV3_parseMessageHeader unitSmpTypes
                         (set_instanceTags plainConversation 0x101 0)
                         [x00; x03; x0a; x00; x00; x00; x05;
                          x00; x00; x01; x01])))
            [x00; x03; x0a; x00; x00; x01; x02; x00; x00; x01; x01; xff])
     <> None.
Proof.
  assert (Hs : 0 < headerSenderTag
                     [x00; x03; x0a; x00; x00; x00; x05; x00; x00; x01; x01]
               < 0x100) by (vm_compute; split; reflexivity).
  assert (Hl : (11 <= length [x00; x03; x0a; x00; x00; x00; x05;
                              x00; x00; x01; x01])%nat) by (simpl; lia).
  split; [split; [reflexivity | split; [exact Hl | exact Hs]]|].
  exact (proj2 (proj2 (@otrV3_parseMessageHeader_stores_rejected_tag
                         unitSmpTypes
                         (set_instanceTags plainConversation 0x101 0)
                         _ eq_refl Hl Hs)) _).
Defined.

(** ** Data messages, again *)

Lemma byteZ_byteOfZ (z : Z) : byteZ (byteOfZ z) = z mod 256.
Proof.
  unfold byteZ, byteOfZ.
  pose proof (Z.mod_pos_bound z 256 ltac:(lia)) as Hm.
  destruct (Byte.of_N (Z.to_N (z mod 256))) as [b|] eqn:Hb; simpl.
  - apply Byte.to_of_N in Hb. rewrite Hb. lia.
  - apply Byte.of_N_None_iff in Hb. lia.
Qed.

Lemma beUint_short (v : Z) :
  0 <= v < 65536 -> beUint [byteOfZ (v / 256); byteOfZ v] = v.
Proof.
  intros Hv. unfold beUint. simpl. rewrite !byteZ_byteOfZ.
  rewrite (Z.mod_small (v / 256)) by (split; [apply Z.div_pos; lia|
    apply Z.div_lt_upper_bound; lia]).
  pose proof (Z.div_mod v 256 ltac:(lia)). lia.
Qed.

Lemma serialize_fold_length (ts : list tlv) :
  (length ts
   <= length (fold_left
                (fun out t =>
                   appendShort (appendShort out (tlvType t)) (tlvLength t)
                   ++ tlvValue t) ts []))%nat.
Proof.
  induction ts as [|t ts IH]; cbn [fold_left]; [simpl; lia|].
  rewrite serialize_fold_app. unfold appendShort at 1 2.
  rewrite !length_app. simpl. lia.
Qed.

Lemma deserializeTLVs_serialized (ts : list tlv) :
  Forall tlvWellFormed ts ->
  forall (fuel : nat) (pre : bytes) (acc : list tlv),
    (length ts <= fuel)%nat ->
    deserializeTLVs fuel
      (pre ++ fold_left
                (fun out t =>
                   appendShort (appendShort out (tlvType t)) (tlvLength t)
                   ++ tlvValue t) ts [])
      (length pre) acc
    = Some (Ret (acc ++ ts, None)).
Proof.
  induction 1 as [|t ts (Hty & Hlen & Hlt) _ IH]; intros fuel pre acc Hf.
  - cbn [fold_left]. rewrite app_nil_r, app_nil_r.
    destruct fuel; simpl;
      destruct (Nat.ltb_spec (length pre) (length pre)); try lia; reflexivity.
  - destruct fuel as [|fuel]; [simpl in Hf; lia|].
    cbn [fold_left]. rewrite serialize_fold_app.
    set (rest := fold_left _ ts []).
    unfold appendShort. cbn [app].
    set (v := tlvValue t) in *.
    cbn [deserializeTLVs].
    rewrite !length_app. cbn [length]. rewrite !length_app.
    destruct (Nat.ltb_spec (length pre) (length pre + S (S (S (S (length v + length rest))))));
      [|lia].
    destruct (Nat.ltb_spec (length pre + S (S (S (S (length v + length rest)))))
                (length pre + 4)); [lia|].
    rewrite drop_app_length. cbn [take].
    replace (length pre + 2)%nat with (length (pre ++ [byteOfZ (tlvType t / 256);
                                                       byteOfZ (tlvType t)]))
      by (rewrite length_app; reflexivity).
    replace (pre ++ byteOfZ (tlvType t / 256) :: byteOfZ (tlvType t)
                 :: byteOfZ (tlvLength t / 256) :: byteOfZ (tlvLength t)
                 :: v ++ rest)
      with ((pre ++ [byteOfZ (tlvType t / 256); byteOfZ (tlvType t)])
              ++ byteOfZ (tlvLength t / 256) :: byteOfZ (tlvLength t)
                 :: v ++ rest)
      by (rewrite <- app_assoc; reflexivity).
    rewrite drop_app_length. cbn [take]. rewrite take_0.
    rewrite (beUint_short (tlvType t)) by exact Hty.
    rewrite (beUint_short (tlvLength t)) by lia.
    rewrite Hlen, Nat2Z.id.
    destruct (Nat.ltb_spec (length pre + S (S (S (S (length v + length rest)))))
                (length pre + 4 + length v)); [lia|].
    replace (length pre + 4 + length v - (length pre + 4))%nat
      with (length v) by lia.
    replace (length pre + 4)%nat
      with (length ((pre ++ [byteOfZ (tlvType t / 256); byteOfZ (tlvType t)])
                      ++ [byteOfZ (Z.of_nat (length v) / 256);
                          byteOfZ (Z.of_nat (length v))]))
      by (rewrite !length_app; simpl; lia).
    replace ((pre ++ [byteOfZ (tlvType t / 256); byteOfZ (tlvType t)])
               ++ byteOfZ (Z.of_nat (length v) / 256)
                  :: byteOfZ (Z.of_nat (length v)) :: v ++ rest)
      with (((pre ++ [byteOfZ (tlvType t / 256); byteOfZ (tlvType t)])
               ++ [byteOfZ (Z.of_nat (length v) / 256);
                   byteOfZ (Z.of_nat (length v))]) ++ v ++ rest)
      by (rewrite <- !app_assoc; reflexivity).
    rewrite drop_app_length, take_app_length.
    set (pre2 := (pre ++ _) ++ _).
    replace (length pre2 + length v)%nat with (length (pre2 ++ v))
      by (rewrite length_app; reflexivity).
    rewrite (app_assoc pre2 v rest).
    rewrite (IH fuel (pre2 ++ v)) by (simpl in Hf; lia).
    rewrite <- app_assoc. cbn [app].
    assert (Ht : {| tlvType := tlvType t;
                    tlvLength := Z.of_nat (length v);
                    tlvValue := v |} = t)
      by (rewrite <- Hlen; destruct t; reflexivity).
    rewrite Ht. reflexivity.
Qed.

(** X14: deserializing what [dataMsg.serialize] wrote, into a data message
    that already holds TLVs, appends the serialized TLVs to them, provided
    each serialized TLV is well formed (length field = length of the value,
    below 65536).  Into the zero value this is the round trip. *)
Theorem dataMsg_deserialize_serialize (c d : dataMsg) :
  Forall tlvWellFormed (tlvs d) ->
  dataMsg_deserialize c (dataMsg_serialize d)
  = Ret ({| nul := x00; tlvs := tlvs c ++ tlvs d |}, None).
Proof.
  intros Hwf. unfold dataMsg_serialize. rewrite serialize_fold_app.
  cbn [app]. unfold dataMsg_deserialize. cbn [Byte.eqb negb].
  change (Byte.eqb x00 x00) with true. cbn [negb].
  rewrite (deserializeTLVs_serialized (tlvs d) Hwf _ [] (tlvs c)); [reflexivity|].
  pose proof (serialize_fold_length (tlvs d)). lia.
Qed.

Lemma dataMsg_deserialize_serialize_witness :
  Forall tlvWellFormed
    [ {| tlvType := 1; tlvLength := 2; tlvValue := [xaa; xbb] |};
      {| tlvType := 6; tlvLength := 0; tlvValue := [] |} ]
  /\ dataMsg_deserialize zeroDataMsg
       (dataMsg_serialize
          {| nul := x00;
             tlvs := [ {| tlvType := 1; tlvLength := 2;
                          tlvValue := [xaa; xbb] |};
                       {| tlvType := 6; tlvLength := 0; tlvValue := [] |} ] |})
     = Ret ({| nul := x00;
               tlvs := [ {| tlvType := 1; tlvLength := 2;
                            tlvValue := [xaa; xbb] |};
                         {| tlvType := 6; tlvLength := 0; tlvValue := [] |} ] |},
            None).
Proof.
  assert (Hwf : Forall tlvWellFormed
                  [ {| tlvType := 1; tlvLength := 2; tlvValue := [xaa; xbb] |};
                    {| tlvType := 6; tlvLength := 0; tlvValue := [] |} ])
    by (repeat constructor; simpl; lia).
  split; [exact Hwf|].
  exact (dataMsg_deserialize_serialize zeroDataMsg
           {| nul := x00;
              tlvs := [ {| tlvType := 1; tlvLength := 2;
                           tlvValue := [xaa; xbb] |};
                        {| tlvType := 6; tlvLength := 0; tlvValue := [] |} ] |}
           Hwf).
Defined.

Lemma deserializeTLVs_short_value (fuel : nat) (a b c d : byte) (v : bytes)
    (acc : list tlv) :
  (length v < Z.to_nat (beUint [c; d]))%nat ->
  deserializeTLVs (S fuel) (a :: b :: c :: d :: v) 0 acc
  = Some (Ret (acc, Some (errorsNew "otr: wrong tlv length"))).
Proof.
  intros Hl. cbn [deserializeTLVs length drop take Nat.add]. rewrite take_0.
  repeat match goal with
         | |- context [Nat.ltb ?x ?y] =>
             destruct (Nat.ltb_spec x y); try lia; try reflexivity
         end.
Qed.

(** X15: a TLV whose length field is larger than its value does not come
    back: [serialize] writes the length field as it is and then the whole
    value, so the reader finds the input too short and reports a wrong TLV
    length. *)
Theorem dataMsg_serialize_long_length_field (t : tlv) :
  0 <= tlvType t < 65536 ->
  Z.of_nat (length (tlvValue t)) < tlvLength t < 65536 ->
  dataMsg_deserialize zeroDataMsg (dataMsg_serialize {| nul := x00; tlvs := [t] |})
  = Ret ({| nul := x00; tlvs := [] |}, Some (errorsNew "otr: wrong tlv length")).
Proof.
  intros Hty Hlen. unfold dataMsg_serialize, appendShort. cbn [tlvs fold_left app].
  unfold dataMsg_deserialize. change (Byte.eqb x00 x00) with true. cbn [negb].
  rewrite deserializeTLVs_short_value; [reflexivity|].
  rewrite (beUint_short (tlvLength t)) by lia. lia.
Qed.

Lemma dataMsg_serialize_long_length_field_witness :
  (0 <= 1 < 65536 /\ Z.of_nat (length [xaa]) < 2 < 65536)
  /\ dataMsg_deserialize zeroDataMsg
       (dataMsg_serialize
          {| nul := x00;
             tlvs := [{| tlvType := 1; tlvLength := 2; tlvValue := [xaa] |}] |})
     = Ret ({| nul := x00; tlvs := [] |},
            Some (errorsNew "otr: wrong tlv length")).
Proof.
  assert (Hty : 0 <= 1 < 65536) by lia.
  assert (Hlen : Z.of_nat (length [xaa]) < 2 < 65536) by (simpl; lia).
  split; [split; [exact Hty | exact Hlen]|].
  exact (dataMsg_serialize_long_length_field
           {| tlvType := 1; tlvLength := 2; tlvValue := [xaa] |} Hty Hlen).
Defined.

Lemma deserializeTLVs_wellFormed (fuel : nat) (tlvsBytes : bytes) (index : nat)
    (acc ts : list tlv) :
  deserializeTLVs fuel tlvsBytes index acc = Some (Ret (ts, None)) ->
  Forall tlvWellFormed acc -> Forall tlvWellFormed ts.
Proof.
  revert index acc. induction fuel as [|fuel IH]; intros index acc; simpl.
  - destruct (Nat.ltb_spec index (length tlvsBytes)); [discriminate|].
    intros [= <-] Hacc. exact Hacc.
  - destruct (Nat.ltb_spec index (length tlvsBytes)).
    2:{ intros [= <-] Hacc. exact Hacc. }
    destruct (Nat.ltb_spec (length tlvsBytes) (index + 4)); [discriminate|].
    destruct (take_two_drop tlvsBytes index) as (a & b & Hab & _); [lia|].
    destruct (take_two_drop tlvsBytes (index + 2)) as (c & d & Hcd & _); [lia|].
    rewrite Hab, Hcd.
    pose proof (beUint_two_range a b) as Hty.
    pose proof (beUint_two_range c d) as Hlen.
    set (len := Z.to_nat (beUint [c; d])) in *.
    destruct (Nat.ltb_spec (length tlvsBytes) (index + 4 + len)); [discriminate|].
    intros Hrec Hacc. apply IH in Hrec; [exact Hrec|].
    apply Forall_app. split; [exact Hacc|].
    constructor; [|constructor].
    unfold tlvWellFormed. cbn [tlvType tlvLength tlvValue].
    split; [exact Hty|]. split; [|lia].
    rewrite length_take, length_drop. lia.
Qed.

(** X16: what [dataMsg.deserialize] accepts without an error, it has read
    completely and consistently: each TLV it returns is well formed (its
    length field is the length of its value), the first byte is zero, and
    serializing the result gives the input back, byte for byte. *)
Theorem dataMsg_deserialize_ok_round_trip (msg : bytes) (d : dataMsg) :
  dataMsg_deserialize zeroDataMsg msg = Ret (d, None) ->
  nul d = x00
  /\ Forall tlvWellFormed (tlvs d)
  /\ dataMsg_serialize d = msg.
Proof.
  intros Hd. split; [|split].
  - revert Hd. unfold dataMsg_deserialize.
    destruct msg as [|b0 tlvsBytes]; [discriminate|].
    destruct (Byte.eqb b0 x00) eqn:Hb; cbn [negb]; [|discriminate].
    apply Byte.byte_dec_bl in Hb. subst b0.
    destruct (deserializeTLVs _ _ _ _) as [[[ts e]|s]|]; try discriminate.
    intros Heq. inversion Heq. reflexivity.
  - revert Hd. unfold dataMsg_deserialize.
    destruct msg as [|b0 tlvsBytes]; [discriminate|].
    destruct (Byte.eqb b0 x00); cbn [negb]; [|discriminate].
    change (tlvs zeroDataMsg) with (@nil tlv).
    destruct (deserializeTLVs (S (length tlvsBytes)) tlvsBytes 0 [])
      as [[[ts e]|s]|] eqn:Htl; try discriminate.
    intros Heq. inversion Heq; subst; clear Heq. cbn [tlvs].
    apply (deserializeTLVs_wellFormed _ _ _ _ _ Htl). constructor.
  - apply dataMsg_deserialize_tiles. exact Hd.
Qed.

Lemma dataMsg_deserialize_ok_round_trip_witness :
  dataMsg_deserialize zeroDataMsg [x00; x00; x01; x00; x02; xaa; xbb]
  = Ret ({| nul := x00;
            tlvs := [{| tlvType := 1; tlvLength := 2;
                        tlvValue := [xaa; xbb] |}] |}, None)
  /\ dataMsg_serialize
       {| nul := x00;
          tlvs := [{| tlvType := 1; tlvLength := 2; tlvValue := [xaa; xbb] |}] |}
     = [x00; x00; x01; x00; x02; xaa; xbb].
Proof.
  assert (Hd : dataMsg_deserialize zeroDataMsg
                 [x00; x00; x01; x00; x02; xaa; xbb]
               = Ret ({| nul := x00;
                         tlvs := [{| tlvType := 1; tlvLength := 2;
                                     tlvValue := [xaa; xbb] |}] |}, None))
    by reflexivity.
  split; [exact Hd|].
  exact (proj2 (proj2 (dataMsg_deserialize_ok_round_trip _ _ Hd))).
Defined.

(** ** Persistence of the AKE context, again *)

(** X17: [GobDecode] reports no error exactly when the buffer starts with
    three integers, a byte slice, a 32-byte array and two key bundles, in
    that order; anything that follows is ignored.  It then has set
    [encryptedGx], [hashedGx], [revealKey] and [sigKey] to the decoded
    values, reads the third integer through [theirPublicValue], and has left
    [r] as it was. *)
Theorem ake_GobDecode_ok_iff (h : heap) (c : ake) (buf : list gobValue) :
  snd (ake_GobDecode h c buf) = None
  <-> exists v1 v2 v3 egx hgx rk sk rest,
        buf = GobBigInt v1 :: GobBigInt v2 :: GobBigInt v3 :: GobBytes egx
              :: GobArray 32 hgx :: GobAkeKeys rk :: GobAkeKeys sk :: rest
        /\ ake_encryptedGx (snd (fst (ake_GobDecode h c buf))) = egx
        /\ ake_hashedGx (snd (fst (ake_GobDecode h c buf))) = hgx
        /\ revealKey (snd (fst (ake_GobDecode h c buf))) = rk
        /\ sigKey (snd (fst (ake_GobDecode h c buf))) = sk
        /\ readBigInt (fst (fst (ake_GobDecode h c buf)))
             (theirPublicValue (snd (fst (ake_GobDecode h c buf)))) = Some v3
        /\ ake_r (snd (fst (ake_GobDecode h c buf))) = ake_r c.
Proof.
  split.
  - unfold ake_GobDecode, gobDecodeBigInt, gobDecodeBytes, gobDecodeArray,
      gobDecodeAkeKeys, allocBigInt.
    destruct buf as [|[v1| | |] buf]; try discriminate.
    destruct (secretExponent c) as [l1|];
      (destruct buf as [|[v2| | |] buf]; try discriminate);
      (destruct (ourPublicValue c) as [l2|];
       (destruct buf as [|[v3| | |] buf]; try discriminate);
       (destruct (theirPublicValue c) as [l3|];
        (destruct buf as [|[| |egx|] buf]; try discriminate);
        (destruct buf as [|[|n hgx| |] buf]; try discriminate);
        (destruct (Nat.eqb_spec n 32) as [->|]; try discriminate);
        (destruct buf as [|[| | |rk] buf]; try discriminate);
        (destruct buf as [|[| | |sk] buf]; try discriminate);
        intros _; exists v1, v2, v3, egx, hgx, rk, sk, buf;
        cbn [fst snd ake_encryptedGx ake_hashedGx revealKey sigKey ake_r
             theirPublicValue readBigInt];
        repeat split; try reflexivity; apply lookup_insert_eq)).
  - intros (v1 & v2 & v3 & egx & hgx & rk & sk & rest & -> & _).
    unfold ake_GobDecode, gobDecodeBigInt, gobDecodeBytes, gobDecodeArray,
      gobDecodeAkeKeys, allocBigInt.
    destruct (secretExponent c), (ourPublicValue c), (theirPublicValue c);
      reflexivity.
Qed.

(** ** Writers and readers of the wire codec *)

Lemma beUint_fold (l : bytes) (a : Z) :
  fold_left (fun acc b => acc * 256 + byteZ b) l a
  = a * 256 ^ Z.of_nat (length l) + beUint l.
Proof.
  unfold beUint. revert a. induction l as [|b l IH]; intros a.
  - simpl. lia.
  - cbn [fold_left length]. rewrite (IH (a * 256 + byteZ b)).
    rewrite (IH (0 * 256 + byteZ b)).
    rewrite Nat2Z.inj_succ, Z.pow_succ_r by lia. lia.
Qed.

Lemma beUint_cons (b : byte) (l : bytes) :
  beUint (b :: l) = byteZ b * 256 ^ Z.of_nat (length l) + beUint l.
Proof.
  unfold beUint at 1. cbn [fold_left]. rewrite beUint_fold. lia.
Qed.

Lemma beUint_word (v : Z) :
  0 <= v < 4294967296 ->
  beUint [byteOfZ (v / 16777216); byteOfZ (v / 65536); byteOfZ (v / 256);
          byteOfZ v] = v.
Proof.
  intros Hv. unfold beUint. simpl. rewrite !byteZ_byteOfZ.
  pose proof (Z.div_mod v 256 ltac:(lia)).
  pose proof (Z.div_mod (v / 256) 256 ltac:(lia)).
  pose proof (Z.div_mod (v / 256 / 256) 256 ltac:(lia)).
  rewrite !Z.div_div in * by lia.
  change (256 * 256) with 65536 in *.
  change (65536 * 256) with 16777216 in *.
  assert (0 <= v / 16777216 < 256)
    by (split; [apply Z.div_pos; lia | apply Z.div_lt_upper_bound; lia]).
  rewrite (Z.mod_small (v / 16777216)) by lia.
  lia.
Qed.

Lemma appendWord_app (out : bytes) (v : Z) :
  appendWord out v = out ++ appendWord [] v.
Proof. reflexivity. Qed.

Lemma appendData_app (out d : bytes) :
  appendData out d = out ++ appendData [] d.
Proof. unfold appendData, appendWord. rewrite <- app_assoc. reflexivity. Qed.

Lemma extractWord_appendWord (v : Z) (rest : bytes) :
  0 <= v < 4294967296 ->
  Wire.extractWord (appendWord [] v ++ rest) = (rest, v, true).
Proof.
  intros Hv. unfold appendWord. cbn [app Wire.extractWord].
  rewrite beUint_word by exact Hv. reflexivity.
Qed.

Lemma extractData_appendData (d rest : bytes) :
  Z.of_nat (length d) < 4294967296 ->
  Wire.extractData (appendData [] d ++ rest) = (rest, d, true).
Proof.
  intros Hd. unfold Wire.extractData, appendData.
  rewrite <- app_assoc, extractWord_appendWord by lia.
  rewrite length_app. cbn [negb orb].
  destruct (Z.ltb_spec (Z.of_nat (length d + length rest))
              (Z.of_nat (length d))); [lia|].
  rewrite Nat2Z.id, drop_app_length, take_app_length. reflexivity.
Qed.

Lemma bigEndianBytes_value (fuel : nat) (v : Z) (acc : bytes) :
  0 <= v < 2 ^ Z.of_nat fuel ->
  beUint (bigEndianBytes fuel v acc)
  = v * 256 ^ Z.of_nat (length acc) + beUint acc.
Proof.
  revert v acc. induction fuel as [|fuel IH]; intros v acc Hv.
  - simpl in *. assert (v = 0) by lia. subst. lia.
  - cbn [bigEndianBytes]. destruct (Z.leb_spec v 0) as [Hz|Hp].
    + assert (v = 0) by lia. subst. lia.
    + rewrite Nat2Z.inj_succ, Z.pow_succ_r in Hv by lia.
      rewrite IH.
      2:{ split; [apply Z.div_pos; lia|].
          apply Z.div_lt_upper_bound; [lia|].
          pose proof (Z.pow_pos_nonneg 2 (Z.of_nat fuel) ltac:(lia) ltac:(lia)).
          lia. }
      rewrite beUint_cons, byteZ_byteOfZ. cbn [length].
      rewrite Nat2Z.inj_succ, Z.pow_succ_r by lia.
      pose proof (Z.div_mod v 256 ltac:(lia)).
      set (k := 256 ^ Z.of_nat (length acc)) in *.
      replace (v * k) with ((256 * (v / 256) + v mod 256) * k)
        by (f_equal; lia).
      lia.
Qed.

Lemma beUint_bigIntBytes (v : Z) : 0 <= v -> beUint (bigIntBytes v) = v.
Proof.
  intros Hv. unfold bigIntBytes. rewrite Z.abs_eq by exact Hv.
  rewrite bigEndianBytes_value.
  - simpl. unfold beUint. simpl. lia.
  - split; [exact Hv|].
    rewrite Nat2Z.inj_succ, Z2Nat.id by apply Z.log2_nonneg.
    destruct (Z.eq_dec v 0) as [->|Hne]; [simpl; lia|].
    apply Z.log2_spec. lia.
Qed.

Lemma extractMPI_appendData_bigIntBytes (v : Z) (rest : bytes) :
  0 <= v ->
  Z.of_nat (length (bigIntBytes v)) < 4294967296 ->
  Wire.extractMPI (appendData [] (bigIntBytes v) ++ rest) = (rest, Some v, true).
Proof.
  intros Hv Hl. unfold Wire.extractMPI, appendData.
  rewrite <- app_assoc, extractWord_appendWord by lia.
  rewrite length_app. cbn [negb orb].
  destruct (Z.ltb_spec (Z.of_nat (length (bigIntBytes v) + length rest))
              (Z.of_nat (length (bigIntBytes v)))); [lia|].
  rewrite Nat2Z.id, drop_app_length, take_app_length.
  rewrite beUint_bigIntBytes by exact Hv. reflexivity.
Qed.

Lemma appendShort_length (out : bytes) (v : Z) :
  length (appendShort out v) = (length out + 2)%nat.
Proof. unfold appendShort. rewrite length_app. reflexivity. Qed.

Lemma appendWord_length (out : bytes) (v : Z) :
  length (appendWord out v) = (length out + 4)%nat.
Proof. unfold appendWord. rewrite length_app. reflexivity. Qed.

(** The header that the [serialize] methods write has the length that
    [needInstanceTag] decides. *)
Lemma serialize_header_drop (m : dhMessage) (t : byte) (body : bytes) :
  drop (if needInstanceTag m then 11 else 3)%nat
    ((if needInstanceTag m
      then appendWord (appendWord (appendShort [] (protocolVersion m) ++ [t])
                         (senderInstanceTag m)) (receiverInstanceTag m)
      else appendShort [] (protocolVersion m) ++ [t]) ++ body)
  = body.
Proof. destruct (needInstanceTag m); reflexivity. Qed.

Lemma bytesEqb_eq (x y : bytes) : bytesEqb x y = true <-> x = y.
Proof.
  revert y. induction x as [|a x IH]; intros [|b y]; simpl;
    try (split; [discriminate | discriminate]); [tauto|].
  rewrite andb_true_iff, IH. split.
  - intros [Hab ->]. apply Byte.byte_dec_bl in Hab. subst. reflexivity.
  - intros [= -> ->]. split; [apply Byte.byte_dec_lb|]; reflexivity.
Qed.

Lemma bytesEqb_refl (x : bytes) : bytesEqb x x = true.
Proof. apply bytesEqb_eq. reflexivity. Qed.

(** X18: a DH-Key message whose [gy] lies in [2, p-2] survives the wire:
    [serialize] does not panic, and what follows the header that it wrote
    deserializes, into the zero value, to a message with the same [gy].  The
    fields of the header are not read back. *)
Theorem dhKey_serialize_deserialize `{DHGroup} (m : dhKey) (gy : Z) :
  dhKey_gy m = Some gy ->
  2 <= gy <= otrPrime - 2 ->
  Z.of_nat (length (bigIntBytes gy)) < 4294967296 ->
  exists out,
    dhKey_serialize m = Ret out
    /\ dhKey_deserialize zeroDhKey
         (drop (dhMessage_headerLen (dhKey_dhMessage m)) out)
       = ({| dhKey_dhMessage := zeroDhMessage; dhKey_gy := Some gy |}, None).
Proof.
  intros Hgy [Hlo Hhi] Hl. unfold dhKey_serialize, appendMPI. rewrite Hgy.
  eexists. split; [reflexivity|].
  rewrite appendData_app. unfold dhMessage_headerLen.
  rewrite serialize_header_drop.
  unfold dhKey_deserialize.
  rewrite <- (app_nil_r (appendData [] (bigIntBytes gy))).
  rewrite extractMPI_appendData_bigIntBytes by lia.
  unfold BigInt.lt, BigInt.gt, g1, pMinusTwo.
  destruct (Z.ltb_spec gy 2); [lia|]. rewrite Z.gtb_ltb.
  destruct (Z.ltb_spec (otrPrime - 2) gy); [lia|]. reflexivity.
Qed.

Lemma dhKey_serialize_deserialize_witness :
  (dhKey_gy {| dhKey_dhMessage :=
                 {| protocolVersion := 3; needInstanceTag := true;
                    senderInstanceTag := 0x101;
                    receiverInstanceTag := 0x102 |};
               dhKey_gy := Some 0x1234 |} = Some 0x1234
   /\ 2 <= 0x1234 <= @otrPrime otrGroup - 2
   /\ Z.of_nat (length (bigIntBytes 0x1234)) < 4294967296)
  /\ exists out,
       dhKey_serialize
         {| dhKey_dhMessage :=
              {| protocolVersion := 3; needInstanceTag := true;
                 senderInstanceTag := 0x101; receiverInstanceTag := 0x102 |};
            dhKey_gy := Some 0x1234 |} = Ret out
       /\ @dhKey_deserialize otrGroup zeroDhKey (drop 11 out)
          = ({| dhKey_dhMessage := zeroDhMessage; dhKey_gy := Some 0x1234 |},
             None).
Proof.
  assert (Hr : 2 <= 0x1234 <= @otrPrime otrGroup - 2) by (simpl; lia).
  assert (Hl : Z.of_nat (length (bigIntBytes 0x1234)) < 4294967296)
    by (vm_compute; reflexivity).
  split; [split; [reflexivity | split; [exact Hr | exact Hl]]|].
  exact (@dhKey_serialize_deserialize otrGroup
           {| dhKey_dhMessage :=
                {| protocolVersion := 3; needInstanceTag := true;
                   senderInstanceTag := 0x101; receiverInstanceTag := 0x102 |};
              dhKey_gy := Some 0x1234 |} 0x1234 eq_refl Hr Hl).
Defined.

(** X19: the DH-Key leg of the key exchange.  What [serializeDHKey] writes
    for a side whose public value lies in [2, p-2], handed without its
    3-byte header to the [processDHKey] of a peer that holds no public value
    yet, is accepted as new ([isSame = false]) and leaves the peer's
    [theirPublicValue] pointing to an integer with the sender's public
    value. *)
Theorem serializeDHKey_processDHKey `{DHGroup} `{SmpTypes}
    (hb ha : heap) (bob alice : Conversation) (b a : ake) (l : loc) (gy : Z) :
  conv_ake bob = Some b ->
  ourPublicValue b = Some l ->
  hb !! l = Some gy ->
  2 <= gy <= otrPrime - 2 ->
  Z.of_nat (length (bigIntBytes gy)) < 4294967296 ->
  conv_ake alice = Some a ->
  theirPublicValue a = None ->
  exists out ha' alice' a',
    serializeDHKey hb bob = Ret out
    /\ processDHKey ha alice (drop 3 out) = Ret (ha', alice', false, None)
    /\ conv_ake alice' = Some a'
    /\ readBigInt ha' (theirPublicValue a') = Some gy.
Proof.
  intros Hb Hl Hgy Hr Hlen Ha Ht.
  unfold serializeDHKey, dhKey_serialize, appendMPI. rewrite Hb, Hl.
  cbn [option_map dhKey_gy dhKey_dhMessage needInstanceTag zeroDhMessage].
  rewrite (lookup_total_correct _ _ _ Hgy).
  eexists _, _, _, _. split; [reflexivity|].
  rewrite appendData_app. unfold appendShort at 1. cbn [app drop].
  rewrite drop_0.
  rewrite (processDHKey_group_element ha alice a _ [] gy Ha).
  - rewrite Ht. split; [reflexivity|]. split; [reflexivity|].
    cbn [theirPublicValue set_theirPublicValue readBigInt].
    apply lookup_insert_eq.
  - rewrite <- (app_nil_r (appendData [] (bigIntBytes gy))).
    apply extractMPI_appendData_bigIntBytes; lia.
  - exact Hr.
Qed.

Lemma serializeDHKey_processDHKey_witness :
  exists out ha' alice' a',
    @serializeDHKey unitSmpTypes sampleHeap sampleConversation = Ret out
    /\ @processDHKey otrGroup unitSmpTypes sampleHeap awaitingDHKeyConversation
         (drop 3 out) = Ret (ha', alice', false, None)
    /\ conv_ake alice' = Some a'
    /\ readBigInt ha' (theirPublicValue a') = Some 32.
Proof.
  assert (Hr : 2 <= 32 <= @otrPrime otrGroup - 2) by (simpl; lia).
  assert (Hlen : Z.of_nat (length (bigIntBytes 32)) < 4294967296)
    by (vm_compute; reflexivity).
  exact (@serializeDHKey_processDHKey otrGroup unitSmpTypes sampleHeap
           sampleHeap sampleConversation awaitingDHKeyConversation sampleAke
           (set_ake_state (set_theirPublicValue sampleAke None)
              authStateAwaitingDHKey)
           2%positive 32 eq_refl eq_refl eq_refl Hr Hlen eq_refl eq_refl).
Defined.

(** X20: a header written by [messageHeader] on one side is accepted by
    [parseMessageHeader] on the side it is addressed to: when the writer's
    own tag is a valid tag, its their-tag is unset or the reader's own tag,
    and the reader knows no their-tag yet or knows the writer's, the reader
    gets the payload back and holds the writer's tag as their-tag. *)
Theorem otrV3_messageHeader_parseMessageHeader `{SmpTypes}
    (a b : Conversation) (msgType : byte) (payload : bytes) :
  0x100 <= ourInstanceTag a < 4294967296 ->
  theirInstanceTag a = 0
  \/ (theirInstanceTag a = ourInstanceTag b
      /\ 0x100 <= ourInstanceTag b < 4294967296) ->
  theirInstanceTag b = 0 \/ theirInstanceTag b = ourInstanceTag a ->
  otrV3_parseMessageHeader b (otrV3_messageHeader a msgType ++ payload)
  = (set_instanceTags b
       (if ourInstanceTag b =? 0 then generateInstanceTag else ourInstanceTag b)
       (ourInstanceTag a),
     Some payload, None).
Proof.
  intros Ha Hab Hb.
  assert (Hta : 0 <= theirInstanceTag a < 4294967296)
    by (destruct Hab as [->|[-> ?]]; lia).
  rewrite otrV3_parseMessageHeader_unfold.
  2:{ unfold otrV3_messageHeader. rewrite length_app, !appendWord_length,
        length_app, appendShort_length. simpl. lia. }
  assert (Hs : headerSenderTag (otrV3_messageHeader a msgType ++ payload)
               = ourInstanceTag a).
  { unfold headerSenderTag, otrV3_messageHeader, appendWord, appendShort.
    cbn [app drop take]. apply beUint_word. lia. }
  assert (Hr : headerReceiverTag (otrV3_messageHeader a msgType ++ payload)
               = theirInstanceTag a).
  { unfold headerReceiverTag, otrV3_messageHeader, appendWord, appendShort.
    cbn [app drop take]. apply beUint_word. lia. }
  assert (Hp : drop 11 (otrV3_messageHeader a msgType ++ payload) = payload)
    by reflexivity.
  rewrite Hs, Hr, Hp. cbv zeta.
  cbn [ourInstanceTag theirInstanceTag set_instanceTags].
  assert (Hthem : (if theirInstanceTag b =? 0 then ourInstanceTag a
                   else theirInstanceTag b) = ourInstanceTag a).
  { destruct Hb as [->| ->]; [reflexivity|].
    destruct (Z.eqb_spec (ourInstanceTag a) 0); [lia | reflexivity]. }
  rewrite Hthem, Z.eqb_refl.
  destruct (Z.ltb_spec (ourInstanceTag a) 256); [lia|].
  destruct (Z.leb_spec 256 (ourInstanceTag a)); [|lia].
  cbn [negb andb].
  destruct Hab as [Hz|[Heq Hrb]].
  - rewrite Hz. reflexivity.
  - rewrite Heq.
    destruct (Z.ltb_spec 0 (ourInstanceTag b)); [|lia].
    destruct (Z.ltb_spec (ourInstanceTag b) 256); [lia|].
    destruct (Z.eqb_spec (ourInstanceTag b) 0); [lia|].
    rewrite Z.eqb_refl. reflexivity.
Qed.

Lemma otrV3_messageHeader_parseMessageHeader_witness :
  (0x100 <= ourInstanceTag (set_instanceTags plainConversation 0x102 0x101)
   < 4294967296
   /\ (theirInstanceTag (set_instanceTags plainConversation 0x102 0x101) = 0
       \/ (theirInstanceTag (set_instanceTags plainConversation 0x102 0x101)
           = ourInstanceTag plainConversation
           /\ 0x100 <= ourInstanceTag plainConversation < 4294967296))
   /\ (theirInstanceTag plainConversation = 0
       \/ theirInstanceTag plainConversation
          = ourInstanceTag (set_instanceTags plainConversation 0x102 0x101)))
  /\ @otrV3_parseMessageHeader unitSmpTypes plainConversation
       (otrV3_messageHeader (set_instanceTags plainConversation 0x102 0x101)
          msgTypeDHKey ++ [xaa; xbb])
     = (plainConversation, Some [xaa; xbb], None).
Proof.
  assert (Ha : 0x100 <= ourInstanceTag
                          (set_instanceTags plainConversation 0x102 0x101)
               < 4294967296) by (simpl; lia).
  assert (Hab : theirInstanceTag
                  (set_instanceTags plainConversation 0x102 0x101) = 0
                \/ (theirInstanceTag
                      (set_instanceTags plainConversation 0x102 0x101)
                    = ourInstanceTag plainConversation
                    /\ 0x100 <= ourInstanceTag plainConversation < 4294967296))
    by (right; simpl; lia).
  assert (Hb : theirInstanceTag plainConversation = 0
               \/ theirInstanceTag plainConversation
                  = ourInstanceTag
                      (set_instanceTags plainConversation 0x102 0x101))
    by (right; reflexivity).
  split; [split; [exact Ha | split; [exact Hab | exact Hb]]|].
  exact (@otrV3_messageHeader_parseMessageHeader unitSmpTypes
           (set_instanceTags plainConversation 0x102 0x101) plainConversation
           msgTypeDHKey [xaa; xbb] Ha Hab Hb).
Defined.

(** X21: [dhCommit.deserialize] takes any two DATA fields: what follows the
    second one is ignored, and the length of the hash is not checked: the
    first 32 bytes of a longer one are kept, a shorter one overwrites only
    the front of [hashedGx]. *)
Theorem dhCommit_deserialize_accepts (c : dhCommit)
    (encGx h rest : bytes) :
  Z.of_nat (length encGx) < 4294967296 ->
  Z.of_nat (length h) < 4294967296 ->
  dhCommit_deserialize c (appendData (appendData [] encGx) h ++ rest)
  = ({| dhCommit_dhMessage := dhCommit_dhMessage c;
        dhCommit_gx := dhCommit_gx c;
        dhCommit_encryptedGx := encGx;
        dhCommit_hashedGx :=
          take (length (dhCommit_hashedGx c)) h
          ++ drop (length h) (dhCommit_hashedGx c) |}, None).
Proof.
  intros He Hh. unfold dhCommit_deserialize.
  rewrite (appendData_app (appendData [] encGx) h), <- !app_assoc.
  rewrite extractData_appendData by exact He.
  rewrite extractData_appendData by exact Hh.
  reflexivity.
Qed.

Lemma dhCommit_deserialize_accepts_witness :
  (Z.of_nat (length [xaa; xbb]) < 4294967296
   /\ Z.of_nat (length [x01; x02; x03]) < 4294967296)
  /\ dhCommit_deserialize zeroDhCommit
       (appendData (appendData [] [xaa; xbb]) [x01; x02; x03] ++ [xff])
     = ({| dhCommit_dhMessage := zeroDhMessage; dhCommit_gx := None;
           dhCommit_encryptedGx := [xaa; xbb];
           dhCommit_hashedGx := [x01; x02; x03] ++ replicate 29 x00 |}, None).
Proof.
  assert (He : Z.of_nat (length [xaa; xbb]) < 4294967296) by (simpl; lia).
  assert (Hh : Z.of_nat (length [x01; x02; x03]) < 4294967296) by (simpl; lia).
  split; [split; [exact He | exact Hh]|].
  exact (dhCommit_deserialize_accepts zeroDhCommit [xaa; xbb]
           [x01; x02; x03] [xff] He Hh).
Defined.

(** X22: whenever [processDHCommit] returns an error, the error is the
    corrupt-message error of the DH-Commit message and the conversation is
    unchanged. *)
Theorem processDHCommit_error_keeps_state `{SmpTypes}
    (c c' : Conversation) (msg : bytes) (e : error) :
  processDHCommit c msg = Ret (c', Some e) ->
  c' = c /\ e = errorsNew "otr: corrupt DH commit message".
Proof.
  unfold processDHCommit, dhCommit_deserialize.
  destruct (Wire.extractData msg) as [[msg1 encGx] ok1].
  destruct (Wire.extractData msg1) as [[rest h] ok2].
  destruct (negb ok1 || negb ok2).
  - intros [= <- <-]. auto.
  - destruct (conv_ake c); discriminate.
Qed.

Lemma processDHCommit_error_keeps_state_witness :
  @processDHCommit unitSmpTypes sampleConversation [x00; x00; x00; x05]
  = Ret (sampleConversation, Some (errorsNew "otr: corrupt DH commit message"))
  /\ (sampleConversation = sampleConversation
      /\ errorsNew "otr: corrupt DH commit message"
         = errorsNew "otr: corrupt DH commit message").
Proof.
  assert (Hp : @processDHCommit unitSmpTypes sampleConversation
                 [x00; x00; x00; x05]
               = Ret (sampleConversation,
                      Some (errorsNew "otr: corrupt DH commit message")))
    by reflexivity.
  split; [exact Hp|].
  exact (@processDHCommit_error_keeps_state unitSmpTypes _ _ _ _ Hp).
Defined.

(** X23: the commitment holds together.  What [serializeDHCommit] writes
    for a public value [gx] in [2, p-2], handed without its 3-byte header
    to the [processDHCommit] of the peer, stores the sender's
    [encryptedGx] and the hash of MPI(gx); when the peer later holds
    MPI(gx) as the decrypted value, [checkDecryptedGx] accepts it against
    the stored hash and [extractGx] returns [gx].  The hash is assumed to be
    32 bytes long and not all zero. *)
Theorem commit_then_reveal_consistent `{DHGroup} `{HashOps} `{SmpTypes}
    (bob alice : Conversation) (a b : ake) (gx : Z) :
  conv_ake bob = Some b ->
  conv_ake alice = Some a ->
  2 <= gx <= otrPrime - 2 ->
  Z.of_nat (length (bigIntBytes gx)) < 4294967296 ->
  Z.of_nat (length (ake_encryptedGx b)) < 4294967296 ->
  length (ake_hashedGx a) = 32%nat ->
  length (sha256_Sum256 (appendData [] (bigIntBytes gx))) = 32%nat ->
  sha256_Sum256 (appendData [] (bigIntBytes gx)) <> replicate 32 x00 ->
  exists out a',
    serializeDHCommit bob (Some gx) = Ret out
    /\ processDHCommit alice (drop 3 out) = Ret (set_ake alice (Some a'), None)
    /\ ake_encryptedGx a' = ake_encryptedGx b
    /\ ake_hashedGx a' = sha256_Sum256 (appendData [] (bigIntBytes gx))
    /\ checkDecryptedGx (appendData [] (bigIntBytes gx)) (ake_hashedGx a') = None
    /\ extractGx (appendData [] (bigIntBytes gx)) = (Some gx, None).
Proof.
  intros Hb Ha [Hlo Hhi] Hl Hle Hla Hls Hnz.
  set (hash := sha256_Sum256 (appendData [] (bigIntBytes gx))) in *.
  unfold serializeDHCommit, appendMPI. rewrite Hb.
  unfold dhCommit_serialize.
  cbn [dhCommit_hashedGx dhCommit_encryptedGx dhCommit_dhMessage
       needInstanceTag protocolVersion zeroDhMessage].
  fold hash.
  destruct (bytesEqb hash (replicate 32 x00)) eqn:Hz;
    [apply bytesEqb_eq in Hz; contradiction|].
  eexists _, (set_commitment a (ake_encryptedGx b) hash).
  split; [reflexivity|].
  split.
  { rewrite (appendData_app _ hash).
    rewrite (appendData_app _ (ake_encryptedGx b)).
    rewrite <- !app_assoc. unfold appendShort at 1. cbn [app drop].
    rewrite drop_0. unfold processDHCommit, dhCommit_deserialize.
    rewrite extractData_appendData by lia.
    rewrite <- (app_nil_r (appendData [] hash)).
    rewrite extractData_appendData by lia.
    cbn [negb orb]. rewrite Ha.
    cbn [dhCommit_encryptedGx dhCommit_hashedGx zeroDhCommit]. unfold copyInto.
    rewrite length_replicate, <- Hls, firstn_all.
    rewrite drop_ge by (rewrite length_replicate; lia).
    rewrite app_nil_r. reflexivity. }
  split; [reflexivity|]. split; [reflexivity|].
  split.
  { unfold checkDecryptedGx, constantTimeCompare.
    cbn [ake_hashedGx set_commitment]. fold hash.
    rewrite bytesEqb_refl. reflexivity. }
  unfold extractGx.
  rewrite <- (app_nil_r (appendData [] (bigIntBytes gx))).
  rewrite extractMPI_appendData_bigIntBytes by lia.
  cbn [negb orb length Nat.ltb Nat.leb].
  unfold isGroupElement, g1, pMinusTwo.
  destruct (Z.leb_spec 2 gx); [|lia].
  destruct (Z.leb_spec gx (otrPrime - 2)); [|lia]. reflexivity.
Qed.

Lemma commit_then_reveal_consistent_witness :
  exists out a',
    @serializeDHCommit prefixHashOps unitSmpTypes sampleConversation
      (Some 0x1234) = Ret out
    /\ @processDHCommit unitSmpTypes sampleConversation (drop 3 out)
       = Ret (set_ake sampleConversation (Some a'), None)
    /\ ake_encryptedGx a' = ake_encryptedGx sampleAke
    /\ ake_hashedGx a'
       = @sha256_Sum256 prefixHashOps (appendData [] (bigIntBytes 0x1234))
    /\ @checkDecryptedGx prefixHashOps (appendData [] (bigIntBytes 0x1234))
         (ake_hashedGx a') = None
    /\ @extractGx otrGroup (appendData [] (bigIntBytes 0x1234))
       = (Some 0x1234, None).
Proof.
  assert (Hr : 2 <= 0x1234 <= @otrPrime otrGroup - 2) by (simpl; lia).
  assert (Hl : Z.of_nat (length (bigIntBytes 0x1234)) < 4294967296)
    by (vm_compute; reflexivity).
  assert (Hle : Z.of_nat (length (ake_encryptedGx sampleAke)) < 4294967296)
    by (vm_compute; reflexivity).
  assert (Hnz : @sha256_Sum256 prefixHashOps (appendData [] (bigIntBytes 0x1234))
                <> replicate 32 x00) by (vm_compute; discriminate).
  exact (@commit_then_reveal_consistent otrGroup prefixHashOps unitSmpTypes
           sampleConversation sampleConversation sampleAke sampleAke 0x1234
           eq_refl eq_refl Hr Hl Hle eq_refl eq_refl Hnz).
Defined.

(** X24: [revealSig.serialize] writes [encryptedSig] as it is, and
    [revealSig.deserialize] reads a DATA field in its place.  So a message
    whose [encryptedSig] is the DATA encoding of [xb] (which is how
    [generateEncryptedSignature] returns it) comes back with [encryptedSig]
    = [xb], without the length; [r] comes back as it was and the MAC cut to
    its first 20 bytes. *)
Theorem revealSig_serialize_deserialize (m : revealSig) (xb : bytes) :
  revealSig_encryptedSig m = appendData [] xb ->
  length (revealSig_r m) = 16%nat ->
  (20 <= length (revealSig_macSig m))%nat ->
  Z.of_nat (length xb) < 4294967296 ->
  exists out,
    revealSig_serialize m = Ret out
    /\ revealSig_deserialize zeroRevealSig
         (drop (dhMessage_headerLen (revealSig_dhMessage m)) out)
       = ({| revealSig_dhMessage := zeroDhMessage;
             revealSig_r := revealSig_r m;
             revealSig_encryptedSig := xb;
             revealSig_macSig := take 20 (revealSig_macSig m) |}, None).
Proof.
  intros He Hr Hm Hx. unfold revealSig_serialize.
  destruct (Nat.ltb_spec (length (revealSig_macSig m)) 20); [lia|].
  eexists. split; [reflexivity|].
  rewrite appendData_app, <- !app_assoc. unfold dhMessage_headerLen.
  rewrite serialize_header_drop. unfold revealSig_deserialize.
  rewrite extractData_appendData by lia.
  rewrite He, extractData_appendData by exact Hx.
  rewrite length_take, Nat.min_l by lia. cbn [Nat.eqb negb orb].
  cbn [revealSig_r revealSig_dhMessage zeroRevealSig]. unfold copyInto.
  rewrite length_replicate, <- Hr, firstn_all.
  rewrite drop_ge by (rewrite length_replicate; lia).
  rewrite app_nil_r. reflexivity.
Qed.

Lemma revealSig_serialize_deserialize_witness :
  (revealSig_encryptedSig
     {| revealSig_dhMessage := zeroDhMessage;
        revealSig_r := replicate 16 x01;
        revealSig_encryptedSig := appendData [] [xaa; xbb];
        revealSig_macSig := replicate 32 x07 |} = appendData [] [xaa; xbb]
   /\ length (replicate 16 x01) = 16%nat
   /\ (20 <= length (replicate 32 x07))%nat
   /\ Z.of_nat (length [xaa; xbb]) < 4294967296)
  /\ exists out,
       revealSig_serialize
         {| revealSig_dhMessage := zeroDhMessage;
            revealSig_r := replicate 16 x01;
            revealSig_encryptedSig := appendData [] [xaa; xbb];
            revealSig_macSig := replicate 32 x07 |} = Ret out
       /\ revealSig_deserialize zeroRevealSig (drop 3 out)
          = ({| revealSig_dhMessage := zeroDhMessage;
                revealSig_r := replicate 16 x01;
                revealSig_encryptedSig := [xaa; xbb];
                revealSig_macSig := replicate 20 x07 |}, None).
Proof.
  assert (Hm : (20 <= length (replicate 32 x07))%nat) by (simpl; lia).
  assert (Hx : Z.of_nat (length [xaa; xbb]) < 4294967296) by (simpl; lia).
  split; [split; [reflexivity | split; [reflexivity | split;
                                          [exact Hm | exact Hx]]]|].
  exact (revealSig_serialize_deserialize
           {| revealSig_dhMessage := zeroDhMessage;
              revealSig_r := replicate 16 x01;
              revealSig_encryptedSig := appendData [] [xaa; xbb];
              revealSig_macSig := replicate 32 x07 |} [xaa; xbb]
           eq_refl eq_refl Hm Hx).
Defined.

(** X25: [verifyEncryptedSignatureMAC] accepts a MAC exactly when it is the
    first 20 bytes of the HMAC, under [m2], of the DATA encoding of the
    encrypted signature (the HMAC being at least 20 bytes long, as
    HMAC-SHA256 is). *)
Theorem verifyEncryptedSignatureMAC_ok_iff `{HashOps}
    (encryptedSig theirMAC : bytes) (keys : akeKeys) :
  (20 <= length (sumHMAC (akeKeys_m2 keys) (appendData [] encryptedSig)))%nat ->
  verifyEncryptedSignatureMAC encryptedSig theirMAC keys = Ret None
  <-> theirMAC
      = take 20 (sumHMAC (akeKeys_m2 keys) (appendData [] encryptedSig)).
Proof.
  intros Hl. unfold verifyEncryptedSignatureMAC, constantTimeCompare.
  set (mac := sumHMAC (akeKeys_m2 keys) (appendData [] encryptedSig)) in *.
  destruct (Nat.ltb_spec (length mac) 20); [lia|].
  split.
  - destruct (Nat.eqb_spec (length (take 20 mac)) (length theirMAC));
      cbn [negb orb]; [|discriminate].
    destruct (bytesEqb (take 20 mac) theirMAC) eqn:He; [|discriminate].
    intros _. apply bytesEqb_eq in He. symmetry. exact He.
  - intros ->. rewrite Nat.eqb_refl, bytesEqb_refl. reflexivity.
Qed.

Lemma verifyEncryptedSignatureMAC_ok_iff_witness :
  (20 <= length (@sumHMAC prefixHashOps (akeKeys_m2 (sigKey sampleAke))
                   (appendData [] [xaa; xbb])))%nat
  /\ (@verifyEncryptedSignatureMAC prefixHashOps [xaa; xbb] (replicate 20 x08)
        (sigKey sampleAke) = Ret None
      <-> replicate 20 x08
          = take 20 (@sumHMAC prefixHashOps (akeKeys_m2 (sigKey sampleAke))
                       (appendData [] [xaa; xbb]))).
Proof.
  assert (Hl : (20 <= length (@sumHMAC prefixHashOps
                                (akeKeys_m2 (sigKey sampleAke))
                                (appendData [] [xaa; xbb])))%nat)
    by (vm_compute; lia).
  split; [exact Hl|].
  exact (@verifyEncryptedSignatureMAC_ok_iff prefixHashOps [xaa; xbb]
           (replicate 20 x08) (sigKey sampleAke) Hl).
Defined.

(** X26: the MAC of a Signature message verifies on the other side.  The
    sender computes the MAC over [encryptedSig], which is DATA(xb), and
    writes both as they are; the receiver reads [xb] out of the DATA field
    and [verifyEncryptedSignatureMAC] computes the MAC over DATA(xb)
    again: framing and unframing cancel, and the 20 bytes that
    [serialize] keeps of the MAC are the 20 bytes that the check
    compares. *)
Theorem sig_serialize_mac_verifies `{HashOps} (keys : akeKeys) (xb : bytes)
    (hdr : dhMessage) :
  (20 <= length (sumHMAC (akeKeys_m2 keys) (appendData [] xb)))%nat ->
  Z.of_nat (length xb) < 4294967296 ->
  exists out m',
    sig_serialize
      {| sig_dhMessage := hdr;
         sig_encryptedSig := appendData [] xb;
         sig_macSig := sumHMAC (akeKeys_m2 keys) (appendData [] xb) |}
    = Ret out
    /\ sig_deserialize zeroSig (drop (dhMessage_headerLen hdr) out) = (m', None)
    /\ sig_encryptedSig m' = xb
    /\ verifyEncryptedSignatureMAC (sig_encryptedSig m') (sig_macSig m') keys
       = Ret None.
Proof.
  intros Hl Hx. unfold sig_serialize.
  cbn [sig_dhMessage sig_encryptedSig sig_macSig].
  set (mac := sumHMAC (akeKeys_m2 keys) (appendData [] xb)) in *.
  destruct (Nat.ltb_spec (length mac) 20); [lia|].
  eexists _, {| sig_dhMessage := zeroDhMessage; sig_encryptedSig := xb;
                sig_macSig := take 20 mac |}.
  split; [reflexivity|]. split.
  { rewrite <- !app_assoc. unfold dhMessage_headerLen.
    rewrite serialize_header_drop. unfold sig_deserialize.
    rewrite extractData_appendData by exact Hx.
    rewrite length_take, Nat.min_l by lia. reflexivity. }
  split; [reflexivity|].
  cbn [sig_encryptedSig sig_macSig].
  unfold verifyEncryptedSignatureMAC, constantTimeCompare. fold mac.
  destruct (Nat.ltb_spec (length mac) 20); [lia|].
  rewrite Nat.eqb_refl, bytesEqb_refl. reflexivity.
Qed.

Lemma sig_serialize_mac_verifies_witness :
  exists out m',
    sig_serialize
      {| sig_dhMessage := zeroDhMessage;
         sig_encryptedSig := appendData [] [xaa; xbb];
         sig_macSig := @sumHMAC prefixHashOps (akeKeys_m2 (sigKey sampleAke))
                         (appendData [] [xaa; xbb]) |}
    = Ret out
    /\ sig_deserialize zeroSig (drop 3 out) = (m', None)
    /\ sig_encryptedSig m' = [xaa; xbb]
    /\ @verifyEncryptedSignatureMAC prefixHashOps (sig_encryptedSig m')
         (sig_macSig m') (sigKey sampleAke) = Ret None.
Proof.
  assert (Hl : (20 <= length (@sumHMAC prefixHashOps
                                (akeKeys_m2 (sigKey sampleAke))
                                (appendData [] [xaa; xbb])))%nat)
    by (vm_compute; lia).
  assert (Hx : Z.of_nat (length [xaa; xbb]) < 4294967296) by (simpl; lia).
  exact (@sig_serialize_mac_verifies prefixHashOps (sigKey sampleAke)
           [xaa; xbb] zeroDhMessage Hl Hx).
Defined.

(** ** Fragment prefixes of version 3 *)

Lemma padZeros_length (w : nat) (s : bytes) : (w <= length (padZeros w s))%nat.
Proof. unfold padZeros. rewrite length_app, length_replicate. lia. Qed.

(** X27: the prefix that [otrV3.fragmentPrefix] writes is at least 35 bytes
    long, whatever the numbers, which is more than the 26 bytes that
    [otrV3.minFragmentSize] returns; and [otrV3.isFragmented] recognizes
    every message that starts with such a prefix. *)
Theorem otrV3_fragmentPrefix_length (n total : nat) (itags itagr : Z)
    (payload : bytes) :
  (35 <= length (otrV3_fragmentPrefix n total itags itagr))%nat
  /\ (otrV3_minFragmentSize < length (otrV3_fragmentPrefix n total itags itagr))%nat
  /\ otrV3_isFragmented (otrV3_fragmentPrefix n total itags itagr ++ payload)
     = true.
Proof.
  assert (Hl : (35 <= length (otrV3_fragmentPrefix n total itags itagr))%nat).
  { unfold otrV3_fragmentPrefix, fmtHex, fmtDec. rewrite !length_app.
    pose proof (padZeros_length 8
                  (bytesOfHexUint (N.to_hex_uint (Z.to_N itags)))).
    pose proof (padZeros_length 8
                  (bytesOfHexUint (N.to_hex_uint (Z.to_N itagr)))).
    pose proof (padZeros_length 5
                  (bytesOfDecUint (N.to_uint (Z.to_N (Z.of_nat n + 1))))).
    pose proof (padZeros_length 5
                  (bytesOfDecUint (N.to_uint (Z.to_N (Z.of_nat total))))).
    simpl length. lia. }
  split; [exact Hl|]. split; [unfold otrV3_minFragmentSize; lia|].
  unfold otrV3_isFragmented, otrV3_fragmentPrefix. reflexivity.
Qed.

(** ** Heartbeats *)

(** X28: heartbeats are rate limited.  When [maybeHeartbeat] has returned a
    heartbeat message at the instant [now], a call at any instant up to 60
    seconds later returns no heartbeat, signals nothing and changes neither
    the heap, the conversation nor the heartbeat context. *)
Theorem maybeHeartbeat_rate_limit `{ConversationOps} `{!HeartbeatOps}
    (now now' : Z) (h h1 : heap) (c c1 : Conversation)
    (hb hb1 : heartbeatContext) (plain toSend plain' toSend' p t : option bytes)
    (err err' e : option error) (extra : bytes) (evs : list heartbeatEvent) :
  maybeHeartbeat now h c hb plain toSend err
  = (h1, c1, hb1, (p, t, Some extra, e), evs) ->
  now' - heartbeatInterval <= now ->
  maybeHeartbeat now' h1 c1 hb1 plain' toSend' err'
  = (h1, c1, hb1,
     match err' with
     | Some e' => (None, None, None, Some e')
     | None => (plain', toSend', None, None)
     end, []).
Proof.
  intros Hfirst Hnow.
  assert (Hhb : lastSent hb1 = now).
  { revert Hfirst. unfold maybeHeartbeat, potentialHeartbeat.
    destruct err; [discriminate|]. destruct plain; [|discriminate].
    destruct (lastSent hb <? now + - heartbeatInterval); [|discriminate].
    destruct (genDataMsgWithFlag h c [] messageFlagIgnoreUnreadable)
      as [[[h' c'] d] [e'|]]; [discriminate|].
    intros [= _ _ <- _ _ _ _ _]. reflexivity. }
  unfold maybeHeartbeat, potentialHeartbeat. destruct err'; [reflexivity|].
  destruct plain'; [|reflexivity].
  rewrite Hhb. destruct (Z.ltb_spec now (now' + - heartbeatInterval)); [lia|].
  reflexivity.
Qed.

Lemma maybeHeartbeat_rate_limit_witness :
  @maybeHeartbeat unitSmpTypes unitConversationOps unitHeartbeatOps
    100000000000 sampleHeap plainConversation {| lastSent := 0 |}
    (Some [x68; x69]) None None
  = (sampleHeap, plainConversation, {| lastSent := 100000000000 |},
     (Some [x68; x69], None, Some [x00], None), [MessageEventHeartbeatSent])
  /\ 130000000000 - heartbeatInterval <= 100000000000
  /\ @maybeHeartbeat unitSmpTypes unitConversationOps unitHeartbeatOps
       130000000000 sampleHeap plainConversation
       {| lastSent := 100000000000 |} (Some [x68; x69]) None None
     = (sampleHeap, plainConversation, {| lastSent := 100000000000 |},
        (Some [x68; x69], None, None, None), []).
Proof.
  assert (Hfirst : @maybeHeartbeat unitSmpTypes unitConversationOps
                     unitHeartbeatOps 100000000000 sampleHeap plainConversation
                     {| lastSent := 0 |} (Some [x68; x69]) None None
                   = (sampleHeap, plainConversation,
                      {| lastSent := 100000000000 |},
                      (Some [x68; x69], None, Some [x00], None),
                      [MessageEventHeartbeatSent])) by reflexivity.
  assert (Hnow : 130000000000 - heartbeatInterval <= 100000000000)
    by (unfold heartbeatInterval; lia).
  split; [exact Hfirst|]. split; [exact Hnow|].
  exact (@maybeHeartbeat_rate_limit unitSmpTypes unitConversationOps
           unitHeartbeatOps _ 130000000000 _ _ _ _ _ _ _ _
           (Some [x68; x69]) None _ _ _ None _ _ _ Hfirst Hnow).
Defined.

(** X29: [potentialHeartbeat] moves [lastSent] only together with a
    heartbeat that it returns: whenever it returns no message (no plain
    text, the interval not over, or an error while building the message),
    the heartbeat context is as before and no event is signalled. *)
Theorem potentialHeartbeat_keeps_lastSent `{ConversationOps} `{!HeartbeatOps}
    (now : Z) (h h1 : heap) (c c1 : Conversation) (hb hb1 : heartbeatContext)
    (plain : option bytes) (e : option error) (evs : list heartbeatEvent) :
  potentialHeartbeat now h c hb plain = (h1, c1, hb1, None, e, evs) ->
  hb1 = hb /\ evs = [].
Proof.
  unfold potentialHeartbeat. destruct plain; [|intros [= _ _ <- _ <-]; auto].
  destruct (lastSent hb <? now + - heartbeatInterval);
    [|intros [= _ _ <- _ <-]; auto].
  destruct (genDataMsgWithFlag h c [] messageFlagIgnoreUnreadable)
    as [[[h' c'] d] [e'|]]; [|discriminate].
  intros [= _ _ <- _ <-]. auto.
Qed.

Lemma potentialHeartbeat_keeps_lastSent_witness :
  @potentialHeartbeat unitSmpTypes unitConversationOps unitHeartbeatOps
    30000000000 sampleHeap plainConversation {| lastSent := 0 |}
    (Some [x68; x69])
  = (sampleHeap, plainConversation, {| lastSent := 0 |}, None, None, [])
  /\ ({| lastSent := 0 |} = {| lastSent := 0 |}
      /\ @nil heartbeatEvent = []).
Proof.
  assert (Hp : @potentialHeartbeat unitSmpTypes unitConversationOps
                 unitHeartbeatOps 30000000000 sampleHeap plainConversation
                 {| lastSent := 0 |} (Some [x68; x69])
               = (sampleHeap, plainConversation, {| lastSent := 0 |},
                  None, None, [])) by reflexivity.
  split; [exact Hp|].
  exact (@potentialHeartbeat_keeps_lastSent unitSmpTypes unitConversationOps
           unitHeartbeatOps _ _ _ _ _ _ _ _ _ _ Hp).
Defined.
